(** * MNIST classifier and autoencoder drivers: model and verified properties

    The repository holds two Go programs, [src/unnamed/part_000] (the
    classifier) and [src/autoencoder/main.go] (the autoencoder).  Both load
    MNIST, train a fixed network batch by batch and then run an evaluation
    pass that writes images (and, for the classifier, CSV files).

    This file embeds the code that belongs to the repository: the pixel
    mapping [reversePixelWeight], [visualizeRow], the two arg-max loops, the
    CSV rows, and the control flow of the training and evaluation loops of
    [main].  The tensor values are modelled as dense row-major matrices; the
    tape machine and the solver of the autodiff library are an interface
    ([Gorgonia]) of which the loops only use the calls that [main] makes. *)

From Stdlib Require Import ZArith QArith Qround Qabs Qpower Lia Lqa Ascii String.
From Stdlib Require Import SpecFloat.
From stdpp Require Import base list strings gmap.

Local Open Scope Z_scope.

(** ** Go [float64] values

    A [float64] is NaN, an infinity, negative zero, or a finite rational.
    Every finite binary64 number is a rational, so a statement proved for
    all [Finite q] covers all of them; the results of arithmetic are rounded
    to binary64 by [round64] (round to nearest, ties to even, 53 bits of
    precision, gradual underflow below 2^-1022, overflow from 2^1024). *)

Module F64.

Inductive float64 : Type :=
| NaN
| PInf
| NInf
| NZero
| Finite (q : Q).

(** [binade q] is the exponent [e] with [2^e <= |q| < 2^(e+1)] ([q] not 0). *)
Definition binade (q : Q) : Z :=
  let e := Z.log2 (Z.abs (Qnum q)) - Z.log2 (Zpos (Qden q)) in
  if Qle_bool (Qpower 2 e) (Qabs q) then e else e - 1.

(** Rounding of a rational to the nearest integer, ties to even. *)
Definition rne (q : Q) : Z :=
  let f := Qfloor q in
  match Qcompare (q - inject_Z f) (1 # 2) with
  | Lt => f
  | Gt => f + 1
  | Eq => if Z.even f then f else f + 1
  end.

(** Exponent of the unit in the last place of the binary64 numbers around
    [q]: 52 below the binade, and never below 2^-1074. *)
Definition ulp_exp (q : Q) : Z := Z.max (binade q) (-1022) - 52.

Definition Qneg_bool (q : Q) : bool := negb (Qle_bool 0 q).

(** Binary64 is a sign and magnitude format: the magnitude is rounded to a
    multiple of the unit in the last place and the sign is put back. *)
Definition round_mag (q : Q) : Q :=
  let u := Qpower 2 (ulp_exp q) in (inject_Z (rne (Qabs q / u)) * u)%Q.

Definition round64 (q : Q) : Q :=
  if Qeq_bool q 0 then 0%Q
  else if Qneg_bool q then (- round_mag q)%Q else round_mag q.

(** The binary64 value of a real result [q] that is not an exact zero. *)
Definition of_real (q : Q) : float64 :=
  let r := round64 q in
  if Qle_bool (Qpower 2 1024) (Qabs r) then (if Qneg_bool q then NInf else PInf)
  else if Qeq_bool r 0 && Qneg_bool q then NZero
  else Finite r.

(** A decimal constant of the source, converted to [float64]. *)
Definition const (q : Q) : float64 := of_real q.

Definition signbit (x : float64) : bool :=
  match x with
  | NInf | NZero => true
  | Finite q => Qneg_bool q
  | NaN | PInf => false
  end.

Definition is_zero (x : float64) : bool :=
  match x with
  | NZero => true
  | Finite q => Qeq_bool q 0
  | _ => false
  end.

Definition is_inf (x : float64) : bool :=
  match x with PInf | NInf => true | _ => false end.

Definition is_nan (x : float64) : bool :=
  match x with NaN => true | _ => false end.

(** The rational value of a finite float (0 for the others). *)
Definition val (x : float64) : Q :=
  match x with Finite q => q | _ => 0%Q end.

(** Comparison; [None] when one side is NaN (unordered). *)
Definition cmp (x y : float64) : option comparison :=
  match x, y with
  | NaN, _ | _, NaN => None
  | PInf, PInf | NInf, NInf => Some Eq
  | PInf, _ | _, NInf => Some Gt
  | NInf, _ | _, PInf => Some Lt
  | _, _ => Some (Qcompare (val x) (val y))
  end.

(** Go's [x > y], [x < y], [x == y], [x >= y], [x <= y]. *)
Definition gt (x y : float64) : bool :=
  match cmp x y with Some Gt => true | _ => false end.
Definition lt (x y : float64) : bool :=
  match cmp x y with Some Lt => true | _ => false end.
Definition eq (x y : float64) : bool :=
  match cmp x y with Some Eq => true | _ => false end.
Definition ge (x y : float64) : bool :=
  match cmp x y with Some Gt | Some Eq => true | _ => false end.
Definition le (x y : float64) : bool :=
  match cmp x y with Some Lt | Some Eq => true | _ => false end.

(** Go's [x * y]. *)
Definition mul (x y : float64) : float64 :=
  if is_nan x || is_nan y then NaN
  else
    let s := xorb (signbit x) (signbit y) in
    if is_inf x || is_inf y then
      (if is_zero x || is_zero y then NaN else if s then NInf else PInf)
    else if is_zero x || is_zero y then (if s then NZero else Finite 0)
    else of_real (val x * val y).

(** Go's [x - y]. *)
Definition sub (x y : float64) : float64 :=
  match x, y with
  | NaN, _ | _, NaN => NaN
  | PInf, PInf | NInf, NInf => NaN
  | PInf, _ | _, NInf => PInf
  | NInf, _ | _, PInf => NInf
  | _, _ =>
      let d := (val x - val y)%Q in
      if Qeq_bool d 0 then
        (if signbit x && negb (signbit y) then NZero else Finite 0)
      else of_real d
  end.

(** [math.Max] and [math.Min], with their special cases in the order of the
    Go library: an infinity of the right sign wins, then NaN, then the
    signed zeros. *)
Definition Max (x y : float64) : float64 :=
  if (match x with PInf => true | _ => false end)
     || (match y with PInf => true | _ => false end) then PInf
  else if is_nan x || is_nan y then NaN
  else if is_zero x && eq x y then (if signbit x then y else x)
  else if gt x y then x else y.

Definition Min (x y : float64) : float64 :=
  if (match x with NInf => true | _ => false end)
     || (match y with NInf => true | _ => false end) then NInf
  else if is_nan x || is_nan y then NaN
  else if is_zero x && eq x y then (if signbit x then x else y)
  else if lt x y then x else y.

(** Truncation of a rational toward zero. *)
Definition Qtrunc (q : Q) : Z :=
  if Qle_bool 0 q then Qfloor q else Qceiling q.

(** The conversion [byte(x)] as the gc compiler emits it on amd64: a
    truncating conversion to a signed 32-bit integer (which yields
    [-2^31] for NaN and for values out of range) followed by the low
    eight bits.  The Go specification leaves the result open when the
    truncated value does not fit the byte. *)
Definition to_int32 (x : float64) : Z :=
  match x with
  | NaN | PInf | NInf => - 2 ^ 31
  | NZero => 0
  | Finite q =>
      let t := Qtrunc q in
      if (- 2 ^ 31 <=? t) && (t <? 2 ^ 31) then t else - 2 ^ 31
  end.

Definition to_byte (x : float64) : Z := to_int32 x mod 256.

End F64.

Import F64.

(** ** Pixel visualisation ([reversePixelWeight], [visualizeRow]) *)

Definition pixelRange : float64 := Finite 255.

Definition clampPixel (px : float64) : float64 :=
  Min (const (99 # 100)) (Max (const (1 # 100)) px).

Definition reversePixelWeight (px : float64) : Z :=
  to_byte (sub (mul pixelRange (clampPixel px)) pixelRange).

(** The binary64 values of the constants [0.01] and [0.99]. *)
Definition c01 : Q := Eval vm_compute in round64 (1 # 100).
Definition c99 : Q := Eval vm_compute in round64 (99 # 100).

(** The byte as a float again ([float64(b)]), to feed a pixel back in. *)
Definition of_byte (b : Z) : float64 := Finite (inject_Z b).

(** ** The arg-max loops of the evaluation pass

    The classifier computes the true label from the target row and the
    guess from the prediction row with two copies of the same loop over
    [k = 0 .. 9].  [None] stands for the run-time panic of an index out of
    range. *)

Definition argmax_step (row : list float64) (st : nat * float64) (k : nat)
  : option (nat * float64) :=
  match row !! k with
  | None => None
  | Some x =>
      if Nat.eqb k 0 then Some (0%nat, x)
      else if gt x (snd st) then Some (k, x)
      else Some st
  end.

Fixpoint argmax_loop (n : nat) (k : nat) (row : list float64)
  (st : nat * float64) : option (nat * float64) :=
  match n with
  | O => Some st
  | S n' =>
      match argmax_step row st k with
      | None => None
      | Some st' => argmax_loop n' (S k) row st'
      end
  end.

(** [var rowLabel int; var yRowHigh float64] start at zero. *)
Definition argmax10 (row : list float64) : option nat :=
  fst <$> argmax_loop 10 0 row (0%nat, Finite 0).

(** ** Decimal output: [%d] and [strconv.FormatFloat(x, 'f', 6, 64)] *)

Definition digit (d : Z) : ascii := ascii_of_nat (48 + Z.to_nat d).

Fixpoint utoa_aux (fuel : nat) (n : Z) (acc : string) : string :=
  match fuel with
  | O => acc
  | S fuel' =>
      let acc' := String (digit (n mod 10)) acc in
      if n / 10 =? 0 then acc' else utoa_aux fuel' (n / 10) acc'
  end.

(** Decimal digits of a natural number; it has at most [log2 n + 1]. *)
Definition utoa (n : Z) : string := utoa_aux (S (Z.to_nat (Z.log2 n))) n "".

Definition itoa (z : Z) : string :=
  if z <? 0 then String "-" (utoa (- z)) else utoa z.

(** The six digits after the point. *)
Definition frac6 (f : Z) : string :=
  String (digit (f / 100000 mod 10))
    (String (digit (f / 10000 mod 10))
       (String (digit (f / 1000 mod 10))
          (String (digit (f / 100 mod 10))
             (String (digit (f / 10 mod 10))
                (String (digit (f mod 10)) ""))))).

(** A magnitude with six decimals; the decimal digits are those of the
    exact value, rounded to nearest with ties to even. *)
Definition fixed6 (q : Q) : string :=
  let n := rne (q * 1000000) in
  utoa (n / 1000000) +:+ String "." (frac6 (n mod 1000000)).

Definition FormatFloat_f6 (x : float64) : string :=
  match x with
  | NaN => "NaN"
  | PInf => "+Inf"
  | NInf => "-Inf"
  | NZero => "-0.000000"
  | Finite q => if Qneg_bool q then String "-" (fixed6 (Qabs q)) else fixed6 q
  end.

(** ** [encoding/csv]: [Writer.WriteAll] with the default comma *)

Definition nl : ascii := ascii_of_nat 10.
Definition cr : ascii := ascii_of_nat 13.
Definition dquote : ascii := ascii_of_nat 34.
Definition comma : ascii := ascii_of_nat 44.

Fixpoint string_any (p : ascii -> bool) (s : string) : bool :=
  match s with
  | EmptyString => false
  | String c s' => p c || string_any p s'
  end.

Definition is_space (c : ascii) : bool :=
  let n := nat_of_ascii c in
  ((9 <=? n) && (n <=? 13))%nat || Nat.eqb n 32.

Definition fieldNeedsQuotes (field : string) : bool :=
  match field with
  | EmptyString => false
  | String c0 _ =>
      if String.eqb field (String "\" (String "." "")) then true
      else if string_any (fun c => Ascii.eqb c nl || Ascii.eqb c cr
                                   || Ascii.eqb c dquote || Ascii.eqb c comma) field
      then true
      else is_space c0
  end.

Fixpoint escape_quotes (s : string) : string :=
  match s with
  | EmptyString => EmptyString
  | String c s' =>
      if Ascii.eqb c dquote then String c (String c (escape_quotes s'))
      else String c (escape_quotes s')
  end.

Definition csvField (field : string) : string :=
  if fieldNeedsQuotes field
  then String dquote (escape_quotes field +:+ String dquote "")
  else field.

Fixpoint csvFields (record : list string) : string :=
  match record with
  | [] => ""
  | [f] => csvField f
  | f :: rest => csvField f +:+ String comma (csvFields rest)
  end.

Definition csvRecord (record : list string) : string :=
  csvFields record +:+ String nl "".

Fixpoint csvWriteAll (records : list (list string)) : string :=
  match records with
  | [] => ""
  | r :: rest => csvRecord r +:+ csvWriteAll rest
  end.

(** Reading a file back: the lines it holds and the fields of a line.  A
    last line without its newline counts as a line. *)
Fixpoint split (sep : ascii) (s : string) : list string :=
  match s with
  | EmptyString => [EmptyString]
  | String c s' =>
      if Ascii.eqb c sep then EmptyString :: split sep s'
      else match split sep s' with
           | h :: t => String c h :: t
           | [] => [String c EmptyString]
           end
  end.

Fixpoint drop_last_empty (l : list string) : list string :=
  match l with
  | [] => []
  | [EmptyString] => []
  | x :: rest => x :: drop_last_empty rest
  end.

Definition file_lines (content : string) : list string :=
  drop_last_empty (split nl content).

Definition file_rows (content : string) : list (list string) :=
  map (split comma) (file_lines content).

Definition is_digit (c : ascii) : bool :=
  let n := nat_of_ascii c in ((48 <=? n) && (n <=? 57))%nat.

Fixpoint all_digits (s : string) : bool :=
  match s with
  | EmptyString => true
  | String c s' => is_digit c && all_digits s'
  end.

(** [digits.dddddd], with an optional sign: the shape of a value printed
    with six decimal places. *)
Fixpoint six_decimal_unsigned (s : string) (seen_digit : bool) : bool :=
  match s with
  | EmptyString => false
  | String c s' =>
      if Ascii.eqb c "."
      then seen_digit && Nat.eqb (String.length s') 6 && all_digits s'
      else is_digit c && six_decimal_unsigned s' true
  end.

Definition six_decimal (s : string) : bool :=
  match s with
  | String "-" s' => six_decimal_unsigned s' false
  | _ => six_decimal_unsigned s false
  end.

(** An index [i] attains the maximum of the ten entries when its entry is
    at least every entry, in the order of Go's comparison.  A row that
    holds a NaN has no such index. *)
Definition attains_max (row : list float64) (i : nat) : Prop :=
  (i < 10)%nat /\
  exists x, row !! i = Some x /\
    forall j y, (j < 10)%nat -> row !! j = Some y -> le y x = true.

(** A one-hot row: ten entries, [1.0] at [i] and [0.0] elsewhere. *)
Definition one_hot (row : list float64) (i : nat) : Prop :=
  length row = 10%nat /\ (i < 10)%nat /\
  forall k x, row !! k = Some x ->
    eq x (if Nat.eqb k i then Finite 1 else Finite 0) = true.

(** The order of the values that are not NaN, as a pair of keys: the tier
    ([-1] for the negative infinity, [1] for the positive one) and then
    the value. *)
Definition tier (x : float64) : Q :=
  match x with PInf => 1%Q | NInf => (- (1))%Q | _ => 0%Q end.

Definition key_le (x y : float64) : Prop :=
  (tier x < tier y \/ (tier x == tier y /\ val x <= val y))%Q.

Definition key_lt (x y : float64) : Prop :=
  (tier x < tier y \/ (tier x == tier y /\ val x < val y))%Q.

(** After the entries below [k] have been seen, the state of the arg-max
    loop holds the least index of a greatest entry among them. *)
Definition argmax_inv (row : list float64) (k : nat) (st : nat * float64) : Prop :=
  k = 0%nat \/
  ((fst st < k)%nat /\ row !! fst st = Some (snd st) /\
   (forall j x, (j < k)%nat -> row !! j = Some x -> le x (snd st) = true) /\
   (forall j x, (j < fst st)%nat -> row !! j = Some x -> lt x (snd st) = true)).

(** ** Dense matrices of the tensor library

    [main] handles its data through [Shape], [Slice], [Reshape], [Data] and
    [tensor.New].  A matrix is its shape and its row-major backing array;
    [Slice] takes a range of rows and fails unless
    [0 <= start < end <= rows]. *)

Inductive error : Type :=
| ErrSlice
| ErrShape
| ErrRun (msg : string)
| ErrLoad (msg : string).

Record Dense := mkDense { nrows : Z; ncols : Z; backing : list float64 }.

Definition Slice (t : Dense) (start end_ : Z) : error + Dense :=
  if (0 <=? start) && (start <? end_) && (end_ <=? nrows t) then
    inr (mkDense (end_ - start) (ncols t)
           (take (Z.to_nat ((end_ - start) * ncols t))
              (drop (Z.to_nat (start * ncols t)) (backing t))))
  else inl ErrSlice.

Definition Reshape (t : Dense) (r c : Z) : error + Dense :=
  if (0 <=? r) && (r * c =? nrows t * ncols t)
  then inr (mkDense r c (backing t)) else inl ErrShape.

(** [t.Slice(sli{j, j+1})] followed by [Data()]; the error of the slice is
    dropped by the source, and [Data()] on the nil result panics ([None]). *)
Definition rowData (t : Dense) (j : Z) : option (list float64) :=
  match Slice t j (j + 1) with
  | inr r => Some (backing r)
  | inl _ => None
  end.

(** [tensor.New(tensor.WithShape(r, c), tensor.WithBacking(b))] panics
    ([None]) when the backing array does not fit the shape. *)
Definition newDense (r c : Z) (b : list float64) : option Dense :=
  if r * c =? Z.of_nat (length b) then Some (mkDense r c b) else None.

(** ** The rows of the CSV file

    [for k := 0; k < 10; k++ { rowToWrite = append(rowToWrite, ...) }] and
    the loop over the rows of [yOutput] around it. *)
Fixpoint csvRow (n k : nat) (row : list float64) (rowToWrite : list string)
  : option (list string) :=
  match n with
  | O => Some rowToWrite
  | S n' =>
      match row !! k with
      | None => None
      | Some x => csvRow n' (S k) row (rowToWrite ++ [FormatFloat_f6 x])
      end
  end.

Fixpoint csvMatrix (n : nat) (j : Z) (yOutput : Dense)
  (matrixToWrite : list (list string)) : option (list (list string)) :=
  match n with
  | O => Some matrixToWrite
  | S n' =>
      match rowData yOutput j with
      | None => None
      | Some row =>
          match csvRow 10 0 row [] with
          | None => None
          | Some rowToWrite =>
              csvMatrix n' (j + 1) yOutput (matrixToWrite ++ [rowToWrite])
          end
      end
  end.

(** ** Images *)

Record Gray := mkGray { side : Z; Pix : list Z }.

Definition visualizeRow (x : list float64) : Gray :=
  mkGray (Z.sqrt (Z.of_nat (length x))) (map reversePixelWeight x).

(** ** The autodiff library and the operating system, as [main] uses them

    [machine] is the state of the tape machine with the values of the
    learnable nodes and of the solver; [RunAll] is [gg.Let] of the two
    inputs followed by [vm.RunAll()]. *)

Class Gorgonia := {
  machine : Type;
  RunAll : machine -> Dense -> Dense -> error + machine;
  SolverStep : machine -> machine;
  Reset : machine -> machine;
  predVal : machine -> list float64;
  costVal : machine -> string;
  learnables : machine -> list (list float64);
  Error : error -> string;
  pngEncode : Gray -> string;
}.

Record Env := mkEnv {
  flag_epochs : Z;
  flag_batchsize : Z;
  flag_dataset : string;
  mnistLoad : string -> error + Dense * Dense;
  denied : string -> bool;
}.

Inductive event : Type :=
| EvLog (line : string)
| EvFeed (x y : Dense)
| EvStep
| EvWrite (path content : string) (opened : bool).

Definition imgPath : string := "./images/".
Definition csvPath : string := "./csv/".

Section Program.

Context {G : Gorgonia}.
Variable env : Env.

Record world := mkWorld {
  vm : machine;
  fs : gmap string string;
  trace : list event;
}.

(** A computation ends normally or with the exit of the process:
    status 1 after [log.Fatal], status 2 after a run-time panic. *)
Inductive result (A : Type) : Type :=
| Ok (a : A) (w : world)
| Exit (code : Z) (w : world).
Arguments Ok {A}.
Arguments Exit {A}.

Definition M (A : Type) : Type := world -> result A.

Definition ret {A} (a : A) : M A := fun w => Ok a w.

Definition bind {A B} (c : M A) (k : A -> M B) : M B :=
  fun w => match c w with
           | Ok a w' => k a w'
           | Exit code w' => Exit code w'
           end.

Notation "x <- c ;; k" := (bind c (fun x => k))
  (at level 100, c at next level, right associativity).
Notation "c ;;; k" := (bind c (fun _ => k))
  (at level 100, right associativity).

Definition emit (e : event) : M unit :=
  fun w => Ok tt (mkWorld (vm w) (fs w) (trace w ++ [e])).

Definition logPrintf (line : string) : M unit := emit (EvLog line).

Definition logFatal {A} (line : string) : M A :=
  fun w => Exit 1 (mkWorld (vm w) (fs w) (trace w ++ [EvLog line])).

Definition panic {A} : M A := fun w => Exit 2 w.

Definition orPanic {A} (o : option A) : M A :=
  match o with Some a => ret a | None => panic end.

Definition getVm : M machine := fun w => Ok (vm w) w.

Definition setVm (m : machine) : M unit :=
  fun w => Ok tt (mkWorld m (fs w) (trace w)).

(** *** Files *)

Fixpoint string_drop (n : nat) (s : string) : string :=
  match n, s with
  | O, _ => s
  | S n', String _ s' => string_drop n' s'
  | S _, EmptyString => EmptyString
  end.

(** Writing [new] at offset 0 over the content [old]. *)
Definition overwrite (old new : string) : string :=
  new +:+ string_drop (String.length new) old.

(** [os.OpenFile(path, O_CREATE|O_WRONLY[|O_TRUNC], _)]: the file, or nil
    (with an error that the callers drop). *)
Definition openFile (path : string) (trunc : bool) : M bool :=
  fun w =>
    if denied env path then Ok false w
    else
      let old := default EmptyString (fs w !! path) in
      Ok true (mkWorld (vm w) (<[path := if trunc then EmptyString else old]> (fs w))
                 (trace w)).

(** Writing through a handle; a write on the nil file fails with
    [ErrInvalid], which the callers drop. *)
Definition writeFile (opened : bool) (path content : string) : M unit :=
  fun w =>
    let fs' := if opened
               then <[path := overwrite (default EmptyString (fs w !! path)) content]> (fs w)
               else fs w in
    Ok tt (mkWorld (vm w) fs' (trace w ++ [EvWrite path content opened])).

(** *** The steps of a batch *)

Definition sliceOrFatal (t : Dense) (start end_ : Z) (line : string) : M Dense :=
  match Slice t start end_ with
  | inr v => ret v
  | inl _ => logFatal line
  end.

Definition reshapeOrFatal (t : Dense) (r c : Z) (line : string) : M Dense :=
  match Reshape t r c with
  | inr v => ret v
  | inl e => logFatal (line +:+ Error e)
  end.

Definition runAllOrFatal (x y : Dense) (line : string) : M unit :=
  fun w =>
    match RunAll (vm w) x y with
    | inl e => logFatal (line +:+ Error e) w
    | inr m' => Ok tt (mkWorld m' (fs w) (trace w ++ [EvFeed x y]))
    end.

Definition solverStep : M unit :=
  fun w => Ok tt (mkWorld (SolverStep (vm w)) (fs w) (trace w ++ [EvStep])).

Definition vmReset : M unit :=
  fun w => Ok tt (mkWorld (Reset (vm w)) (fs w) (trace w)).

(** *** The batch loop

    [for b := 0; b < batches; b++] with the computation of [start] and
    [end], the [break] and the clipping of [end]; it is the same in the four
    loops. *)
Fixpoint forBatches (n : nat) (b : Z) (numExamples bs : Z)
  (body : Z -> Z -> Z -> M unit) : M unit :=
  match n with
  | O => ret tt
  | S n' =>
      let start := b * bs in
      let end_ := start + bs in
      if start >=? numExamples then ret tt
      else
        let end_ := if end_ >? numExamples then numExamples else end_ in
        body b start end_ ;;; forBatches n' (b + 1) numExamples bs body
  end.

Fixpoint forEpochs (n : nat) (i : Z) (body : Z -> M unit) : M unit :=
  match n with
  | O => ret tt
  | S n' => body i ;;; forEpochs n' (i + 1) body
  end.

(** [for j := 0; j < rows; j++]. *)
Fixpoint forRows (n : nat) (j : Z) (body : Z -> M unit) : M unit :=
  match n with
  | O => ret tt
  | S n' => body j ;;; forRows n' (j + 1) body
  end.

(** *** The classifier ([src/unnamed/part_000]) *)

Definition trainBatch (i : Z) (inputs targets : Dense) (bs : Z)
  (b start end_ : Z) : M unit :=
  xVal <- sliceOrFatal inputs start end_ "Unable to slice x" ;;
  yVal <- sliceOrFatal targets start end_ "Unable to slice y" ;;
  xVal <- reshapeOrFatal xVal bs 784 "Unable to reshape " ;;
  runAllOrFatal xVal yVal ("Failed at epoch  " +:+ itoa i +:+ ": ") ;;;
  solverStep ;;;
  vmReset.

Definition trainEpoch (inputs targets : Dense) (numExamples bs batches : Z)
  (i : Z) : M unit :=
  forBatches (Z.to_nat batches) 0 numExamples bs (trainBatch i inputs targets bs) ;;;
  m <- getVm ;;
  logPrintf ("Epoch " +:+ itoa i +:+ " | cost " +:+ costVal m).

Definition imageName (b j : Z) (rowLabel rowGuess : nat) : string :=
  imgPath +:+ itoa b +:+ " - " +:+ itoa j +:+ " - "
    +:+ itoa (Z.of_nat rowLabel) +:+ " - " +:+ itoa (Z.of_nat rowGuess) +:+ ".png".

Definition csvName (b : Z) : string := csvPath +:+ itoa b +:+ ".csv".

Definition evalImage (b : Z) (xVal yVal yOutput : Dense) (j : Z) : M unit :=
  row <- orPanic (rowData xVal j) ;;
  let img := visualizeRow row in
  yRow <- orPanic (rowData yVal j) ;;
  rowLabel <- orPanic (argmax10 yRow) ;;
  predRow <- orPanic (rowData yOutput j) ;;
  rowGuess <- orPanic (argmax10 predRow) ;;
  let path := imageName b j rowLabel rowGuess in
  f <- openFile path true ;;
  writeFile f path (pngEncode img).

Definition evalCsv (b : Z) (xVal : Dense) (bs : Z) : M unit :=
  m <- getVm ;;
  yOutput <- orPanic (newDense bs 10 (predVal m)) ;;
  file <- openFile (csvName b) false ;;
  _ <- reshapeOrFatal xVal bs 784 "Unable to create csv" ;;
  matrixToWrite <- orPanic (csvMatrix (Z.to_nat (nrows yOutput)) 0 yOutput []) ;;
  writeFile file (csvName b) (csvWriteAll matrixToWrite).

Definition evalBatch (inputs targets : Dense) (bs : Z) (b start end_ : Z)
  : M unit :=
  xVal <- sliceOrFatal inputs start end_ "Unable to slice x" ;;
  yVal <- sliceOrFatal targets start end_ "Unable to slice y" ;;
  xVal <- reshapeOrFatal xVal bs 784 "Unable to reshape " ;;
  runAllOrFatal xVal yVal "Failed at epoch test: " ;;;
  m <- getVm ;;
  yOutput <- orPanic (newDense bs 10 (predVal m)) ;;
  forRows (Z.to_nat (nrows xVal)) 0 (evalImage b xVal yVal yOutput) ;;;
  evalCsv b xVal bs ;;;
  vmReset.

Definition loadOrFatal (name : string) : M (Dense * Dense) :=
  match mnistLoad env name with
  | inr d => ret d
  | inl e => logFatal (Error e)
  end.

(** [numExamples / bs]: the division of Go truncates, and panics on 0. *)
Definition quotOrPanic (a b : Z) : M Z :=
  if b =? 0 then panic else ret (Z.quot a b).

Definition trainLoop (inputs targets : Dense) (numExamples bs batches : Z)
  : M unit :=
  forEpochs (Z.to_nat (flag_epochs env)) 0
    (trainEpoch inputs targets numExamples bs batches).

Definition evalLoop (inputs targets : Dense) (numExamples bs batches : Z)
  : M unit :=
  forBatches (Z.to_nat batches) 0 numExamples bs (evalBatch inputs targets bs).

(** [main], from the loading of the data on; the machine of the initial
    world is the one that [gg.NewTapeMachine] returns for the graph. *)
Definition classifier_main : M unit :=
  d <- loadOrFatal (flag_dataset env) ;;
  let numExamples := nrows (fst d) in
  let bs := flag_batchsize env in
  batches <- quotOrPanic numExamples bs ;;
  logPrintf ("Batches " +:+ itoa batches) ;;;
  trainLoop (fst d) (snd d) numExamples bs batches ;;;
  logPrintf "Run Tests" ;;;
  t <- loadOrFatal "test" ;;
  let numExamples := nrows (fst t) in
  batches <- quotOrPanic numExamples bs ;;
  evalLoop (fst t) (snd t) numExamples bs batches ;;;
  m <- getVm ;;
  logPrintf ("Epoch Test | cost " +:+ costVal m).

(** *** The autoencoder ([src/autoencoder/main.go]) *)

Definition aeTrainBatch (i : Z) (inputs : Dense) (bs : Z)
  (b start end_ : Z) : M unit :=
  xVal <- sliceOrFatal inputs start end_ "Unable to slice x" ;;
  xVal <- reshapeOrFatal xVal bs 784 "Unable to reshape " ;;
  runAllOrFatal xVal xVal ("Failed at epoch  " +:+ itoa i +:+ ": ") ;;;
  solverStep ;;;
  vmReset.

Definition aeTrainEpoch (inputs : Dense) (numExamples bs batches : Z)
  (i : Z) : M unit :=
  forBatches (Z.to_nat batches) 0 numExamples bs (aeTrainBatch i inputs bs) ;;;
  m <- getVm ;;
  logPrintf ("Epoch " +:+ itoa i +:+ " | cost " +:+ costVal m).

Definition aeImage (b : Z) (t : Dense) (suffix : string) (j : Z) : M unit :=
  row <- orPanic (rowData t j) ;;
  let img := visualizeRow row in
  let path := imgPath +:+ itoa b +:+ " - " +:+ itoa j +:+ suffix in
  f <- openFile path true ;;
  writeFile f path (pngEncode img).

Definition aeEvalBatch (inputs : Dense) (bs : Z) (b start end_ : Z) : M unit :=
  xVal <- sliceOrFatal inputs start end_ "Unable to slice x" ;;
  xVal <- reshapeOrFatal xVal bs 784 "Unable to reshape " ;;
  runAllOrFatal xVal xVal "Failed at epoch test: " ;;;
  forRows (Z.to_nat (nrows xVal)) 0 (aeImage b xVal " input.png") ;;;
  m <- getVm ;;
  yOutput <- orPanic (newDense bs 784 (predVal m)) ;;
  forRows (Z.to_nat (nrows yOutput)) 0 (aeImage b yOutput " output.png") ;;;
  vmReset.

Definition aeTrainLoop (inputs : Dense) (numExamples bs batches : Z) : M unit :=
  forEpochs (Z.to_nat (flag_epochs env)) 0
    (aeTrainEpoch inputs numExamples bs batches).

Definition aeEvalLoop (inputs : Dense) (numExamples bs batches : Z) : M unit :=
  forBatches (Z.to_nat batches) 0 numExamples bs (aeEvalBatch inputs bs).

Definition autoencoder_main : M unit :=
  d <- loadOrFatal (flag_dataset env) ;;
  let numExamples := nrows (fst d) in
  let bs := flag_batchsize env in
  batches <- quotOrPanic numExamples bs ;;
  logPrintf ("Batches " +:+ itoa batches) ;;;
  aeTrainLoop (fst d) numExamples bs batches ;;;
  logPrintf "Run Tests" ;;;
  t <- loadOrFatal "test" ;;
  let numExamples := nrows (fst t) in
  batches <- quotOrPanic numExamples bs ;;
  aeEvalLoop (fst t) numExamples bs batches ;;;
  m <- getVm ;;
  logPrintf ("Epoch Test | cost " +:+ costVal m).

End Program.

Arguments Ok {G A} a w.
Arguments Exit {G A} code w.

Notation "x <- c ;; k" := (bind c (fun x => k))
  (at level 100, c at next level, right associativity).
Notation "c ;;; k" := (bind c (fun _ => k))
  (at level 100, right associativity).

(** ** Views of a run used in the statements *)

(** The batches fed to the graph, in the order of the trace. *)
Definition feeds (tr : list event) : list (Dense * Dense) :=
  omap (fun e => match e with EvFeed x y => Some (x, y) | _ => None end) tr.

(** A matrix of [c] columns whose backing array has the size of its shape. *)
Definition well_shaped (t : Dense) (c : Z) : Prop :=
  0 <= nrows t /\ ncols t = c /\
  Z.of_nat (length (backing t)) = nrows t * c.

(** The rows [b*bs], ..., [b*bs + bs - 1] of a matrix. *)
Definition batchRows (t : Dense) (bs b : Z) : Dense :=
  mkDense bs (ncols t)
    (take (Z.to_nat (bs * ncols t))
       (drop (Z.to_nat (b * bs * ncols t)) (backing t))).

(** What the loops rely on from the library: a run of the machine on a
    batch succeeds, and the prediction it leaves has the size of the
    matrix bound to [y]. *)
Definition library_ok {G : Gorgonia} : Prop :=
  forall m x y, exists m',
    RunAll m x y = inr m' /\ length (predVal m') = length (backing y).

(** The world and the status at the end of a computation. *)
Definition final_world {G : Gorgonia} {A} (r : result A) : world :=
  match r with Ok _ w => w | Exit _ w => w end.

Definition exit_code {G : Gorgonia} {A} (r : result A) : option Z :=
  match r with Ok _ _ => None | Exit c _ => Some c end.

(** The world after [os.OpenFile] on [path] followed by one write of
    [content] through the handle (or through nil when the open failed). *)
Definition putFile {G : Gorgonia} (env : Env) (trunc : bool)
  (path content : string) (w : world) : world :=
  if denied env path
  then mkWorld (vm w) (fs w) (trace w ++ [EvWrite path content false])
  else
    let old := if trunc then EmptyString else default EmptyString (fs w !! path) in
    mkWorld (vm w) (<[path := overwrite old content]> (fs w))
      (trace w ++ [EvWrite path content true]).

(** Row [j] of a matrix. *)
Definition rowOf (t : Dense) (j : Z) : list float64 :=
  take (Z.to_nat (ncols t)) (drop (Z.to_nat (j * ncols t)) (backing t)).

(** The records that the evaluation of a batch writes to the CSV file, from
    the prediction [pred] of the batch. *)
Definition csvRowsOf (bs : Z) (pred : list float64) : list (list string) :=
  map (fun j => map FormatFloat_f6 (rowOf (mkDense bs 10 pred) j)) (seqZ 0 bs).

(** The event of the image of example [j] of batch [b] (classifier). *)
Definition imageEvent {G : Gorgonia} (env : Env) (b j : Z) (e : event) : Prop :=
  exists l g content,
    e = EvWrite (imageName b j l g) content (negb (denied env (imageName b j l g))).

(** The events of one evaluation batch of the classifier: the batch is fed,
    one image is written per example, then the CSV file. *)
Definition evalBatchEvents {G : Gorgonia} (env : Env) (bs b : Z)
  (x y : Dense) (pred : list float64) (evs : list event) : Prop :=
  exists imgs,
    evs = EvFeed x y :: imgs
          ++ [EvWrite (csvName b) (csvWriteAll (csvRowsOf bs pred))
                (negb (denied env (csvName b)))] /\
    Forall2 (imageEvent env b) (seqZ 0 bs) imgs.

(** Worlds related by the image loop: same machine, same CSV files. *)
Definition image_step {G : Gorgonia} (w w1 : world) : Prop :=
  vm w1 = vm w /\ forall b', fs w1 !! csvName b' = fs w !! csvName b'.

(** ** A small machine for concrete runs

    Its prediction is the matrix bound to [y]; it never fails. *)
Definition toyError (e : error) : string :=
  match e with
  | ErrSlice => "slice"
  | ErrShape => "shape"
  | ErrRun msg => msg
  | ErrLoad msg => msg
  end.

Definition toyPng (img : Gray) : string :=
  string_of_list_ascii (map (fun b => ascii_of_nat (Z.to_nat b)) (Pix img)).

Definition toy : Gorgonia :=
  {| machine := list float64;
     RunAll := fun _ _ y => inr (backing y);
     SolverStep := fun m => m;
     Reset := fun m => m;
     predVal := fun m => m;
     costVal := fun _ => "0";
     learnables := fun m => [m];
     Error := toyError;
     pngEncode := toyPng |}.

(** A matrix from its rows of integers. *)
Definition denseOfZ (c : Z) (rows : list (list Z)) : Dense :=
  mkDense (Z.of_nat (length rows)) c
    (map (fun z => Finite (inject_Z z)) (concat rows)).



(** The full batches of a data set, in index order. *)
Definition fullBatches (inputs targets : Dense) (bs : Z) : list (Dense * Dense) :=
  map (fun b => (batchRows inputs bs b, batchRows targets bs b))
    (seqZ 0 (nrows inputs / bs)).

(** A data set of five examples and a run with batches of two. *)
Definition toyInputs : Dense := mkDense 5 784 (replicate 3920 (Finite (1 # 2))).
Definition toyTargets : Dense :=
  denseOfZ 10 [[0;0;0;1;0;0;0;0;0;0]; [1;0;0;0;0;0;0;0;0;0];
               [0;0;0;0;0;0;0;0;0;1]; [0;1;0;0;0;0;0;0;0;0];
               [0;0;0;0;0;1;0;0;0;0]].

Definition toyEnv (epochs : Z) : Env :=
  mkEnv epochs 2 "train" (fun _ => inr (toyInputs, toyTargets)) (fun _ => false).

Definition toyWorld : @world toy := @mkWorld toy [] ∅ [].

(** A training batch fails when slicing the inputs, slicing the targets,
    reshaping the batch or running the machine returns an error. *)
Definition trainBatchFails {G : Gorgonia} (inputs targets : Dense)
  (bs start end_ : Z) (m : machine) : Prop :=
  match Slice inputs start end_ with
  | inl _ => True
  | inr xVal =>
      match Slice targets start end_ with
      | inl _ => True
      | inr yVal =>
          match Reshape xVal bs 784 with
          | inl _ => True
          | inr xVal' =>
              match RunAll m xVal' yVal with
              | inl _ => True
              | inr _ => False
              end
          end
      end
  end.

Definition aeTrainBatchFails {G : Gorgonia} (inputs : Dense)
  (bs start end_ : Z) (m : machine) : Prop :=
  match Slice inputs start end_ with
  | inl _ => True
  | inr xVal =>
      match Reshape xVal bs 784 with
      | inl _ => True
      | inr xVal' =>
          match RunAll m xVal' xVal' with
          | inl _ => True
          | inr _ => False
          end
      end
  end.

(** The world after [log.Fatal] of [line]. *)
Definition fatalWorld {G : Gorgonia} (w : world) (line : string) : world :=
  mkWorld (vm w) (fs w) (trace w ++ [EvLog line]).

(** Targets with fewer rows than the inputs: slicing the targets of the
    third batch fails. *)
Definition shortTargets : Dense :=
  denseOfZ 10 [[0;0;0;1;0;0;0;0;0;0]; [1;0;0;0;0;0;0;0;0;0];
               [0;0;0;0;0;0;0;0;0;1]].

(** ** Runs that differ in the files that can be opened

    [allowAll env] is the environment in which every [os.OpenFile]
    succeeds.  [observe] keeps of a run its status, its machine and its
    events, without the flag that tells whether a file was opened. *)
Definition allowAll (env : Env) : Env :=
  mkEnv (flag_epochs env) (flag_batchsize env) (flag_dataset env)
    (mnistLoad env) (fun _ => false).

Definition forgetOpened (e : event) : event :=
  match e with
  | EvWrite p c _ => EvWrite p c true
  | _ => e
  end.

Definition observe {G : Gorgonia} {A} (r : result A)
  : option Z * machine * list event :=
  (exit_code r, vm (final_world r), map forgetOpened (trace (final_world r))).

(** Two worlds with the same machine and the same events, the first of
    which still has the content [base] in the files that cannot be opened. *)
Definition sameObs {G : Gorgonia} (env : Env) (base : gmap string string)
  (w1 w2 : world) : Prop :=
  vm w1 = vm w2 /\
  map forgetOpened (trace w1) = map forgetOpened (trace w2) /\
  forall p, denied env p = true -> fs w1 !! p = base !! p.

Definition simR {G : Gorgonia} {A} (env : Env) (base : gmap string string)
  (r1 r2 : result A) : Prop :=
  match r1, r2 with
  | Ok a1 w1, Ok a2 w2 => a1 = a2 /\ sameObs env base w1 w2
  | Exit c1 w1, Exit c2 w2 => c1 = c2 /\ sameObs env base w1 w2
  | _, _ => False
  end.

Definition simM {G : Gorgonia} {A} (env : Env) (base : gmap string string)
  (c1 c2 : M A) : Prop :=
  forall w1 w2, sameObs env base w1 w2 -> simR env base (c1 w1) (c2 w2).

(** The CSV file that a run with batches of three leaves for batch 0, and
    a world in which that file exists. *)
Definition staleCsv : string :=
  csvWriteAll (csvRowsOf 3 (backing (batchRows toyTargets 3 0))).

Definition staleWorld : @world toy :=
  @mkWorld toy [] {[ csvName 0 := staleCsv ]} [].

(** An environment in which no file of the CSV directory can be opened. *)
Definition noCsvEnv : Env :=
  mkEnv 0 2 "train" (fun _ => inr (toyInputs, toyTargets))
    (fun p => String.prefix csvPath p).



(** The characters that do not occur in a value printed with six
    decimals. *)
Definition not_numeric (c : ascii) : bool :=
  negb (is_digit c || Ascii.eqb c "." || Ascii.eqb c "-").

(** A run whose targets are too short. *)
Definition shortEnv : Env :=
  mkEnv 1 2 "train" (fun _ => inr (toyInputs, shortTargets)) (fun _ => false).

(** ** The arithmetic of the pixel mapping in the Standard Library's model
    of IEEE 754

    [SpecFloat] gives the operations of binary64 on numbers written as a
    sign, a mantissa and an exponent; [pixelSF] is the arithmetic of
    [reversePixelWeight] in it, to compare with the rounding on rationals
    used here. *)
Definition SF2Q (x : spec_float) : Q :=
  match x with
  | S754_finite s m e =>
      ((if s then - (1) else 1) * inject_Z (Zpos m) * Qpower 2 e)%Q
  | _ => 0%Q
  end.

Definition pixelSF (x : spec_float) : spec_float :=
  SFsub 53 1024 (SFmul 53 1024 (S754_finite false 255 0) x) (S754_finite false 255 0).

Definition pixelQ (c : Q) : Q := round64 (round64 (255 * c) - 255).

(** The row in which every NaN after the first entry is replaced by the
    negative infinity. *)
Definition nanAsNInf (row : list float64) : list float64 :=
  match row with
  | [] => []
  | x :: rest => x :: map (fun y => if is_nan y then NInf else y) rest
  end.

(** ** Reading decimal numbers back

    The readers of the names and of the CSV fields that the programs
    print: [atoi] for [%d], [read_decimal] for a value with a decimal
    point. *)
Definition digit_val (c : ascii) : Z := Z.of_nat (nat_of_ascii c) - 48.

Fixpoint digits_val (acc : Z) (s : string) : Z :=
  match s with
  | EmptyString => acc
  | String c s' => digits_val (10 * acc + digit_val c) s'
  end.

Definition atoi (s : string) : Z :=
  match s with
  | String "-" s' => - digits_val 0 s'
  | _ => digits_val 0 s
  end.

Fixpoint read_fixed (acc : Z) (s : string) : Q :=
  match s with
  | EmptyString => inject_Z acc
  | String c s' =>
      if Ascii.eqb c "."
      then inject_Z (digits_val acc s') / inject_Z (10 ^ Z.of_nat (String.length s'))
      else read_fixed (10 * acc + digit_val c) s'
  end.

Definition read_decimal (s : string) : Q :=
  match s with
  | String "-" s' => (- read_fixed 0 s')%Q
  | _ => read_fixed 0 s
  end.

(** The file name of an image of the autoencoder. *)
Definition aeImageName (b j : Z) (suffix : string) : string :=
  imgPath +:+ itoa b +:+ " - " +:+ itoa j +:+ suffix.



(** ** What a computation may do, whatever its outcome

    [frame P F w w']: the world [w'] comes from [w] by adding events that
    all satisfy [P] and by changing only files whose path satisfies [F].
    [keeps R c]: the world at the end of [c], normal or not, is related by
    [R] to the world at its start. *)
Definition frame {G : Gorgonia} (P : event -> Prop) (F : string -> Prop)
  (w w' : world) : Prop :=
  (exists evs, trace w' = trace w ++ evs /\ Forall P evs) /\
  (forall p, ~ F p -> fs w' !! p = fs w !! p).

Definition keeps {G : Gorgonia} {A} (R : world -> world -> Prop) (c : M A) : Prop :=
  forall w, R w (final_world (c w)).

(** The matrix bound to [x] has the shape of the graph's input. *)
Definition batch_shaped (bs : Z) (x : Dense) : Prop :=
  nrows x = bs /\ ncols x = 784.

(** The events of the training loops: log lines, feeds of a batch of the
    right shape, solver steps; no write. *)
Definition trainEvent (bs : Z) (e : event) : Prop :=
  match e with
  | EvLog _ => True
  | EvFeed x _ => batch_shaped bs x
  | EvStep => True
  | EvWrite _ _ _ => False
  end.

Definition aeTrainEvent (bs : Z) (e : event) : Prop :=
  match e with
  | EvLog _ => True
  | EvFeed x y => batch_shaped bs x /\ y = x
  | EvStep => True
  | EvWrite _ _ _ => False
  end.

(** The events of the evaluation loops: log lines other than the one of
    the CSV check, feeds, writes below the output directories; no solver
    step. *)
Definition under (dir path : string) : Prop := String.prefix dir path = true.

Definition evalEvent (bs : Z) (e : event) : Prop :=
  match e with
  | EvLog line => String.prefix "Unable to create csv" line = false
  | EvFeed x _ => batch_shaped bs x
  | EvStep => False
  | EvWrite p _ _ => under imgPath p \/ under csvPath p
  end.

Definition aeEvalEvent (bs : Z) (e : event) : Prop :=
  match e with
  | EvLog _ => True
  | EvFeed x y => batch_shaped bs x /\ y = x
  | EvStep => False
  | EvWrite p _ _ => under imgPath p
  end.

Definition no_path (p : string) : Prop := False.

(** ** Whole runs *)

(** The batch loop without its two guards: [n] batches of [bs] rows. *)
Fixpoint plainBatches {G : Gorgonia} (n : nat) (b bs : Z)
  (body : Z -> Z -> Z -> M unit) : M unit :=
  match n with
  | O => ret tt
  | S n' => body b (b * bs) (b * bs + bs) ;;; plainBatches n' (b + 1) bs body
  end.


(** The events of the batches of a training epoch: each full batch is fed
    and followed by one solver step. *)
Definition epochBatches (inputs targets : Dense) (bs : Z) : list event :=
  concat (map (fun b => [EvFeed (batchRows inputs bs b) (batchRows targets bs b); EvStep])
            (seqZ 0 (nrows inputs / bs))).

(** The events of epoch [i]: its batches, then the line with the cost. *)
Definition trainEpochEvents (inputs targets : Dense) (bs : Z) (i : Z)
  (evs : list event) : Prop :=
  exists cost,
    evs = epochBatches inputs targets bs
          ++ [EvLog ("Epoch " +:+ itoa i +:+ " | cost " +:+ cost)].

(** The lines of the epochs when no batch is run: the cost does not
    change. *)
Definition idleEpochs {G : Gorgonia} (epochs : Z) (m : machine) : list event :=
  map (fun i => EvLog ("Epoch " +:+ itoa i +:+ " | cost " +:+ costVal m))
    (seqZ 0 epochs).


(** A data set of one example, for batches of two. *)
Definition oneInput : Dense := mkDense 1 784 (replicate 784 (Finite (1 # 2))).
Definition oneTarget : Dense := denseOfZ 10 [[0;0;0;1;0;0;0;0;0;0]].
Definition smallEnv : Env :=
  mkEnv 3 2 "train" (fun _ => inr (oneInput, oneTarget)) (fun _ => false).

(** ** The expression graphs ([newNN], [learnables], [fwd] and the cost)

    The programs build their network as an expression graph of the
    autodiff library.  A node is a matrix created with
    [gg.NewMatrix(g, dt, gg.WithShape(r, c), gg.WithName(name), ...)] or
    the application of an operation.  An operation checks the shapes of its
    arguments and returns an error when they do not fit: the matrix
    product needs the columns of the left argument to be the rows of the
    right one, the element-wise operations of two arguments need equal
    shapes.  [gg.Must] panics on an error; a panic is [None]. *)
Module Graph.

Inductive unop : Type := Rectify | SoftMax | Sigmoid | Log | Mean | Neg | Square.

Inductive binop : Type := Mul | Add | HadamardProd | Sub.

Inductive Node : Type :=
| NewMatrix (name : string) (rows cols : Z)
| Unary (o : unop) (a : Node)
| Binary (o : binop) (a b : Node).

(** The shape of a node; [Mean] without axes gives a scalar. *)
Fixpoint shape (n : Node) : list Z :=
  match n with
  | NewMatrix _ r c => [r; c]
  | Unary Mean _ => []
  | Unary _ a => shape a
  | Binary Mul a b =>
      match shape a, shape b with
      | [r; _], [_; c] => [r; c]
      | _, _ => []
      end
  | Binary _ a _ => shape a
  end.

Fixpoint shape_eqb (s t : list Z) : bool :=
  match s, t with
  | [], [] => true
  | x :: s', y :: t' => (x =? y) && shape_eqb s' t'
  | _, _ => false
  end.

Definition apply1 (o : unop) (a : Node) : option Node := Some (Unary o a).

Definition apply2 (o : binop) (a b : Node) : option Node :=
  match o with
  | Mul =>
      match shape a, shape b with
      | [_; k], [k'; _] => if k =? k' then Some (Binary Mul a b) else None
      | _, _ => None
      end
  | _ => if shape_eqb (shape a) (shape b) then Some (Binary o a b) else None
  end.

(** [gg.Must(op(a))] and [gg.Must(op(a, b))] on arguments that are
    themselves results of [gg.Must]. *)
Definition must1 (o : unop) (a : option Node) : option Node :=
  match a with Some x => apply1 o x | None => None end.

Definition must2 (o : binop) (a b : option Node) : option Node :=
  match a, b with Some x, Some y => apply2 o x y | _, _ => None end.

End Graph.

(** The classifier: 784 -> 250 -> 100 -> 10, rectifiers and a softmax. *)
Module Classifier.

Import Graph.

Record nn := mkNN {
  w1 : Node; w2 : Node; w3 : Node;
  b1 : Node; b2 : Node; b3 : Node;
  mOnes : Node;
  out : option Node;
}.

Definition newNN (batchsize : Z) : nn :=
  mkNN (NewMatrix "w1" 784 250) (NewMatrix "w2" 250 100) (NewMatrix "w3" 100 10)
       (NewMatrix "b1" 1 250) (NewMatrix "b2" 1 100) (NewMatrix "b3" 1 10)
       (NewMatrix "mOnes" batchsize 1) None.

Definition learnables (m : nn) : list Node :=
  [w1 m; w2 m; w3 m; b1 m; b2 m; b3 m].

(** [fwd] returns the network with its output node, or panics. *)
Definition fwd (m : nn) (x : Node) : option nn :=
  let l0 := Some x in
  let l1 := must1 Rectify
              (must2 Add (must2 Mul l0 (Some (w1 m)))
                         (must2 Mul (Some (mOnes m)) (Some (b1 m)))) in
  let l2 := must1 Rectify
              (must2 Add (must2 Mul l1 (Some (w2 m)))
                         (must2 Mul (Some (mOnes m)) (Some (b2 m)))) in
  let l3 := must1 SoftMax
              (must2 Add (must2 Mul l2 (Some (w3 m)))
                         (must2 Mul (Some (mOnes m)) (Some (b3 m)))) in
  match l3 with
  | Some o => Some (mkNN (w1 m) (w2 m) (w3 m) (b1 m) (b2 m) (b3 m) (mOnes m) (Some o))
  | None => None
  end.

(** [-mean(log(out) .* y)]. *)
Definition cost (m : nn) (y : Node) : option Node :=
  must1 Neg (must1 Mean (must2 HadamardProd (must1 Log (out m)) (Some y))).

End Classifier.

(** The autoencoder: 784 -> 250 -> 50 -> 250 -> 784, rectifiers and a
    sigmoid. *)
Module Autoencoder.

Import Graph.

Record nn := mkNN {
  w1 : Node; w2 : Node; w3 : Node; w4 : Node;
  b1 : Node; b2 : Node; b3 : Node; b4 : Node;
  mOnes : Node;
  out : option Node;
}.

Definition newNN (batchsize : Z) : nn :=
  mkNN (NewMatrix "w1" 784 250) (NewMatrix "w2" 250 50) (NewMatrix "w3" 50 250)
       (NewMatrix "w4" 250 784)
       (NewMatrix "b1" 1 250) (NewMatrix "b2" 1 50) (NewMatrix "b3" 1 250)
       (NewMatrix "b4" 1 784)
       (NewMatrix "mOnes" batchsize 1) None.

Definition learnables (m : nn) : list Node :=
  [w1 m; w2 m; w3 m; w4 m; b1 m; b2 m; b3 m; b4 m].

Definition fwd (m : nn) (x : Node) : option nn :=
  let l0 := Some x in
  let l1 := must1 Rectify
              (must2 Add (must2 Mul l0 (Some (w1 m)))
                         (must2 Mul (Some (mOnes m)) (Some (b1 m)))) in
  let l2 := must1 Rectify
              (must2 Add (must2 Mul l1 (Some (w2 m)))
                         (must2 Mul (Some (mOnes m)) (Some (b2 m)))) in
  let l3 := must1 Rectify
              (must2 Add (must2 Mul l2 (Some (w3 m)))
                         (must2 Mul (Some (mOnes m)) (Some (b3 m)))) in
  let l4 := must1 Sigmoid
              (must2 Add (must2 Mul l3 (Some (w4 m)))
                         (must2 Mul (Some (mOnes m)) (Some (b4 m)))) in
  match l4 with
  | Some o => Some (mkNN (w1 m) (w2 m) (w3 m) (w4 m) (b1 m) (b2 m) (b3 m) (b4 m)
                      (mOnes m) (Some o))
  | None => None
  end.

(** [mean((y - out)^2)]. *)
Definition cost (m : nn) (y : Node) : option Node :=
  must1 Mean (must1 Square (must2 Sub (Some y) (out m))).

End Autoencoder.

(** * Properties *)

(** ** Rounding to binary64 is monotone *)

Ltac qcompare_facts :=
  repeat match goal with
  | H : Qcompare _ _ = Eq |- _ => apply Qeq_alt in H
  | H : Qcompare _ _ = Lt |- _ => apply Qlt_alt in H
  | H : Qcompare _ _ = Gt |- _ => apply Qgt_alt in H
  | H : Qle_bool _ _ = true |- _ => apply Qle_bool_iff in H
  | H : Qle_bool _ _ = false |- _ =>
      apply not_true_iff_false in H; rewrite Qle_bool_iff in H;
      apply Qnot_le_lt in H
  | H : Qeq_bool _ _ = true |- _ => apply Qeq_bool_iff in H
  | H : Qeq_bool _ _ = false |- _ => apply Qeq_bool_neq in H
  end.

Section Rounding.

Local Open Scope Q_scope.

Lemma rne_bounds q : (Qfloor q <= rne q <= Qfloor q + 1)%Z.
Proof.
  unfold rne. destruct (Qcompare _ _); [destruct (Z.even _)|..]; lia.
Qed.

Lemma rne_mono x y : x <= y -> (rne x <= rne y)%Z.
Proof.
  intros H. pose proof (Qfloor_resp_le _ _ H) as Hf.
  destruct (Z.eq_dec (Qfloor x) (Qfloor y)) as [E|N].
  - unfold rne. rewrite E.
    destruct (Qcompare (x - inject_Z (Qfloor y)) (1 # 2)) eqn:Cx;
      destruct (Qcompare (y - inject_Z (Qfloor y)) (1 # 2)) eqn:Cy;
      try (destruct (Z.even (Qfloor y))); try lia;
      exfalso; qcompare_facts; lra.
  - pose proof (rne_bounds x). pose proof (rne_bounds y). lia.
Qed.

Lemma rne_Z (z : Z) : rne (inject_Z z) = z.
Proof.
  unfold rne. rewrite Qfloor_Z.
  destruct (Qcompare _ _) eqn:C; auto.
  - qcompare_facts. lra.
  - qcompare_facts. lra.
Qed.

Lemma pow2_pos (e : Z) : 0 < Qpower 2 e.
Proof. apply Qpower_0_lt. reflexivity. Qed.

Lemma pow2_add (a b : Z) : Qpower 2 (a + b) == Qpower 2 a * Qpower 2 b.
Proof. apply Qpower_plus. discriminate. Qed.

Lemma pow2_le (a b : Z) : (a <= b)%Z -> Qpower 2 a <= Qpower 2 b.
Proof. intros H. apply Qpower_le_compat_l; [exact H | discriminate]. Qed.

Lemma pow2_succ (a : Z) : Qpower 2 (a + 1) == 2 * Qpower 2 a.
Proof. rewrite pow2_add. change (Qpower 2 1) with 2. ring. Qed.

Lemma Qdiv_lt_cross a b c d : 0 < b -> 0 < d -> a * d < c * b -> a / b < c / d.
Proof.
  intros Hb Hd H. apply Qlt_shift_div_r; [exact Hb|].
  assert (Ef : c / d * b == c * b / d) by (field; lra); rewrite Ef; clear Ef.
  apply Qlt_shift_div_l; [exact Hd|exact H].
Qed.

Lemma Qdiv_le_cross a b c d : 0 < b -> 0 < d -> a * d <= c * b -> a / b <= c / d.
Proof.
  intros Hb Hd H. apply Qle_shift_div_r; [exact Hb|].
  assert (Ef : c / d * b == c * b / d) by (field; lra); rewrite Ef; clear Ef.
  apply Qle_shift_div_l; [exact Hd|exact H].
Qed.

Lemma Zlog2_Qpower (a : Z) :
  (0 < a)%Z ->
  Qpower 2 (Z.log2 a) <= inject_Z a /\ inject_Z a < 2 * Qpower 2 (Z.log2 a).
Proof.
  intros Ha. destruct (Z.log2_spec a Ha) as [L U].
  pose proof (Z.log2_nonneg a) as Hn.
  rewrite <- pow2_succ.
  change 2 with (inject_Z 2).
  rewrite <- !Zpower_Qpower by lia.
  rewrite <- Zle_Qle, <- Zlt_Qlt. unfold Z.succ in U. lia.
Qed.

(** [binade q] brackets the magnitude of [q] between two powers of two. *)
Lemma binade_spec q :
  ~ q == 0 ->
  Qpower 2 (binade q) <= Qabs q /\ Qabs q < Qpower 2 (binade q + 1).
Proof.
  intros Hq. destruct q as [n d].
  assert (Hn : (0 < Z.abs n)%Z).
  { destruct (Z.eq_dec n 0%Z) as [->|]; [exfalso; apply Hq; reflexivity | lia]. }
  unfold binade. cbn [Qnum Qden Qabs].
  set (la := Z.log2 (Z.abs n)). set (ld := Z.log2 (Z.pos d)).
  destruct (Zlog2_Qpower (Z.abs n) Hn) as [A1 A2].
  destruct (Zlog2_Qpower (Z.pos d) eq_refl) as [D1 D2].
  fold la in A1, A2. fold ld in D1, D2.
  pose proof (pow2_pos la) as Pa. pose proof (pow2_pos ld) as Pd.
  assert (Hd : 0 < inject_Z (Z.pos d)) by (rewrite <- (Zlt_Qlt 0); lia).
  assert (E0 : Qpower 2 (la - ld) == Qpower 2 la / Qpower 2 ld).
  { apply Qpower_minus. discriminate. }
  assert (Eabs : (Z.abs n # d) == inject_Z (Z.abs n) / inject_Z (Z.pos d)).
  { apply Qmake_Qdiv. }
  assert (Up : (Z.abs n # d) < Qpower 2 (la - ld + 1)).
  { rewrite pow2_succ, E0, Eabs.
    assert (Ef : 2 * (Qpower 2 la / Qpower 2 ld) == 2 * Qpower 2 la / Qpower 2 ld) by (field; lra); rewrite Ef; clear Ef.
    apply Qdiv_lt_cross; [exact Hd | exact Pd | nra]. }
  assert (Lo : Qpower 2 (la - ld - 1) <= (Z.abs n # d)).
  { assert (E1 : Qpower 2 (la - ld - 1) == Qpower 2 la / (2 * Qpower 2 ld)).
    { assert (E2 : Qpower 2 (la - ld) == 2 * Qpower 2 (la - ld - 1)).
      { rewrite <- pow2_succ. replace (la - ld - 1 + 1)%Z with (la - ld)%Z by lia.
        reflexivity. }
      rewrite E0 in E2. 
      assert (E3 : Qpower 2 (la - ld - 1) == (Qpower 2 la / Qpower 2 ld) / 2).
      { rewrite E2. field. }
      rewrite E3. field. lra. }
    rewrite E1, Eabs. apply Qdiv_le_cross; [lra | exact Hd | nra]. }
  destruct (Qle_bool _ _) eqn:C.
  - qcompare_facts. split; [exact C | exact Up].
  - qcompare_facts. split; [exact Lo |].
    replace (la - ld - 1 + 1)%Z with (la - ld)%Z by lia. exact C.
Qed.

Lemma binade_mono x y :
  ~ x == 0 -> Qabs x <= Qabs y -> (binade x <= binade y)%Z.
Proof.
  intros Hx Hxy.
  assert (Hy : ~ y == 0).
  { intros E. rewrite E in Hxy. change (Qabs 0) with 0 in Hxy.
    pose proof (Qabs_nonneg x) as Hn.
    assert (E0 : Qabs x == 0) by lra.
    apply Hx. destruct (Qabs_Qle_condition x 0) as [H _].
    destruct H as [H1 H2]; [lra|]. lra. }
  destruct (binade_spec x Hx) as [Lx Ux].
  destruct (binade_spec y Hy) as [Ly Uy].
  destruct (Z_le_gt_dec (binade x) (binade y)) as [?|G]; [assumption|exfalso].
  pose proof (pow2_le (binade y + 1) (binade x) ltac:(lia)). lra.
Qed.

Lemma round_mag_nonneg q : 0 <= round_mag q.
Proof.
  unfold round_mag. pose proof (pow2_pos (ulp_exp q)) as Hu.
  apply Qmult_le_0_compat; [|lra].
  change 0 with (inject_Z 0). rewrite <- Zle_Qle.
  rewrite <- (rne_Z 0) at 1. apply rne_mono.
  apply Qle_shift_div_l; [exact Hu|].
  change (inject_Z 0) with 0. pose proof (Qabs_nonneg q). lra.
Qed.

Lemma round_mag_mono x y :
  ~ x == 0 -> Qabs x <= Qabs y -> round_mag x <= round_mag y.
Proof.
  intros Hx Hxy.
  assert (Hy : ~ y == 0).
  { intros E. rewrite E in Hxy. change (Qabs 0) with 0 in Hxy.
    pose proof (Qabs_nonneg x) as Hn.
    apply Hx. destruct (Qabs_Qle_condition x 0) as [H _].
    destruct H as [H1 H2]; lra. }
  pose proof (binade_mono x y Hx Hxy) as Hb.
  destruct (binade_spec x Hx) as [Lx Ux].
  destruct (binade_spec y Hy) as [Ly Uy].
  unfold round_mag, ulp_exp.
  set (kx := (Z.max (binade x) (-1022) - 52)%Z).
  set (ky := (Z.max (binade y) (-1022) - 52)%Z).
  pose proof (pow2_pos kx) as Px. pose proof (pow2_pos ky) as Py.
  destruct (Z.eq_dec kx ky) as [E|N].
  - rewrite E. apply Qmult_le_compat_r; [|lra].
    rewrite <- Zle_Qle. apply rne_mono.
    apply Qdiv_le_cross; [exact Py | exact Py | nra].
  - assert (Hk : (kx + 1 <= ky)%Z) by (subst kx ky; lia).
    assert (Hby : (ky = binade y - 52)%Z) by (subst kx ky; lia).
    assert (Hbx : (binade x + 1 <= kx + 53)%Z) by (subst kx; lia).
    apply Qle_trans with (Qpower 2 (kx + 53)).
    + rewrite pow2_add. rewrite (Qmult_comm (Qpower 2 kx)).
      apply Qmult_le_compat_r; [|lra].
      rewrite <- (Zpower_Qpower 2 53) by lia.
      rewrite <- Zle_Qle. rewrite <- (rne_Z (2 ^ 53)). apply rne_mono.
      apply Qle_shift_div_r; [exact Px|].
      rewrite (Zpower_Qpower 2 53) by lia.
      rewrite (Qmult_comm (Qpower 2 53)), <- pow2_add.
      pose proof (pow2_le _ _ Hbx). lra.
    + apply Qle_trans with (Qpower 2 (ky + 52)).
      * apply pow2_le. lia.
      * rewrite pow2_add. rewrite (Qmult_comm (Qpower 2 ky)).
        apply Qmult_le_compat_r; [|lra].
        rewrite <- (Zpower_Qpower 2 52) by lia.
        rewrite <- Zle_Qle. rewrite <- (rne_Z (2 ^ 52)) at 1. apply rne_mono.
        apply Qle_shift_div_l; [exact Py|].
        rewrite (Zpower_Qpower 2 52) by lia.
        rewrite (Qmult_comm (Qpower 2 52)), <- pow2_add.
        replace (ky + 52)%Z with (binade y) by lia. exact Ly.
Qed.

(** Rounding to binary64 preserves order. *)
Lemma round64_mono x y : x <= y -> round64 x <= round64 y.
Proof.
  intros H. unfold round64, Qneg_bool.
  pose proof (round_mag_nonneg x) as Nx. pose proof (round_mag_nonneg y) as Ny.
  destruct (Qeq_bool x 0) eqn:Ex; destruct (Qeq_bool y 0) eqn:Ey;
    destruct (Qle_bool 0 x) eqn:Sx; destruct (Qle_bool 0 y) eqn:Sy;
    cbn [negb]; qcompare_facts; try lra.
  - apply round_mag_mono; [exact Ex|].
    rewrite !Qabs_pos by lra. exact H.
  - apply Qopp_le_compat. apply round_mag_mono; [exact Ey|].
    rewrite !Qabs_neg by lra. lra.
Qed.

End Rounding.

(** ** The pixel mapping *)

Section Pixel.

Local Open Scope Q_scope.

Lemma const_c01 : const (1 # 100) = Finite c01.
Proof. vm_compute. reflexivity. Qed.

Lemma const_c99 : const (99 # 100) = Finite c99.
Proof. vm_compute. reflexivity. Qed.

Lemma c01_c99_exact : 1 # 100 <= c01 /\ c01 <= c99 /\ c99 <= 99 # 100.
Proof. repeat split; apply Qle_bool_iff; vm_compute; reflexivity. Qed.

Lemma Qtrunc_mono x y : x <= y -> (Qtrunc x <= Qtrunc y)%Z.
Proof.
  intros H. unfold Qtrunc.
  destruct (Qle_bool 0 x) eqn:Sx; destruct (Qle_bool 0 y) eqn:Sy; qcompare_facts.
  - apply Qfloor_resp_le, H.
  - lra.
  - apply Z.le_trans with 0%Z.
    + rewrite <- (Qceiling_Z 0). apply Qceiling_resp_le.
      change (inject_Z 0) with 0. lra.
    + rewrite <- (Qfloor_Z 0). apply Qfloor_resp_le. exact Sy.
  - apply Qceiling_resp_le, H.
Qed.

Lemma Max_finite a q :
  Qeq_bool a 0 = false ->
  Max (Finite a) (Finite q)
  = match Qcompare a q with Gt => Finite a | _ => Finite q end.
Proof.
  intros Ha. unfold Max, gt, cmp, is_nan, is_zero, val. rewrite Ha. cbn.
  destruct (Qcompare a q); reflexivity.
Qed.

Lemma Min_finite a q :
  Qeq_bool a 0 = false ->
  Min (Finite a) (Finite q)
  = match Qcompare a q with Lt => Finite a | _ => Finite q end.
Proof.
  intros Ha. unfold Min, lt, cmp, is_nan, is_zero, val. rewrite Ha. cbn.
  destruct (Qcompare a q); reflexivity.
Qed.

Lemma c01_nonzero : Qeq_bool c01 0 = false.
Proof. reflexivity. Qed.

Lemma c99_nonzero : Qeq_bool c99 0 = false.
Proof. reflexivity. Qed.

Lemma of_real_finite q :
  Qabs (round64 q) < Qpower 2 1024 -> ~ round64 q == 0 ->
  of_real q = Finite (round64 q).
Proof.
  intros Hlt Hnz. unfold of_real.
  destruct (Qle_bool (Qpower 2 1024) (Qabs (round64 q))) eqn:C1.
  - qcompare_facts. lra.
  - destruct (Qeq_bool (round64 q) 0) eqn:C2; [|reflexivity].
    qcompare_facts. contradiction.
Qed.

Lemma small_lt_pow1024 q : Qabs q <= 256 -> Qabs q < Qpower 2 1024.
Proof.
  intros H. apply Qle_lt_trans with 256; [exact H|].
  apply Qlt_alt. vm_compute. reflexivity.
Qed.

(** The scaled value [255 * c] of a clamped pixel, and the shifted value. *)
Lemma scaled_bounds c :
  c01 <= c <= c99 ->
  round64 (255 * c01) <= round64 (255 * c) <= round64 (255 * c99).
Proof. intros [H1 H2]. split; apply round64_mono; lra. Qed.

Lemma shifted_bounds c :
  c01 <= c <= c99 ->
  round64 (round64 (255 * c01) - 255) <= round64 (round64 (255 * c) - 255)
  /\ round64 (round64 (255 * c) - 255) <= round64 (round64 (255 * c99) - 255).
Proof.
  intros H. destruct (scaled_bounds c H) as [H1 H2].
  split; apply round64_mono; lra.
Qed.

Lemma scaled_ends :
  2 <= round64 (255 * c01) /\ round64 (255 * c99) <= 253.
Proof. split; apply Qle_bool_iff; vm_compute; reflexivity. Qed.

Lemma shifted_ends :
  - (253) <= round64 (round64 (255 * c01) - 255)
  /\ round64 (round64 (255 * c99) - 255) <= - (2)
  /\ Qtrunc (round64 (round64 (255 * c01) - 255)) = (-252)%Z
  /\ Qtrunc (round64 (round64 (255 * c99) - 255)) = (-2)%Z.
Proof.
  repeat split; try (apply Qle_bool_iff; vm_compute; reflexivity);
    vm_compute; reflexivity.
Qed.

Lemma pixel_finite c :
  c01 <= c <= c99 ->
  sub (mul pixelRange (Finite c)) pixelRange
  = Finite (round64 (round64 (255 * c) - 255)).
Proof.
  intros H. pose proof c01_c99_exact as [E1 [E2 E3]].
  destruct (scaled_bounds c H) as [S1 S2].
  destruct (shifted_bounds c H) as [T1 T2].
  destruct scaled_ends as [A1 A2].
  destruct shifted_ends as [B1 [B2 _]].
  assert (Hc : Qeq_bool c 0 = false).
  { destruct (Qeq_bool c 0) eqn:C; [qcompare_facts; lra | reflexivity]. }
  assert (Hm : mul pixelRange (Finite c) = Finite (round64 (255 * c))).
  { unfold mul, pixelRange. cbn [is_nan is_inf is_zero signbit val orb].
    rewrite Hc. change (Qeq_bool 255 0) with false. cbn [orb].
    apply of_real_finite.
    - apply small_lt_pow1024. apply Qabs_Qle_condition. lra.
    - lra. }
  rewrite Hm. unfold sub, pixelRange. cbn [val].
  destruct (Qeq_bool (round64 (255 * c) - 255) 0) eqn:C.
  - qcompare_facts. lra.
  - apply of_real_finite.
    + apply small_lt_pow1024. apply Qabs_Qle_condition. lra.
    + lra.
Qed.

(** The byte of a clamped pixel: the truncated shifted value, wrapped. *)
Lemma pixel_byte c :
  c01 <= c <= c99 ->
  to_byte (sub (mul pixelRange (Finite c)) pixelRange)
  = (Qtrunc (round64 (round64 (255 * c) - 255)) + 256)%Z
  /\ (-252 <= Qtrunc (round64 (round64 (255 * c) - 255)) <= -2)%Z.
Proof.
  intros H. rewrite (pixel_finite c H).
  destruct (shifted_bounds c H) as [T1 T2].
  destruct shifted_ends as [_ [_ [B3 B4]]].
  apply Qtrunc_mono in T1, T2. rewrite B3 in T1. rewrite B4 in T2.
  split; [|lia].
  unfold to_byte, to_int32.
  set (t := Qtrunc _) in *.
  replace ((- 2 ^ 31 <=? t)%Z && (t <? 2 ^ 31)%Z) with true
    by (symmetry; apply andb_true_intro; split; [apply Z.leb_le | apply Z.ltb_lt]; lia).
  rewrite <- (Z.mod_add t 1 256) by lia.
  rewrite Z.mod_small by lia. lia.
Qed.

(** The clamp of a float that is not NaN is a finite value of the
    interval, and the clamp preserves order. *)
Lemma clamp_PInf : clampPixel PInf = Finite c99.
Proof. vm_compute. reflexivity. Qed.

Lemma clamp_NInf : clampPixel NInf = Finite c01.
Proof. vm_compute. reflexivity. Qed.

Lemma clamp_NZero : clampPixel NZero = Finite c01.
Proof. vm_compute. reflexivity. Qed.

Lemma clamp_NaN : clampPixel NaN = NaN.
Proof. vm_compute. reflexivity. Qed.

Lemma clamp_Finite q :
  clampPixel (Finite q)
  = Finite match Qcompare c01 q with
           | Gt => c01
           | _ => match Qcompare c99 q with Lt => c99 | _ => q end
           end.
Proof.
  unfold clampPixel. rewrite const_c01, const_c99.
  rewrite (Max_finite _ _ c01_nonzero).
  destruct (Qcompare c01 q) eqn:C1; rewrite (Min_finite _ _ c99_nonzero);
    destruct (Qcompare c99 q); reflexivity.
Qed.

(** The clamp of a float that is not NaN is a finite value of the
    interval, and the clamp preserves order. *)
Lemma clamp_finite px :
  is_nan px = false ->
  exists c, clampPixel px = Finite c /\ c01 <= c <= c99.
Proof.
  intros Hn. pose proof c01_c99_exact as [E1 [E2 E3]].
  destruct px as [| | | |q]; try discriminate.
  - exists c99. split; [apply clamp_PInf | lra].
  - exists c01. split; [apply clamp_NInf | lra].
  - exists c01. split; [apply clamp_NZero | lra].
  - rewrite clamp_Finite. eexists. split; [reflexivity|].
    destruct (Qcompare c01 q) eqn:C1; destruct (Qcompare c99 q) eqn:C2;
      qcompare_facts; lra.
Qed.

Lemma le_Finite a b : le (Finite a) (Finite b) = true -> a <= b.
Proof.
  unfold le, cmp, val. destruct (Qcompare a b) eqn:C; try discriminate;
    intros _; qcompare_facts; lra.
Qed.

Lemma clamp_mono a b ca cb :
  le a b = true ->
  clampPixel a = Finite ca -> clampPixel b = Finite cb -> ca <= cb.
Proof.
  pose proof c01_c99_exact as [E1 [E2 E3]].
  intros Hle Ha Hb.
  destruct a as [| | | |qa]; destruct b as [| | | |qb];
    try discriminate Hle.
  all: rewrite ?clamp_PInf, ?clamp_NInf, ?clamp_NZero, ?clamp_Finite in Ha.
  all: rewrite ?clamp_PInf, ?clamp_NInf, ?clamp_NZero, ?clamp_Finite in Hb.
  all: injection Ha as Ea; injection Hb as Eb.
  all: subst ca cb.
  all: try lra.
  - destruct (Qcompare c01 qb) eqn:C1; destruct (Qcompare c99 qb) eqn:C2;
      qcompare_facts; lra.
  - destruct (Qcompare c01 qb) eqn:C1; destruct (Qcompare c99 qb) eqn:C2;
      qcompare_facts; lra.
  - destruct (Qcompare c01 qa) eqn:C1; destruct (Qcompare c99 qa) eqn:C2;
      qcompare_facts; lra.
  - change (le (Finite qa) (Finite 0) = true) in Hle. apply le_Finite in Hle.
    destruct (Qcompare c01 qa) eqn:C1; destruct (Qcompare c99 qa) eqn:C2;
      qcompare_facts; lra.
  - apply le_Finite in Hle.
    destruct (Qcompare c01 qa) eqn:C1; destruct (Qcompare c99 qa) eqn:C2;
      destruct (Qcompare c01 qb) eqn:C3; destruct (Qcompare c99 qb) eqn:C4;
      qcompare_facts; lra.
Qed.

Lemma le_not_nan a b : le a b = true -> is_nan a = false /\ is_nan b = false.
Proof.
  intros H. destruct a; destruct b; try discriminate H; split; reflexivity.
Qed.

Lemma rpw_clamped px c :
  clampPixel px = Finite c -> c01 <= c <= c99 ->
  reversePixelWeight px
  = (Qtrunc (round64 (round64 (255 * c) - 255)) + 256)%Z.
Proof.
  intros Hc Hr. unfold reversePixelWeight. rewrite Hc.
  apply (pixel_byte c Hr).
Qed.

Lemma rpw_mono a b : le a b = true -> (reversePixelWeight a <= reversePixelWeight b)%Z.
Proof.
  intros H. destruct (le_not_nan a b H) as [Na Nb].
  destruct (clamp_finite a Na) as [ca [Ha Ra]].
  destruct (clamp_finite b Nb) as [cb [Hb Rb]].
  pose proof (clamp_mono a b ca cb H Ha Hb) as Hc.
  rewrite (rpw_clamped a ca Ha Ra), (rpw_clamped b cb Hb Rb).
  apply Z.add_le_mono_r. apply Qtrunc_mono, round64_mono.
  assert (round64 (255 * ca) <= round64 (255 * cb)) by (apply round64_mono; lra).
  lra.
Qed.

Lemma clamp_idem px : clampPixel (clampPixel px) = clampPixel px.
Proof.
  destruct px as [| | | |q].
  - vm_compute. reflexivity.
  - vm_compute. reflexivity.
  - vm_compute. reflexivity.
  - vm_compute. reflexivity.
  - pose proof c01_c99_exact as [E1 [E2 E3]].
    rewrite (clamp_Finite q).
    destruct (Qcompare c01 q) eqn:C1; destruct (Qcompare c99 q) eqn:C2;
      first [ rewrite (clamp_Finite q), C1, C2; reflexivity
            | rewrite (clamp_Finite q), C1; reflexivity
            | rewrite clamp_Finite; reflexivity ].
Qed.

End Pixel.

(** ** The order of [float64] values that are not NaN *)

Section Order.

Local Open Scope Q_scope.

Ltac f64_cases x y :=
  destruct x, y; unfold le, lt, gt, cmp, key_le, key_lt, tier, val, is_nan;
  cbv beta iota;
  try (split; [discriminate | intros [? [? ?]]; discriminate]);
  try (split; [intros _; repeat split; lra | reflexivity]);
  try (split; [discriminate | intros [_ [_ H]]; exfalso; lra]).

Lemma le_iff x y :
  le x y = true <-> is_nan x = false /\ is_nan y = false /\ key_le x y.
Proof.
  f64_cases x y;
    match goal with
    | |- context [Qcompare ?a ?b] =>
        destruct (Qcompare a b) eqn:C; qcompare_facts;
        (split; [intros E; try discriminate E; repeat split; lra
                | intros [_ [_ H]]; try reflexivity; exfalso; lra])
    end.
Qed.

Lemma lt_iff x y :
  lt x y = true <-> is_nan x = false /\ is_nan y = false /\ key_lt x y.
Proof.
  f64_cases x y;
    match goal with
    | |- context [Qcompare ?a ?b] =>
        destruct (Qcompare a b) eqn:C; qcompare_facts;
        (split; [intros E; try discriminate E; repeat split; lra
                | intros [_ [_ H]]; try reflexivity; exfalso; lra])
    end.
Qed.

Lemma gt_iff x y :
  gt x y = true <-> is_nan x = false /\ is_nan y = false /\ key_lt y x.
Proof.
  f64_cases x y;
    match goal with
    | |- context [Qcompare ?a ?b] =>
        destruct (Qcompare a b) eqn:C; qcompare_facts;
        (split; [intros E; try discriminate E; repeat split; lra
                | intros [_ [_ H]]; try reflexivity; exfalso; lra])
    end.
Qed.

Lemma eq_iff x y :
  eq x y = true <->
  is_nan x = false /\ is_nan y = false /\ tier x == tier y /\ val x == val y.
Proof.
  destruct x, y; unfold eq, cmp, tier, val, is_nan; cbv beta iota;
    try (split; [discriminate | intros [? [? ?]]; discriminate]);
    try (split; [intros _; repeat split; lra | reflexivity]);
    try (split; [discriminate | intros [_ [_ [H _]]]; exfalso; lra]);
    match goal with
    | |- context [Qcompare ?a ?b] =>
        destruct (Qcompare a b) eqn:C; qcompare_facts;
        (split; [intros E; try discriminate E; repeat split; lra
                | intros [_ [_ [_ H]]]; try reflexivity; exfalso; lra])
    end.
Qed.

Ltac f64_order :=
  repeat match goal with
  | H : le _ _ = true |- _ => apply le_iff in H; destruct H as [? [? ?]]
  | H : lt _ _ = true |- _ => apply lt_iff in H; destruct H as [? [? ?]]
  | H : gt _ _ = true |- _ => apply gt_iff in H; destruct H as [? [? ?]]
  | H : eq _ _ = true |- _ => apply eq_iff in H; destruct H as [? [? [? ?]]]
  end;
  try (apply le_iff; split; [assumption|split; [assumption|]]);
  try (apply lt_iff; split; [assumption|split; [assumption|]]);
  unfold key_le, key_lt in *; lra.

Lemma le_refl x : is_nan x = false -> le x x = true.
Proof. intros H. f64_order. Qed.

Lemma le_trans x y z : le x y = true -> le y z = true -> le x z = true.
Proof. intros H1 H2. f64_order. Qed.

Lemma le_lt_trans x y z : le x y = true -> lt y z = true -> lt x z = true.
Proof. intros H1 H2. f64_order. Qed.

Lemma gt_lt x y : gt x y = true -> lt y x = true.
Proof. intros H. f64_order. Qed.

Lemma le_lt_le x y z : le x y = true -> lt y z = true -> le x z = true.
Proof. intros H1 H2. f64_order. Qed.

Lemma not_gt_le x y :
  is_nan x = false -> is_nan y = false -> gt x y = false -> le x y = true.
Proof.
  intros H1 H2 H3. apply le_iff. split; [assumption|split; [assumption|]].
  destruct (Qlt_le_dec (tier y) (tier x)) as [T|T].
  - exfalso. apply not_true_iff_false in H3. apply H3, gt_iff.
    unfold key_lt. auto.
  - destruct (Qlt_le_dec (val y) (val x)) as [V|V].
    + destruct (Qlt_le_dec (tier x) (tier y)) as [T'|T']; [left; exact T'|].
      exfalso. apply not_true_iff_false in H3. apply H3, gt_iff.
      unfold key_lt. repeat split; try assumption. right. split; lra.
    + unfold key_le.
      destruct (Qlt_le_dec (tier x) (tier y)) as [T'|T']; [left; exact T'|].
      right. split; lra.
Qed.

Lemma lt_not_le x y : lt x y = true -> le y x = true -> False.
Proof. intros H1 H2. f64_order. Qed.

Lemma eq_le_l x y z : eq x y = true -> le z x = true -> le z y = true.
Proof. intros H1 H2. f64_order. Qed.

Lemma eq_le_r x y z : eq x y = true -> le x z = true -> le y z = true.
Proof. intros H1 H2. f64_order. Qed.

End Order.

(** ** The arg-max loop *)

Section Argmax.

Variable row : list float64.

Lemma argmax_step_inv k st x :
  argmax_inv row k st -> row !! k = Some x -> is_nan x = false ->
  exists st', argmax_step row st k = Some st' /\ argmax_inv row (S k) st'.
Proof.
  intros Hinv Hx Hn. unfold argmax_step. rewrite Hx.
  destruct (Nat.eqb k 0) eqn:Ek.
  - apply Nat.eqb_eq in Ek. subst k. eexists. split; [reflexivity|].
    right. cbn [fst snd]. repeat split.
    + lia.
    + exact Hx.
    + intros j y Hj Hy. assert (j = 0%nat) by lia. subst j.
      rewrite Hx in Hy. injection Hy as <-. apply le_refl, Hn.
    + intros j y Hj. lia.
  - apply Nat.eqb_neq in Ek.
    destruct Hinv as [->|[Hl [Hh [Hle Hlt]]]]; [contradiction|].
    destruct st as [l h]. cbn [fst snd] in *.
    assert (Hhn : is_nan h = false).
    { pose proof (Hle l h Hl Hh) as E. apply le_iff in E. tauto. }
    destruct (gt x h) eqn:G.
    + eexists. split; [reflexivity|]. right. cbn [fst snd].
      apply gt_lt in G. repeat split.
      * lia.
      * exact Hx.
      * intros j y Hj Hy. destruct (Nat.eq_dec j k) as [->|Hne].
        -- rewrite Hx in Hy. injection Hy as <-. apply le_refl, Hn.
        -- apply le_lt_le with h; [|exact G]. apply (Hle j); [lia|exact Hy].
      * intros j y Hj Hy. apply le_lt_trans with h; [|exact G].
        apply (Hle j); [lia|exact Hy].
    + eexists. split; [reflexivity|]. right. cbn [fst snd]. repeat split.
      * lia.
      * exact Hh.
      * intros j y Hj Hy. destruct (Nat.eq_dec j k) as [->|Hne].
        -- rewrite Hx in Hy. injection Hy as <-.
           apply not_gt_le; assumption.
        -- apply (Hle j); [lia|exact Hy].
      * exact Hlt.
Qed.

Lemma argmax_loop_inv n : forall k st,
  argmax_inv row k st ->
  (forall j, (k <= j < k + n)%nat ->
     exists x, row !! j = Some x /\ is_nan x = false) ->
  exists st', argmax_loop n k row st = Some st' /\ argmax_inv row (k + n) st'.
Proof.
  induction n as [|n IH]; intros k st Hinv Hrow.
  - exists st. split; [reflexivity|]. rewrite Nat.add_0_r. exact Hinv.
  - destruct (Hrow k ltac:(lia)) as [x [Hx Hn]].
    destruct (argmax_step_inv k st x Hinv Hx Hn) as [st1 [E1 I1]].
    destruct (IH (S k) st1 I1) as [st2 [E2 I2]].
    { intros j Hj. apply Hrow. lia. }
    exists st2. split.
    + cbn [argmax_loop]. rewrite E1. exact E2.
    + replace (k + S n)%nat with (S k + n)%nat by lia. exact I2.
Qed.

(** When some index attains the maximum of the ten entries, the loop
    returns the least such index. *)
Lemma argmax10_least i :
  attains_max row i ->
  (forall j, (j < 10)%nat -> is_Some (row !! j)) ->
  exists l, argmax10 row = Some l /\ attains_max row l /\
    forall i', attains_max row i' -> (l <= i')%nat.
Proof.
  intros [Hi [x [Hx Hmax]]] Hlen.
  destruct (argmax_loop_inv 10 0 (0%nat, Finite 0)) as [[l h] [E I]].
  { left. reflexivity. }
  { intros j Hj. destruct (Hlen j ltac:(lia)) as [y Hy]. exists y.
    split; [exact Hy|]. pose proof (Hmax j y ltac:(lia) Hy) as L.
    apply le_iff in L. tauto. }
  destruct I as [I|[Hl [Hh [Hle Hlt]]]]; [discriminate I|].
  cbn [fst snd] in *.
  exists l. split; [unfold argmax10; rewrite E; reflexivity|].
  split.
  - split; [lia|]. exists h. split; [exact Hh|].
    intros j y Hj Hy. apply (Hle j); [lia|exact Hy].
  - intros i' [Hi' [x' [Hx' Hmax']]].
    destruct (le_lt_dec l i') as [?|Hlt']; [assumption|exfalso].
    pose proof (Hlt i' x' Hlt' Hx') as L1.
    pose proof (Hmax' l h ltac:(lia) Hh) as L2.
    exact (lt_not_le _ _ L1 L2).
Qed.

End Argmax.

(** ** Runs of the loops *)

Section Runs.

Context {G : Gorgonia}.
Variable env : Env.

Lemma geb_false a b : a < b -> (a >=? b) = false.
Proof. intros H. rewrite Z.geb_leb. apply Z.leb_gt. exact H. Qed.

Lemma gtb_false a b : a <= b -> (a >? b) = false.
Proof. intros H. rewrite Z.gtb_ltb. apply Z.ltb_ge. exact H. Qed.

Lemma bind_Ok {A B} (c : M A) (k : A -> M B) w a w1 :
  c w = Ok a w1 -> bind c k w = k a w1.
Proof. intros E. unfold bind. rewrite E. reflexivity. Qed.

Lemma bind_Exit {A B} (c : M A) (k : A -> M B) w code w1 :
  c w = Exit code w1 -> bind c k w = Exit code w1.
Proof. intros E. unfold bind. rewrite E. reflexivity. Qed.

Lemma sliceOrFatal_ok t s e line v w :
  Slice t s e = inr v -> sliceOrFatal t s e line w = Ok v w.
Proof. intros E. unfold sliceOrFatal. rewrite E. reflexivity. Qed.

Lemma sliceOrFatal_err t s e line er w :
  Slice t s e = inl er ->
  sliceOrFatal t s e line w
  = Exit 1 (mkWorld (vm w) (fs w) (trace w ++ [EvLog line])).
Proof. intros E. unfold sliceOrFatal. rewrite E. reflexivity. Qed.

Lemma reshapeOrFatal_ok t r c line v w :
  Reshape t r c = inr v -> reshapeOrFatal t r c line w = Ok v w.
Proof. intros E. unfold reshapeOrFatal. rewrite E. reflexivity. Qed.

Lemma reshapeOrFatal_err t r c line er w :
  Reshape t r c = inl er ->
  reshapeOrFatal t r c line w
  = Exit 1 (mkWorld (vm w) (fs w) (trace w ++ [EvLog (line +:+ Error er)])).
Proof. intros E. unfold reshapeOrFatal. rewrite E. reflexivity. Qed.

Lemma runAllOrFatal_ok x y line w m' :
  RunAll (vm w) x y = inr m' ->
  runAllOrFatal x y line w
  = Ok tt (mkWorld m' (fs w) (trace w ++ [EvFeed x y])).
Proof. intros E. unfold runAllOrFatal. rewrite E. reflexivity. Qed.

Lemma runAllOrFatal_err x y line w er :
  RunAll (vm w) x y = inl er ->
  runAllOrFatal x y line w
  = Exit 1 (mkWorld (vm w) (fs w) (trace w ++ [EvLog (line +:+ Error er)])).
Proof. intros E. unfold runAllOrFatal. rewrite E. reflexivity. Qed.

Lemma Slice_batch t c bs b :
  well_shaped t c -> 0 < bs -> 0 <= b -> b * bs + bs <= nrows t ->
  Slice t (b * bs) (b * bs + bs) = inr (batchRows t bs b).
Proof.
  intros [Hr [Hc Hl]] Hbs Hb Hle. unfold Slice, batchRows.
  replace ((0 <=? b * bs) && (b * bs <? b * bs + bs) && (b * bs + bs <=? nrows t))
    with true.
  - replace (b * bs + bs - b * bs) with bs by lia. reflexivity.
  - symmetry. rewrite !andb_true_iff. repeat split.
    + apply Z.leb_le. nia.
    + apply Z.ltb_lt. lia.
    + apply Z.leb_le. exact Hle.
Qed.

Lemma batchRows_shape t c bs b :
  well_shaped t c -> 0 < bs -> 0 <= b -> b * bs + bs <= nrows t ->
  well_shaped (batchRows t bs b) c.
Proof.
  intros [Hr [Hc Hl]] Hbs Hb Hle. unfold well_shaped, batchRows. cbn.
  repeat split; [lia | exact Hc |].
  rewrite length_take, length_drop. rewrite Hc. nia.
Qed.

Lemma Reshape_same t r c :
  well_shaped t c -> nrows t = r -> Reshape t r c = inr (mkDense r c (backing t)).
Proof.
  intros [Hr [Hc Hl]] E. unfold Reshape. rewrite Hc, E.
  replace ((0 <=? r) && (r * c =? r * c)) with true; [reflexivity|].
  symmetry. apply andb_true_iff. split; [apply Z.leb_le; lia | apply Z.eqb_refl].
Qed.

Lemma batchRows_eta t c bs b :
  ncols t = c -> mkDense bs c (backing (batchRows t bs b)) = batchRows t bs b.
Proof. intros <-. reflexivity. Qed.




Lemma open_write trunc path content w :
  (f <- openFile env path trunc ;; writeFile f path content) w
  = Ok tt (putFile env trunc path content w).
Proof.
  unfold bind, openFile, writeFile, putFile.
  destruct (denied env path); cbn; [reflexivity|].
  rewrite lookup_insert_eq. cbn. rewrite insert_insert_eq.
  destruct trunc; reflexivity.
Qed.

Lemma putFile_vm trunc path content w :
  vm (putFile env trunc path content w) = vm w.
Proof. unfold putFile. destruct (denied env path); reflexivity. Qed.

Lemma putFile_trace trunc path content w :
  trace (putFile env trunc path content w)
  = trace w ++ [EvWrite path content (negb (denied env path))].
Proof. unfold putFile. destruct (denied env path); reflexivity. Qed.

Lemma rowData_ok t c j :
  well_shaped t c -> 0 <= j < nrows t ->
  rowData t j = Some (rowOf t j).
Proof.
  intros [Hr [Hc Hl]] Hj. unfold rowData, Slice, rowOf.
  replace ((0 <=? j) && (j <? j + 1) && (j + 1 <=? nrows t)) with true.
  - cbn. replace ((j + 1 - j) * ncols t) with (ncols t) by lia. reflexivity.
  - symmetry. rewrite !andb_true_iff. repeat split;
      [apply Z.leb_le | apply Z.ltb_lt | apply Z.leb_le]; lia.
Qed.

Lemma rowOf_length t c j :
  well_shaped t c -> 0 <= c -> 0 <= j < nrows t ->
  length (rowOf t j) = Z.to_nat c.
Proof.
  intros [Hr [Hc Hl]] Hc0 Hj. unfold rowOf.
  rewrite length_take, length_drop, Hc. nia.
Qed.

(** The arg-max loop returns a label whenever the row has ten entries. *)
Lemma argmax_loop_total row n : forall k st,
  (k + n <= length row)%nat -> is_Some (argmax_loop n k row st).
Proof.
  induction n as [|n IH]; intros k st Hlen; [eexists; reflexivity|].
  cbn [argmax_loop]. unfold argmax_step.
  destruct (lookup_lt_is_Some_2 row k ltac:(lia)) as [x Hx]. rewrite Hx.
  destruct (Nat.eqb k 0); [|destruct (gt x (snd st))]; apply IH; lia.
Qed.

Lemma argmax10_total row :
  (10 <= length row)%nat -> exists l, argmax10 row = Some l.
Proof.
  intros H. destruct (argmax_loop_total row 10 0 (0%nat, Finite 0) H) as [st E].
  exists (fst st). unfold argmax10. rewrite E. reflexivity.
Qed.

Lemma csvRow_spec row n : forall k acc,
  (k + n <= length row)%nat ->
  csvRow n k row acc = Some (acc ++ map FormatFloat_f6 (take n (drop k row))).
Proof.
  induction n as [|n IH]; intros k acc Hlen.
  - cbn. rewrite take_0, app_nil_r. reflexivity.
  - cbn [csvRow].
    destruct (lookup_lt_is_Some_2 row k ltac:(lia)) as [x Hx]. rewrite Hx.
    rewrite IH by lia. f_equal. rewrite <- app_assoc. f_equal.
    rewrite (drop_S row x k Hx). reflexivity.
Qed.

Lemma csvMatrix_spec t n : forall j acc,
  well_shaped t 10 -> 0 <= j -> j + Z.of_nat n <= nrows t ->
  csvMatrix n j t acc
  = Some (acc ++ map (fun j => map FormatFloat_f6 (rowOf t j)) (seqZ j (Z.of_nat n))).
Proof.
  induction n as [|n IH]; intros j acc Ht Hj Hle.
  - cbn. rewrite app_nil_r. reflexivity.
  - cbn [csvMatrix]. rewrite (rowData_ok t 10 j Ht) by lia.
    pose proof (rowOf_length t 10 j Ht ltac:(lia) ltac:(lia)) as Hlen.
    rewrite csvRow_spec by (rewrite Hlen; lia).
    rewrite IH by (try assumption; lia).
    f_equal. rewrite <- app_assoc. f_equal.
    replace (Z.of_nat (S n)) with (Z.succ (Z.of_nat n)) by lia.
    rewrite (seqZ_cons j) by lia. cbn.
    replace (Z.pred (Z.succ (Z.of_nat n))) with (Z.of_nat n) by lia.
    replace (Z.succ j) with (j + 1) by lia.
    f_equal. f_equal. rewrite drop_0. apply take_ge. rewrite Hlen. lia.
Qed.

Lemma forRows_events (R : world -> world -> Prop) (P : Z -> list event -> Prop)
  body n :
  (forall w, R w w) -> (forall w1 w2 w3, R w1 w2 -> R w2 w3 -> R w1 w3) ->
  forall j0,
  (forall j w, j0 <= j < j0 + Z.of_nat n ->
     exists w1 evs, body j w = Ok tt w1 /\ trace w1 = trace w ++ evs /\
       R w w1 /\ P j evs) ->
  forall w, exists w' evss,
    forRows n j0 body w = Ok tt w' /\
    trace w' = trace w ++ concat evss /\ R w w' /\
    Forall2 P (seqZ j0 (Z.of_nat n)) evss.
Proof.
  intros Rrefl Rtrans. induction n as [|n IH]; intros j0 Hbody w.
  - exists w, []. cbn. rewrite app_nil_r. repeat split; auto; constructor.
  - destruct (Hbody j0 w ltac:(lia)) as [w1 [evs [E1 [T1 [R1 P1]]]]].
    destruct (IH (j0 + 1)) with (w := w1) as [w' [evss [E2 [T2 [R2 P2]]]]].
    { intros j w0 Hj. apply Hbody. lia. }
    exists w', (evs :: evss). split; [|split; [|split]].
    + cbn [forRows]. rewrite (bind_Ok _ _ _ _ _ E1). exact E2.
    + rewrite T2, T1. cbn. rewrite app_assoc. reflexivity.
    + eapply Rtrans; eassumption.
    + replace (Z.of_nat (S n)) with (Z.succ (Z.of_nat n)) by lia.
      rewrite seqZ_cons by lia. constructor; [exact P1|].
      replace (Z.pred (Z.succ (Z.of_nat n))) with (Z.of_nat n) by lia.
      replace (Z.succ j0) with (j0 + 1) by lia. exact P2.
Qed.

Lemma orPanic_Some {A} (o : option A) a w : o = Some a -> orPanic o w = Ok a w.
Proof. intros ->. reflexivity. Qed.

(** The image names and the CSV names are in different directories. *)
Lemma imageName_not_csv b j l g b' : imageName b j l g <> csvName b'.
Proof. unfold imageName, csvName, imgPath, csvPath. cbn. discriminate. Qed.

Lemma putFile_image_step b j l g content w :
  image_step w (putFile env true (imageName b j l g) content w).
Proof.
  split; [apply putFile_vm|]. intros b'. unfold putFile.
  destruct (denied env _); cbn; [reflexivity|].
  apply lookup_insert_ne, imageName_not_csv.
Qed.

Lemma evalImage_ok b xVal yVal yOutput j w :
  well_shaped xVal 784 -> well_shaped yVal 10 -> well_shaped yOutput 10 ->
  nrows yVal = nrows xVal -> nrows yOutput = nrows xVal ->
  0 <= j < nrows xVal ->
  exists w1 evs,
    evalImage env b xVal yVal yOutput j w = Ok tt w1 /\
    trace w1 = trace w ++ evs /\ image_step w w1 /\
    (exists e, evs = [e] /\ imageEvent env b j e).
Proof.
  intros Hx Hy Ho Hny Hno Hj.
  destruct (argmax10_total (rowOf yVal j)) as [l Hl].
  { rewrite (rowOf_length yVal 10 j Hy) by lia. lia. }
  destruct (argmax10_total (rowOf yOutput j)) as [g Hg].
  { rewrite (rowOf_length yOutput 10 j Ho) by lia. lia. }
  eexists. eexists. split; [|split; [|split]].
  - unfold evalImage.
    rewrite (bind_Ok _ _ _ _ _ (orPanic_Some _ _ w (rowData_ok xVal 784 j Hx Hj))).
    rewrite (bind_Ok _ _ _ _ _
               (orPanic_Some _ _ w (rowData_ok yVal 10 j Hy ltac:(lia)))).
    rewrite (bind_Ok _ _ _ _ _ (orPanic_Some _ _ w Hl)).
    rewrite (bind_Ok _ _ _ _ _
               (orPanic_Some _ _ w (rowData_ok yOutput 10 j Ho ltac:(lia)))).
    rewrite (bind_Ok _ _ _ _ _ (orPanic_Some _ _ w Hg)).
    apply open_write.
  - apply putFile_trace.
  - apply putFile_image_step.
  - eexists. split; [reflexivity|]. exists l, g. eexists. reflexivity.
Qed.

Lemma image_step_refl w : image_step w w.
Proof. split; [reflexivity | intros; reflexivity]. Qed.

Lemma image_step_trans w1 w2 w3 :
  image_step w1 w2 -> image_step w2 w3 -> image_step w1 w3.
Proof.
  intros [V1 F1] [V2 F2]. split; [congruence|].
  intros b'. rewrite F2. apply F1.
Qed.

Lemma concat_singletons {A B} (P : A -> B -> Prop) (l : list A) (evss : list (list B)) :
  Forall2 (fun a evs => exists e, evs = [e] /\ P a e) l evss ->
  Forall2 P l (concat evss).
Proof.
  induction 1 as [|a evs l evss [e [-> He]] _ IH]; cbn; constructor; assumption.
Qed.

Lemma newDense_ok r c (b : list float64) :
  Z.of_nat (length b) = r * c -> newDense r c b = Some (mkDense r c b).
Proof. intros E. unfold newDense. rewrite E, Z.eqb_refl. reflexivity. Qed.

Lemma evalCsv_ok b xVal bs w :
  well_shaped xVal 784 -> nrows xVal = bs -> 0 <= bs ->
  Z.of_nat (length (predVal (vm w))) = bs * 10 ->
  evalCsv env b xVal bs w
  = Ok tt (putFile env false (csvName b)
             (csvWriteAll (csvRowsOf bs (predVal (vm w)))) w).
Proof.
  intros Hx Hn Hbs Hlen. unfold evalCsv.
  assert (Ho : well_shaped (mkDense bs 10 (predVal (vm w))) 10).
  { repeat split; [exact Hbs | exact Hlen]. }
  assert (Hm : csvMatrix (Z.to_nat bs) 0 (mkDense bs 10 (predVal (vm w))) []
               = Some (csvRowsOf bs (predVal (vm w)))).
  { rewrite (csvMatrix_spec _ _ 0 [] Ho) by (cbn; lia).
    rewrite Z2Nat.id by lia. reflexivity. }
  assert (Hg : getVm w = Ok (vm w) w) by reflexivity.
  rewrite (bind_Ok _ _ _ _ _ Hg).
  rewrite (bind_Ok _ _ _ _ _ (orPanic_Some _ _ w (newDense_ok bs 10 _ Hlen))).
  cbn [nrows].
  unfold bind at 1. unfold openFile, putFile.
  destruct (denied env (csvName b)) eqn:D.
  - rewrite (bind_Ok _ _ _ _ _
               (reshapeOrFatal_ok _ _ _ _ _ _ (Reshape_same xVal bs 784 Hx Hn))).
    rewrite (bind_Ok _ _ _ _ _ (orPanic_Some _ _ _ Hm)).
    reflexivity.
  - rewrite (bind_Ok _ _ _ _ _
               (reshapeOrFatal_ok _ _ _ _ _ _ (Reshape_same xVal bs 784 Hx Hn))).
    rewrite (bind_Ok _ _ _ _ _ (orPanic_Some _ _ _ Hm)).
    unfold writeFile. cbn. rewrite lookup_insert_eq. cbn.
    rewrite insert_insert_eq. reflexivity.
Qed.

(** One evaluation batch of the classifier that goes through. *)
Lemma evalBatch_ok inputs targets bs b w :
  library_ok ->
  well_shaped inputs 784 -> well_shaped targets 10 ->
  nrows targets = nrows inputs ->
  0 < bs -> 0 <= b -> b * bs + bs <= nrows inputs ->
  exists m' w1 evs,
    RunAll (vm w) (batchRows inputs bs b) (batchRows targets bs b) = inr m' /\
    evalBatch env inputs targets bs b (b * bs) (b * bs + bs) w = Ok tt w1 /\
    trace w1 = trace w ++ evs /\
    evalBatchEvents env bs b (batchRows inputs bs b) (batchRows targets bs b)
      (predVal m') evs /\
    vm w1 = Reset m' /\
    (denied env (csvName b) = false ->
     fs w1 !! csvName b
     = Some (overwrite (default EmptyString (fs w !! csvName b))
               (csvWriteAll (csvRowsOf bs (predVal m'))))).
Proof.
  intros Hlib Hx Hy Hn Hbs Hb Hle.
  set (X := batchRows inputs bs b). set (Y := batchRows targets bs b).
  destruct (Hlib (vm w) X Y) as [m' [Hrun Hpred]].
  pose proof (batchRows_shape inputs 784 bs b Hx Hbs Hb Hle) as HX.
  pose proof (batchRows_shape targets 10 bs b Hy Hbs Hb ltac:(lia)) as HY.
  fold X in HX. fold Y in HY.
  assert (Hlen : Z.of_nat (length (predVal m')) = bs * 10).
  { rewrite Hpred. destruct HY as [_ [_ HlY]]. exact HlY. }
  set (wa := mkWorld m' (fs w) (trace w ++ [EvFeed X Y])).
  assert (HO : well_shaped (mkDense bs 10 (predVal m')) 10).
  { repeat split; [cbn; lia | exact Hlen]. }
  destruct (forRows_events image_step
              (fun j evs => exists e, evs = [e] /\ imageEvent env b j e)
              (evalImage env b X Y (mkDense bs 10 (predVal m')))
              (Z.to_nat bs) image_step_refl image_step_trans 0) with (w := wa)
    as [wb [evss [Eimg [Timg [[Vimg Fimg] Pimg]]]]].
  { intros j w0 Hj. apply evalImage_ok; try assumption; try reflexivity.
    cbn. lia. }
  exists m'. eexists. eexists. split; [exact Hrun|]. split; [|split; [|split; [|split]]].
  - unfold evalBatch.
    rewrite (bind_Ok _ _ _ _ _
               (sliceOrFatal_ok _ _ _ _ _ w (Slice_batch inputs 784 bs b Hx Hbs Hb Hle))).
    rewrite (bind_Ok _ _ _ _ _
               (sliceOrFatal_ok _ _ _ _ _ w
                  (Slice_batch targets 10 bs b Hy Hbs Hb ltac:(lia)))).
    rewrite (bind_Ok _ _ _ _ _
               (reshapeOrFatal_ok _ _ _ _ _ w
                  (Reshape_same (batchRows inputs bs b) bs 784
                     (batchRows_shape inputs 784 bs b Hx Hbs Hb Hle) eq_refl))).
    rewrite (batchRows_eta inputs 784 bs b (proj1 (proj2 Hx))).
    fold X. fold Y.
    rewrite (bind_Ok _ _ _ _ _ (runAllOrFatal_ok _ _ _ w m' Hrun)).
    fold wa.
    assert (Hg : getVm wa = Ok (vm wa) wa) by reflexivity.
    rewrite (bind_Ok _ _ _ _ _ Hg).
    rewrite (bind_Ok _ _ _ _ _ (orPanic_Some _ _ wa (newDense_ok bs 10 _ Hlen))).
    replace (nrows X) with bs by reflexivity.
    rewrite (bind_Ok _ _ _ _ _ Eimg).
    assert (Ecsv := evalCsv_ok b X bs wb HX eq_refl ltac:(lia)).
    rewrite Vimg in Ecsv. specialize (Ecsv Hlen).
    rewrite (bind_Ok _ _ _ _ _ Ecsv).
    reflexivity.
  - cbn. rewrite putFile_trace, Timg. subst wa. cbn.
    rewrite <- !app_assoc. reflexivity.
  - exists (concat evss). split; [reflexivity|].
    rewrite <- (Z2Nat.id bs) at 1 by lia.
    apply concat_singletons. exact Pimg.
  - cbn. rewrite putFile_vm, Vimg. reflexivity.
  - intros D. cbn. unfold putFile. rewrite D. cbn.
    rewrite lookup_insert_eq. rewrite Fimg. reflexivity.
Qed.

(** *** The autoencoder *)




(** *** Feeds of a trace *)

Lemma feeds_app a b : feeds (a ++ b) = feeds a ++ feeds b.
Proof. apply omap_app. Qed.



Lemma feeds_epochs (FB : list (Dense * Dense)) (l : list Z) (evss : list (list event)) :
  Forall2 (fun _ evs => feeds evs = FB) l evss ->
  feeds (concat evss) = concat (replicate (length l) FB).
Proof.
  induction 1 as [|b evs l evss H _ IH]; [reflexivity|].
  cbn. rewrite feeds_app, H, IH. reflexivity.
Qed.

Lemma quot_fits N bs :
  0 <= N -> 0 < bs ->
  Z.quot N bs = N / bs /\ 0 <= N / bs /\ N / bs * bs <= N.
Proof.
  intros HN Hbs. split; [apply Z.quot_div_nonneg; lia|].
  split; [apply Z.div_pos; lia|].
  pose proof (Z.mul_div_le N bs Hbs). lia.
Qed.








(** *** Failures *)

Lemma trainBatch_run i inputs targets bs b start end_ w :
  (trainBatchFails inputs targets bs start end_ (vm w) /\
   exists line,
     trainBatch i inputs targets bs b start end_ w = Exit 1 (fatalWorld w line))
  \/ (~ trainBatchFails inputs targets bs start end_ (vm w) /\
      exists w1, trainBatch i inputs targets bs b start end_ w = Ok tt w1).
Proof.
  unfold trainBatchFails, trainBatch, sliceOrFatal, reshapeOrFatal,
    runAllOrFatal, bind, ret, logFatal, fatalWorld.
  destruct (Slice inputs start end_) as [e|xVal]; cbv beta iota.
  { left. split; [exact I|]. eexists. reflexivity. }
  destruct (Slice targets start end_) as [e|yVal]; cbv beta iota.
  { left. split; [exact I|]. eexists. reflexivity. }
  destruct (Reshape xVal bs 784) as [e|xVal']; cbv beta iota.
  { left. split; [exact I|]. eexists. reflexivity. }
  destruct (RunAll (vm w) xVal' yVal) as [e|m'] eqn:R; cbv beta iota.
  - left. split; [exact I|]. eexists. reflexivity.
  - right. split; [tauto|]. eexists. reflexivity.
Qed.

Lemma aeTrainBatch_run i inputs bs b start end_ w :
  (aeTrainBatchFails inputs bs start end_ (vm w) /\
   exists line,
     aeTrainBatch i inputs bs b start end_ w = Exit 1 (fatalWorld w line))
  \/ (~ aeTrainBatchFails inputs bs start end_ (vm w) /\
      exists w1, aeTrainBatch i inputs bs b start end_ w = Ok tt w1).
Proof.
  unfold aeTrainBatchFails, aeTrainBatch, sliceOrFatal, reshapeOrFatal,
    runAllOrFatal, bind, ret, logFatal, fatalWorld.
  destruct (Slice inputs start end_) as [e|xVal]; cbv beta iota.
  { left. split; [exact I|]. eexists. reflexivity. }
  destruct (Reshape xVal bs 784) as [e|xVal']; cbv beta iota.
  { left. split; [exact I|]. eexists. reflexivity. }
  destruct (RunAll (vm w) xVal' xVal') as [e|m'] eqn:R; cbv beta iota.
  - left. split; [exact I|]. eexists. reflexivity.
  - right. split; [tauto|]. eexists. reflexivity.
Qed.

(** An exit of a loop is the exit of one run of its body. *)
Lemma forBatches_exit body numExamples bs n : forall b w code w',
  forBatches n b numExamples bs body w = Exit code w' ->
  exists b' start end_ w0, body b' start end_ w0 = Exit code w'.
Proof.
  induction n as [|n IH]; intros b w code w' E; [discriminate E|].
  cbn [forBatches] in E.
  destruct (b * bs >=? numExamples); [discriminate E|].
  unfold bind in E.
  destruct (body b (b * bs) _ w) as [[] w1|c1 w1] eqn:Eb.
  - eapply IH. exact E.
  - injection E as -> ->. eauto.
Qed.

Lemma forEpochs_exit body n : forall i w code w',
  forEpochs n i body w = Exit code w' ->
  exists i' w0, body i' w0 = Exit code w'.
Proof.
  induction n as [|n IH]; intros i w code w' E; [discriminate E|].
  cbn [forEpochs] in E. unfold bind in E.
  destruct (body i w) as [[] w1|c1 w1] eqn:Eb.
  - eapply IH. exact E.
  - injection E as -> ->. eauto.
Qed.

(** *** The full batches cover a prefix of the data, in order *)





End Runs.

(** ** Open failures do not change the course of a run *)

Section Sim.

Context {G : Gorgonia}.
Variable env : Env.
Variable base : gmap string string.

Local Abbreviation sim := (simM env base).

Lemma sim_ret {A} (a : A) : sim (ret a) (ret a).
Proof. intros w1 w2 H. split; [reflexivity | exact H]. Qed.

Lemma sim_bind {A B} (c1 c2 : M A) (k1 k2 : A -> M B) :
  sim c1 c2 -> (forall a, sim (k1 a) (k2 a)) -> sim (bind c1 k1) (bind c2 k2).
Proof.
  intros Hc Hk w1 w2 H. specialize (Hc w1 w2 H). unfold bind, simR in *.
  destruct (c1 w1) as [a1 w1'|x1 w1']; destruct (c2 w2) as [a2 w2'|x2 w2'];
    try contradiction.
  - destruct Hc as [<- H']. apply Hk. exact H'.
  - exact Hc.
Qed.

Lemma sameObs_emit e w1 w2 :
  sameObs env base w1 w2 ->
  sameObs env base (mkWorld (vm w1) (fs w1) (trace w1 ++ [e]))
    (mkWorld (vm w2) (fs w2) (trace w2 ++ [e])).
Proof.
  intros [V [T F]]. split; [exact V|]. split; [|exact F].
  cbn. rewrite !map_app, T. reflexivity.
Qed.

Lemma sim_emit e : sim (emit e) (emit e).
Proof. intros w1 w2 H. split; [reflexivity | apply sameObs_emit, H]. Qed.

Lemma sim_logFatal {A} line : sim (@logFatal G A line) (logFatal line).
Proof. intros w1 w2 H. split; [reflexivity | apply sameObs_emit, H]. Qed.

Lemma sim_orPanic {A} (o : option A) : sim (orPanic o) (orPanic o).
Proof.
  destruct o; [apply sim_ret|]. intros w1 w2 H. split; [reflexivity | exact H].
Qed.

Lemma sim_getVm : sim getVm getVm.
Proof. intros w1 w2 H. split; [apply H | exact H]. Qed.

Lemma sim_slice t s e line : sim (sliceOrFatal t s e line) (sliceOrFatal t s e line).
Proof. unfold sliceOrFatal. destruct (Slice t s e); [apply sim_logFatal | apply sim_ret]. Qed.

Lemma sim_reshape t r c line :
  sim (reshapeOrFatal t r c line) (reshapeOrFatal t r c line).
Proof.
  unfold reshapeOrFatal. destruct (Reshape t r c); [apply sim_logFatal | apply sim_ret].
Qed.

Lemma sim_runAll x y line : sim (runAllOrFatal x y line) (runAllOrFatal x y line).
Proof.
  intros w1 w2 H. unfold runAllOrFatal. pose proof H as [V [T F]]. rewrite <- V.
  destruct (RunAll (vm w1) x y) as [e|m'].
  - exact (sim_logFatal _ w1 w2 H).
  - split; [reflexivity|]. split; [reflexivity|]. split; [|exact F].
    cbn. rewrite !map_app, T. reflexivity.
Qed.

Lemma sim_vmReset : sim vmReset vmReset.
Proof.
  intros w1 w2 [V [T F]]. split; [reflexivity|].
  split; [cbn; rewrite V; reflexivity|]. split; assumption.
Qed.

Lemma sameObs_putFile trunc path content w1 w2 :
  sameObs env base w1 w2 ->
  sameObs env base (putFile env trunc path content w1)
    (putFile (allowAll env) trunc path content w2).
Proof.
  intros [V [T F]]. unfold putFile. cbn [allowAll denied].
  destruct (denied env path) eqn:D; cbn.
  - split; [exact V|]. split; [|exact F]. cbn. rewrite !map_app, T. reflexivity.
  - split; [exact V|]. split; [cbn; rewrite !map_app, T; reflexivity|].
    intros p Hp. cbn. rewrite lookup_insert_ne; [apply F, Hp|].
    intros ->. congruence.
Qed.

Lemma sim_open_write trunc path content :
  sim (f <- openFile env path trunc ;; writeFile f path content)
    (f <- openFile (allowAll env) path trunc ;; writeFile f path content).
Proof.
  intros w1 w2 H. rewrite !open_write. split; [reflexivity|].
  apply sameObs_putFile, H.
Qed.

Lemma sim_forRows (body1 body2 : Z -> M unit) n :
  (forall j, sim (body1 j) (body2 j)) ->
  forall j0, sim (forRows n j0 body1) (forRows n j0 body2).
Proof.
  intros Hb. induction n as [|n IH]; intros j0; [apply sim_ret|].
  cbn [forRows]. apply sim_bind; [apply Hb | intros _; apply IH].
Qed.

Lemma sim_forBatches (body1 body2 : Z -> Z -> Z -> M unit) numExamples bs n :
  (forall b s e, sim (body1 b s e) (body2 b s e)) ->
  forall b0, sim (forBatches n b0 numExamples bs body1)
                 (forBatches n b0 numExamples bs body2).
Proof.
  intros Hb. induction n as [|n IH]; intros b0; [apply sim_ret|].
  cbn [forBatches]. destruct (b0 * bs >=? numExamples); [apply sim_ret|].
  apply sim_bind; [apply Hb | intros _; apply IH].
Qed.

Lemma sim_evalImage b xVal yVal yOutput j :
  sim (evalImage env b xVal yVal yOutput j)
    (evalImage (allowAll env) b xVal yVal yOutput j).
Proof.
  unfold evalImage.
  apply sim_bind; [apply sim_orPanic | intros row].
  apply sim_bind; [apply sim_orPanic | intros yRow].
  apply sim_bind; [apply sim_orPanic | intros rowLabel].
  apply sim_bind; [apply sim_orPanic | intros predRow].
  apply sim_bind; [apply sim_orPanic | intros rowGuess].
  apply sim_open_write.
Qed.

Lemma sim_aeImage b t suffix j :
  sim (aeImage env b t suffix j) (aeImage (allowAll env) b t suffix j).
Proof.
  unfold aeImage.
  apply sim_bind; [apply sim_orPanic | intros row].
  apply sim_open_write.
Qed.

(** The CSV step: the handle (or nil) is kept across the reshape and used
    after it, and neither the failed open nor the write through nil ends
    the run. *)
Lemma sim_csv_file path xVal bs yOutput :
  sim (file <- openFile env path false ;;
       _ <- reshapeOrFatal xVal bs 784 "Unable to create csv" ;;
       matrixToWrite <- orPanic (csvMatrix (Z.to_nat (nrows yOutput)) 0 yOutput []) ;;
       writeFile file path (csvWriteAll matrixToWrite))
    (file <- openFile (allowAll env) path false ;;
     _ <- reshapeOrFatal xVal bs 784 "Unable to create csv" ;;
     matrixToWrite <- orPanic (csvMatrix (Z.to_nat (nrows yOutput)) 0 yOutput []) ;;
     writeFile file path (csvWriteAll matrixToWrite)).
Proof.
  intros w1 w2 [V [T F]].
  unfold bind, openFile, reshapeOrFatal, orPanic, writeFile, ret, logFatal, panic.
  cbn [allowAll denied].
  destruct (denied env path) eqn:D;
    destruct (Reshape xVal bs 784) as [e|x'];
    try destruct (csvMatrix _ 0 yOutput []) as [mtx|];
    cbn; (split; [reflexivity|]); (split; [exact V|]);
    (split; [cbn; rewrite ?map_app, T; reflexivity|]);
    intros p Hp; cbn; try (apply F, Hp);
    rewrite ?lookup_insert_ne by (intros ->; congruence); apply F, Hp.
Qed.

Lemma sim_evalCsv b xVal bs :
  sim (evalCsv env b xVal bs) (evalCsv (allowAll env) b xVal bs).
Proof.
  unfold evalCsv.
  apply sim_bind; [apply sim_getVm | intros m].
  apply sim_bind; [apply sim_orPanic | intros yOutput].
  apply sim_csv_file.
Qed.

Lemma sim_evalBatch inputs targets bs b s e :
  sim (evalBatch env inputs targets bs b s e)
    (evalBatch (allowAll env) inputs targets bs b s e).
Proof.
  unfold evalBatch.
  apply sim_bind; [apply sim_slice | intros xVal].
  apply sim_bind; [apply sim_slice | intros yVal].
  apply sim_bind; [apply sim_reshape | intros xVal'].
  apply sim_bind; [apply sim_runAll | intros _].
  apply sim_bind; [apply sim_getVm | intros m].
  apply sim_bind; [apply sim_orPanic | intros yOutput].
  apply sim_bind; [apply sim_forRows; intros j; apply sim_evalImage | intros _].
  apply sim_bind; [apply sim_evalCsv | intros _].
  apply sim_vmReset.
Qed.

Lemma sim_aeEvalBatch inputs bs b s e :
  sim (aeEvalBatch env inputs bs b s e) (aeEvalBatch (allowAll env) inputs bs b s e).
Proof.
  unfold aeEvalBatch.
  apply sim_bind; [apply sim_slice | intros xVal].
  apply sim_bind; [apply sim_reshape | intros xVal'].
  apply sim_bind; [apply sim_runAll | intros _].
  apply sim_bind; [apply sim_forRows; intros j; apply sim_aeImage | intros _].
  apply sim_bind; [apply sim_getVm | intros m].
  apply sim_bind; [apply sim_orPanic | intros yOutput].
  apply sim_bind; [apply sim_forRows; intros j; apply sim_aeImage | intros _].
  apply sim_vmReset.
Qed.

Lemma simR_observe {A} (r1 r2 : result A) :
  simR env base r1 r2 ->
  observe r1 = observe r2 /\
  forall p, denied env p = true -> fs (final_world r1) !! p = base !! p.
Proof.
  unfold simR, observe.
  destruct r1 as [a1 w1|c1 w1]; destruct r2 as [a2 w2|c2 w2]; try contradiction;
    intros [E [V [T F]]]; cbn; (split; [|exact F]); congruence.
Qed.

End Sim.

Lemma sameObs_refl {G : Gorgonia} env (w : world) : sameObs env (fs w) w w.
Proof. split; [reflexivity|]. split; reflexivity. Qed.



(** ** The text of the CSV file *)

Section Csv.

Lemma app_String c s t : String c s +:+ t = String c (s +:+ t).
Proof. reflexivity. Qed.

Lemma app_Empty t : EmptyString +:+ t = t.
Proof. reflexivity. Qed.


Lemma string_app_assoc (a b c : string) : (a +:+ b) +:+ c = a +:+ (b +:+ c).
Proof.
  induction a as [|x a IH]; [reflexivity|].
  rewrite !app_String, IH. reflexivity.
Qed.











(** *** The text of a formatted value *)

Lemma is_digit_char c :
  is_digit c = true ->
  Ascii.eqb c "-" = false /\ Ascii.eqb c "." = false /\ not_numeric c = false.
Proof.
  destruct c as [[] [] [] [] [] [] [] []]; intros H; vm_compute in H;
    try discriminate H; vm_compute; auto.
Qed.



Lemma digit_is_digit d : 0 <= d < 10 -> is_digit (digit d) = true.
Proof.
  intros H.
  assert (E : d = 0 \/ d = 1 \/ d = 2 \/ d = 3 \/ d = 4 \/ d = 5 \/ d = 6
              \/ d = 7 \/ d = 8 \/ d = 9) by lia.
  repeat (destruct E as [->|E]; [reflexivity|]). subst d. reflexivity.
Qed.

Lemma utoa_aux_digits fuel : forall n acc,
  all_digits acc = true -> all_digits (utoa_aux fuel n acc) = true.
Proof.
  induction fuel as [|fuel IH]; intros n acc Hacc; [exact Hacc|].
  cbn [utoa_aux].
  assert (Hd : all_digits (String (digit (n mod 10)) acc) = true).
  { cbn [all_digits]. rewrite digit_is_digit by (apply Z.mod_pos_bound; lia).
    exact Hacc. }
  destruct (n / 10 =? 0); [exact Hd | apply IH, Hd].
Qed.

Lemma utoa_aux_cons fuel : forall n acc,
  exists c s, utoa_aux (S fuel) n acc = String c s.
Proof.
  induction fuel as [|fuel IH]; intros n acc.
  - cbn. destruct (n / 10 =? 0); eauto.
  - change (utoa_aux (S (S fuel)) n acc)
      with (let acc' := String (digit (n mod 10)) acc in
            if n / 10 =? 0 then acc' else utoa_aux (S fuel) (n / 10) acc').
    cbv zeta. destruct (n / 10 =? 0); [eauto | apply IH].
Qed.

Lemma utoa_digits n :
  exists c s, utoa n = String c s /\ is_digit c = true /\ all_digits s = true.
Proof.
  unfold utoa.
  destruct (utoa_aux_cons (Z.to_nat (Z.log2 n)) n EmptyString) as [c [s E]].
  pose proof (utoa_aux_digits (S (Z.to_nat (Z.log2 n))) n EmptyString eq_refl) as H.
  rewrite E in H |- *. cbn [all_digits] in H. apply andb_true_iff in H.
  exists c, s. tauto.
Qed.

Lemma frac6_digits f : String.length (frac6 f) = 6%nat /\ all_digits (frac6 f) = true.
Proof.
  split; [reflexivity|]. unfold frac6. cbn [all_digits].
  rewrite !digit_is_digit by (apply Z.mod_pos_bound; lia). reflexivity.
Qed.

Lemma six_decimal_unsigned_app s t : forall seen,
  all_digits s = true -> (seen = true \/ s <> EmptyString) ->
  String.length t = 6%nat -> all_digits t = true ->
  six_decimal_unsigned (s +:+ String "." t) seen = true.
Proof.
  induction s as [|c s IH]; intros seen Hs Hseen Hlen Ht.
  - rewrite app_Empty. cbn [six_decimal_unsigned].
    change (Ascii.eqb "." ".") with true. cbv iota.
    destruct Hseen as [->|Hne]; [|contradiction]. rewrite Hlen, Ht. reflexivity.
  - cbn [all_digits] in Hs. apply andb_true_iff in Hs. destruct Hs as [Hc Hs].
    rewrite app_String. cbn [six_decimal_unsigned].
    destruct (is_digit_char c Hc) as [_ [-> _]]. rewrite Hc.
    apply IH; auto.
Qed.

Lemma fixed6_six_decimal q :
  six_decimal_unsigned (fixed6 q) false = true /\
  exists c s, fixed6 q = String c s /\ is_digit c = true.
Proof.
  unfold fixed6. set (n := rne (q * 1000000)).
  destruct (utoa_digits (n / 1000000)) as [c [s [E [Hc Hs]]]].
  destruct (frac6_digits (n mod 1000000)) as [Hl Hd].
  split.
  - apply six_decimal_unsigned_app; try assumption.
    + rewrite E. cbn [all_digits]. rewrite Hc, Hs. reflexivity.
    + right. rewrite E. discriminate.
  - rewrite E, app_String. eauto.
Qed.











End Csv.



(** ** The value of a pixel *)

Section PixelValue.
Local Open Scope Q_scope.

Lemma rne_eq x y : x == y -> rne x = rne y.
Proof.
  intros E. apply Z.le_antisymm; apply rne_mono; rewrite E; apply Qle_refl.
Qed.

Lemma round64_eq x y : x == y -> round64 x == round64 y.
Proof.
  intros E. apply Qle_antisym; apply round64_mono; rewrite E; apply Qle_refl.
Qed.

Lemma Qtrunc_eq x y : x == y -> Qtrunc x = Qtrunc y.
Proof.
  intros E. apply Z.le_antisymm; apply Qtrunc_mono; rewrite E; apply Qle_refl.
Qed.

Lemma Qtrunc_Z (z : Z) : Qtrunc (inject_Z z) = z.
Proof.
  unfold Qtrunc. destruct (Qle_bool 0 (inject_Z z)).
  - apply Qfloor_Z.
  - apply Qceiling_Z.
Qed.

Lemma pow2_inject (k : Z) : (0 <= k)%Z -> inject_Z (2 ^ k) == Qpower 2 k.
Proof.
  intros Hk. rewrite Zpower_Qpower by exact Hk. reflexivity.
Qed.

(** An integer below 2^53 in magnitude is a binary64 number. *)
Lemma round64_Z (n : Z) : (Z.abs n < 2 ^ 53)%Z -> round64 (inject_Z n) == inject_Z n.
Proof.
  intros Hn. unfold round64.
  destruct (Qeq_bool (inject_Z n) 0) eqn:E0.
  { qcompare_facts. rewrite E0. reflexivity. }
  qcompare_facts.
  assert (Hmag : round_mag (inject_Z n) == Qabs (inject_Z n)).
  { unfold round_mag, ulp_exp.
    destruct (binade_spec (inject_Z n) E0) as [Hlo Hhi].
    set (b := binade (inject_Z n)) in *.
    assert (Habs : Qabs (inject_Z n) == inject_Z (Z.abs n)).
    { unfold Qabs, inject_Z. cbn. reflexivity. }
    assert (Hb0 : (0 <= b)%Z).
    { destruct (Z_lt_le_dec b 0) as [Hneg|]; [|assumption]. exfalso.
      assert (Qpower 2 (b + 1) <= Qpower 2 0) by (apply pow2_le; lia).
      change (Qpower 2 0) with 1 in H.
      assert (1 <= inject_Z (Z.abs n)).
      { change 1 with (inject_Z 1). rewrite <- Zle_Qle.
        assert (n <> 0%Z).
        { intros ->. apply E0. reflexivity. }
        lia. }
      rewrite Habs in Hhi. lra. }
    assert (Hb52 : (b <= 52)%Z).
    { destruct (Z_lt_le_dec 52 b) as [Hbig|]; [|lia]. exfalso.
      assert (Qpower 2 53 <= Qpower 2 b) by (apply pow2_le; lia).
      assert (inject_Z (Z.abs n) < Qpower 2 53).
      { rewrite <- pow2_inject by lia. rewrite <- Zlt_Qlt. exact Hn. }
      rewrite Habs in Hlo. lra. }
    rewrite Z.max_l by lia.
    assert (Hu : Qpower 2 (b - 52) * Qpower 2 (52 - b) == 1).
    { rewrite <- pow2_add. replace (b - 52 + (52 - b))%Z with 0%Z by lia. reflexivity. }
    pose proof (pow2_pos (b - 52)) as Hpos.
    assert (Hdiv : Qabs (inject_Z n) / Qpower 2 (b - 52)
                   == inject_Z (Z.abs n * 2 ^ (52 - b))).
    { rewrite inject_Z_mult, pow2_inject by lia. rewrite Habs.
      assert (Hinv : / Qpower 2 (b - 52) == Qpower 2 (52 - b)).
      { apply (Qmult_inj_l _ _ (Qpower 2 (b - 52))); [lra|].
        rewrite Qmult_inv_r by lra. rewrite Hu. reflexivity. }
      unfold Qdiv. rewrite Hinv. reflexivity. }
    rewrite (rne_eq _ _ Hdiv), rne_Z.
    rewrite inject_Z_mult, pow2_inject by lia. rewrite Habs.
    rewrite <- Qmult_assoc. rewrite (Qmult_comm (Qpower 2 (52 - b))), Hu. ring. }
  unfold Qneg_bool. destruct (Qle_bool 0 (inject_Z n)) eqn:Es; cbn [negb]; qcompare_facts.
  - rewrite Hmag. apply Qabs_pos. exact Es.
  - rewrite Hmag. rewrite Qabs_neg by lra. ring.
Qed.

Lemma rpw_range px :
  is_nan px = false -> (4 <= reversePixelWeight px <= 254)%Z.
Proof.
  intros Hn. destruct (clamp_finite px Hn) as [c [Hc Hr]].
  rewrite (rpw_clamped px c Hc Hr).
  pose proof (pixel_byte c Hr) as [_ Hb]. lia.
Qed.

Lemma scaled_range c :
  c01 <= c <= c99 -> (2 <= Qfloor (255 * c) /\ Qceiling (255 * c) <= 253)%Z.
Proof.
  intros [H1 H2]. pose proof c01_c99_exact as [Ha [_ Hb]].
  split.
  - rewrite <- (Qfloor_Z 2). apply Qfloor_resp_le.
    change (inject_Z 2) with 2. lra.
  - rewrite <- (Qceiling_Z 253). apply Qceiling_resp_le.
    change (inject_Z 253) with 253. lra.
Qed.

(** The value converted to a byte lies between the integers around
    [255 * c - 255]. *)
Lemma shifted_between c :
  c01 <= c <= c99 ->
  (Qfloor (255 * c) - 255 <= Qtrunc (round64 (round64 (255 * c) - 255))
   <= Qceiling (255 * c) - 255)%Z.
Proof.
  intros Hc. destruct (scaled_range c Hc) as [Hf Hg].
  set (f := Qfloor (255 * c)) in *. set (g := Qceiling (255 * c)) in *.
  assert (Hfc : inject_Z f <= 255 * c) by apply Qfloor_le.
  assert (Hcg : 255 * c <= inject_Z g) by apply Qle_ceiling.
  assert (Hfg : (f <= g)%Z).
  { rewrite Zle_Qle. lra. }
  assert (R1 : inject_Z f <= round64 (255 * c) <= inject_Z g).
  { split.
    - rewrite <- (round64_Z f) by lia. apply round64_mono. exact Hfc.
    - rewrite <- (round64_Z g) by lia. apply round64_mono. exact Hcg. }
  assert (R2 : inject_Z (f - 255) <= round64 (round64 (255 * c) - 255)
               <= inject_Z (g - 255)).
  { split.
    - rewrite <- (round64_Z (f - 255)) by lia. apply round64_mono.
      unfold Z.sub. rewrite inject_Z_plus, inject_Z_opp.
      change (inject_Z 255) with 255. lra.
    - rewrite <- (round64_Z (g - 255)) by lia. apply round64_mono.
      unfold Z.sub. rewrite inject_Z_plus, inject_Z_opp.
      change (inject_Z 255) with 255. lra. }
  split.
  - rewrite <- (Qtrunc_Z (f - 255)). apply Qtrunc_mono. apply R2.
  - rewrite <- (Qtrunc_Z (g - 255)). apply Qtrunc_mono. apply R2.
Qed.

End PixelValue.


(** ** The arg-max loop on short rows and on NaN *)

Section ArgmaxEdges.

Lemma argmax_loop_None row n : forall k st,
  (0 < n)%nat -> (length row < k + n)%nat -> argmax_loop n k row st = None.
Proof.
  induction n as [|n IH]; intros k st Hn H; [lia|].
  cbn [argmax_loop]. unfold argmax_step.
  destruct (row !! k) as [x|] eqn:E; [|reflexivity].
  apply lookup_lt_Some in E.
  destruct (Nat.eqb k 0); [|destruct (gt x (snd st))]; apply IH; lia.
Qed.

(** The label is the index of an entry seen by the loop, or the one the
    loop started with. *)
Lemma argmax_loop_index row n : forall k st st',
  argmax_loop n k row st = Some st' ->
  (k <= fst st' < k + n)%nat /\ row !! fst st' = Some (snd st') \/ st' = st.
Proof.
  induction n as [|n IH]; intros k st st' H.
  - right. cbn in H. congruence.
  - cbn [argmax_loop] in H. unfold argmax_step in H.
    destruct (row !! k) as [x|] eqn:E; [|discriminate H].
    destruct (Nat.eqb_spec k 0) as [K|K].
    + apply IH in H. destruct H as [[H1 H2]| ->].
      * left. split; [lia|exact H2].
      * left. cbn [fst snd]. subst k. split; [lia|exact E].
    + destruct (gt x (snd st)).
      * apply IH in H. destruct H as [[H1 H2]| ->].
        -- left. split; [lia|exact H2].
        -- left. cbn [fst snd]. split; [lia|exact E].
      * apply IH in H. destruct H as [[H1 H2]| ->].
        -- left. split; [lia|exact H2].
        -- right. reflexivity.
Qed.

Lemma argmax10_index row l :
  argmax10 row = Some l -> (l < 10)%nat /\ is_Some (row !! l).
Proof.
  intros H. unfold argmax10 in H.
  destruct (argmax_loop 10 0 row (0%nat, Finite 0)) as [st'|] eqn:E; [|discriminate H].
  injection H as <-.
  assert (Hlen : (10 <= length row)%nat).
  { destruct (Nat.lt_ge_cases (length row) 10) as [Hlt|]; [|assumption].
    rewrite argmax_loop_None in E by lia. discriminate E. }
  apply argmax_loop_index in E. destruct E as [[H1 H2]| ->].
  - split; [lia|]. rewrite H2. eauto.
  - cbn [fst]. split; [lia|]. apply lookup_lt_is_Some_2. lia.
Qed.

(** The loop reads the entries [k], ..., [k + n - 1] only. *)
Lemma argmax_loop_ext row row' n : forall k st,
  (forall j, (k <= j < k + n)%nat -> row !! j = row' !! j) ->
  argmax_loop n k row st = argmax_loop n k row' st.
Proof.
  induction n as [|n IH]; intros k st H; [reflexivity|].
  cbn [argmax_loop]. unfold argmax_step. rewrite <- (H k) by lia.
  destruct (row !! k) as [x|]; [|reflexivity].
  destruct (Nat.eqb k 0); [|destruct (gt x (snd st))]; apply IH;
    intros j Hj; apply H; lia.
Qed.

Lemma gt_NaN_r x : gt x NaN = false.
Proof. destruct x; reflexivity. Qed.

Lemma gt_NaN_l x : gt NaN x = false.
Proof. destruct x; reflexivity. Qed.

Lemma gt_NInf_l x : gt NInf x = false.
Proof. destruct x; reflexivity. Qed.

(** From the second entry on, a state that holds NaN is never replaced. *)
Lemma argmax_loop_stuck row n : forall k i,
  (0 < k)%nat -> (k + n <= length row)%nat ->
  argmax_loop n k row (i, NaN) = Some (i, NaN).
Proof.
  induction n as [|n IH]; intros k i Hk H; [reflexivity|].
  cbn [argmax_loop]. unfold argmax_step.
  destruct (lookup_lt_is_Some_2 row k ltac:(lia)) as [x E]. rewrite E.
  destruct (Nat.eqb_spec k 0) as [K|K]; [lia|].
  cbn [snd]. rewrite gt_NaN_r. apply IH; lia.
Qed.

(** After the first entry, a NaN and a negative infinity are passed over
    alike. *)
Lemma argmax_loop_nanAsNInf row n : forall k st,
  (0 < k)%nat ->
  argmax_loop n k (nanAsNInf row) st = argmax_loop n k row st.
Proof.
  induction n as [|n IH]; intros k st Hk; [reflexivity|].
  cbn [argmax_loop]. unfold argmax_step.
  destruct row as [|x0 rest]; [reflexivity|].
  destruct k as [|k]; [lia|].
  cbn [nanAsNInf]. rewrite !lookup_cons. cbn [Nat.eqb].
  rewrite list_lookup_fmap.
  destruct (rest !! k) as [y|]; [|reflexivity]. cbn [fmap option_fmap option_map].
  destruct y; cbn [is_nan]; try (destruct (gt _ (snd st)); apply IH; lia).
  rewrite gt_NaN_l, gt_NInf_l. apply IH; lia.
Qed.

(** A value that replaces the state is not NaN. *)
Lemma argmax_loop_not_nan row n : forall k st st',
  (0 < k)%nat -> argmax_loop n k row st = Some st' ->
  st' = st \/
  (is_nan (snd st') = false /\ row !! fst st' = Some (snd st') /\ (0 < fst st')%nat).
Proof.
  induction n as [|n IH]; intros k st st' Hk H.
  - left. cbn in H. congruence.
  - cbn [argmax_loop] in H. unfold argmax_step in H.
    destruct (row !! k) as [x|] eqn:E; [|discriminate H].
    destruct (Nat.eqb_spec k 0) as [K|K]; [lia|].
    destruct (gt x (snd st)) eqn:Eg.
    + apply IH in H; [|lia]. destruct H as [-> |H]; [|right; exact H].
      right. cbn [fst snd]. split; [|split; [exact E|lia]].
      destruct x; try reflexivity. rewrite gt_NaN_l in Eg. discriminate Eg.
    + apply IH in H; [|lia]. exact H.
Qed.

(** The first pass of the loop takes the first entry. *)
Lemma argmax10_first row :
  argmax10 row
  = match row !! 0%nat with
    | None => None
    | Some x0 => fst <$> argmax_loop 9 1 row (0%nat, x0)
    end.
Proof. unfold argmax10. destruct (row !! 0%nat) eqn:E; cbn [argmax_loop]; unfold argmax_step; rewrite E; reflexivity. Qed.

End ArgmaxEdges.

(** ** Decimal numbers read back *)

Section Decimal.

Lemma digit_val_digit d : 0 <= d < 10 -> digit_val (digit d) = d.
Proof.
  intros H. unfold digit_val, digit.
  rewrite nat_ascii_embedding by lia. lia.
Qed.

Lemma digits_val_app s t : forall acc,
  digits_val acc (s +:+ t) = digits_val (digits_val acc s) t.
Proof.
  induction s as [|c s IH]; intros acc.
  - rewrite app_Empty. reflexivity.
  - rewrite app_String. cbn [digits_val]. apply IH.
Qed.

Lemma utoa_aux_acc fuel : forall n acc,
  utoa_aux fuel n acc = utoa_aux fuel n "" +:+ acc.
Proof.
  induction fuel as [|fuel IH]; intros n acc.
  - cbn [utoa_aux]. rewrite app_Empty. reflexivity.
  - cbn [utoa_aux]. destruct (n / 10 =? 0).
    + rewrite app_String, app_Empty. reflexivity.
    + rewrite (IH _ (String _ acc)), (IH _ (String _ "")).
      rewrite string_app_assoc, app_String, app_Empty. reflexivity.
Qed.

Lemma utoa_aux_val fuel : forall n,
  0 <= n < 2 ^ Z.of_nat fuel -> digits_val 0 (utoa_aux fuel n "") = n.
Proof.
  induction fuel as [|fuel IH]; intros n Hn.
  - cbn in Hn. assert (n = 0) by lia. subst n. reflexivity.
  - cbn [utoa_aux].
    assert (Hd : 0 <= n mod 10 < 10) by (apply Z.mod_pos_bound; lia).
    pose proof (Z.div_mod n 10 ltac:(lia)) as Hdm.
    destruct (Z.eqb_spec (n / 10) 0) as [E|E].
    + cbn [digits_val]. rewrite digit_val_digit by exact Hd. lia.
    + rewrite utoa_aux_acc, digits_val_app. cbn [digits_val].
      rewrite digit_val_digit by exact Hd.
      rewrite IH; [lia|].
      rewrite Nat2Z.inj_succ, Z.pow_succ_r in Hn by lia.
      split; [apply Z.div_pos; lia|].
      apply Z.div_lt_upper_bound; lia.
Qed.

Lemma utoa_val n : 0 <= n -> digits_val 0 (utoa n) = n.
Proof.
  intros Hn. unfold utoa. apply utoa_aux_val.
  rewrite Nat2Z.inj_succ, Z2Nat.id by apply Z.log2_nonneg.
  destruct (Z.eq_dec n 0) as [-> |Hz]; [cbn; lia|].
  split; [exact Hn|]. apply Z.log2_spec. lia.
Qed.

Lemma utoa_not_minus n : exists c s, utoa n = String c s /\ Ascii.eqb c "-" = false.
Proof.
  destruct (utoa_digits n) as [c [s [E [Hc _]]]].
  exists c, s. split; [exact E|]. apply is_digit_char. exact Hc.
Qed.

Lemma atoi_utoa n : 0 <= n -> atoi (utoa n) = n.
Proof.
  intros Hn. destruct (utoa_not_minus n) as [c [s [E Hc]]].
  pose proof (utoa_val n Hn) as V. rewrite E in *.
  unfold atoi. destruct c as [[] [] [] [] [] [] [] []]; try exact V.
  discriminate Hc.
Qed.

Lemma atoi_itoa z : atoi (itoa z) = z.
Proof.
  unfold itoa. destruct (Z.ltb_spec z 0) as [H|H].
  - cbn [atoi]. rewrite utoa_val by lia. lia.
  - apply atoi_utoa. exact H.
Qed.

Lemma utoa_all_digits n : all_digits (utoa n) = true.
Proof.
  destruct (utoa_digits n) as [c [s [E [Hc Hs]]]]. rewrite E. cbn [all_digits].
  rewrite Hc, Hs. reflexivity.
Qed.

(** A run of digits that ends at a character that is not a digit is
    determined by the string. *)
Lemma digits_prefix s : forall s' c r c' r',
  all_digits s = true -> all_digits s' = true ->
  is_digit c = false -> is_digit c' = false ->
  s +:+ String c r = s' +:+ String c' r' ->
  s = s' /\ String c r = String c' r'.
Proof.
  induction s as [|a s IH]; intros s' c r c' r' Hs Hs' Hc Hc' E.
  - destruct s' as [|a' s'].
    + rewrite !app_Empty in E. split; [reflexivity|exact E].
    + rewrite app_Empty, app_String in E. injection E as E1 E2. subst a'.
      cbn [all_digits] in Hs'. rewrite Hc in Hs'. discriminate Hs'.
  - destruct s' as [|a' s'].
    + rewrite app_Empty, app_String in E. injection E as E1 E2. subst a.
      cbn [all_digits] in Hs. rewrite Hc' in Hs. discriminate Hs.
    + rewrite !app_String in E. injection E as E1 E2. subst a'.
      cbn [all_digits] in Hs, Hs'.
      apply andb_true_iff in Hs. apply andb_true_iff in Hs'.
      destruct (IH s' c r c' r' (proj2 Hs) (proj2 Hs') Hc Hc' E2) as [-> E3].
      split; [reflexivity|exact E3].
Qed.

Lemma string_app_inv_head (p s t : string) : p +:+ s = p +:+ t -> s = t.
Proof.
  induction p as [|c p IH]; intros E.
  - rewrite !app_Empty in E. exact E.
  - rewrite !app_String in E. injection E as E. apply IH. exact E.
Qed.

(** A number printed with [%d] and followed by a character that is not a
    digit can be read off the string. *)
Lemma utoa_token n n' c r c' r' :
  0 <= n -> 0 <= n' -> is_digit c = false -> is_digit c' = false ->
  utoa n +:+ String c r = utoa n' +:+ String c' r' ->
  n = n' /\ String c r = String c' r'.
Proof.
  intros Hn Hn' Hc Hc' E.
  destruct (digits_prefix _ _ _ _ _ _ (utoa_all_digits n) (utoa_all_digits n') Hc Hc' E)
    as [E1 E2].
  split; [|exact E2].
  rewrite <- (utoa_val n Hn), <- (utoa_val n' Hn'), E1. reflexivity.
Qed.

Lemma itoa_nonneg n : 0 <= n -> itoa n = utoa n.
Proof.
  intros H. unfold itoa. destruct (Z.ltb_spec n 0); [lia|reflexivity].
Qed.

End Decimal.

(** ** The values and the width of the CSV fields *)

Section Fields.

Local Open Scope Q_scope.

Lemma rne_error x : Qabs (inject_Z (rne x) - x) <= 1 # 2.
Proof.
  unfold rne.
  pose proof (Qfloor_le x) as Hlo. pose proof (Qlt_floor x) as Hhi.
  rewrite inject_Z_plus in Hhi. change (inject_Z 1) with 1 in Hhi.
  apply Qabs_Qle_condition.
  destruct (Qcompare (x - inject_Z (Qfloor x)) (1 # 2)) eqn:E; qcompare_facts.
  - destruct (Z.even (Qfloor x)).
    + split; lra.
    + rewrite inject_Z_plus. change (inject_Z 1) with 1. split; lra.
  - split; lra.
  - rewrite inject_Z_plus. change (inject_Z 1) with 1. split; lra.
Qed.

Lemma rne_nonneg x : 0 <= x -> (0 <= rne x)%Z.
Proof.
  intros H. rewrite <- (rne_Z 0). apply rne_mono. exact H.
Qed.

Lemma frac6_val a r :
  (0 <= r < 1000000)%Z -> digits_val a (frac6 r) = (a * 1000000 + r)%Z.
Proof.
  intros Hr. unfold frac6. cbn [digits_val].
  rewrite !digit_val_digit by (apply Z.mod_pos_bound; lia).
  Z.div_mod_to_equations. lia.
Qed.

Lemma read_fixed_point s t : forall acc,
  all_digits s = true ->
  read_fixed acc (s +:+ String "." t)
  = inject_Z (digits_val (digits_val acc s) t)
    / inject_Z (10 ^ Z.of_nat (String.length t)).
Proof.
  induction s as [|c s IH]; intros acc Hs.
  - rewrite app_Empty. reflexivity.
  - rewrite app_String. cbn [all_digits] in Hs. apply andb_true_iff in Hs.
    destruct Hs as [Hc Hs]. cbn [read_fixed digits_val].
    destruct (is_digit_char c Hc) as [_ [Hdot _]]. rewrite Hdot.
    apply IH. exact Hs.
Qed.

Lemma read_fixed6 q :
  0 <= q -> read_fixed 0 (fixed6 q) == inject_Z (rne (q * 1000000)) / 1000000.
Proof.
  intros Hq. unfold fixed6.
  set (n := rne (q * 1000000)).
  assert (Hn : (0 <= n)%Z) by (apply rne_nonneg; lra).
  rewrite read_fixed_point by apply utoa_all_digits.
  rewrite utoa_val by (apply Z.div_pos; lia).
  rewrite frac6_val by (apply Z.mod_pos_bound; lia).
  destruct (frac6_digits (n mod 1000000)) as [-> _].
  replace (n / 1000000 * 1000000 + n mod 1000000)%Z with n
    by (pose proof (Z.div_mod n 1000000 ltac:(lia)); lia).
  reflexivity.
Qed.

Lemma fixed6_error q :
  0 <= q -> Qabs (read_fixed 0 (fixed6 q) - q) <= 1 # 2000000.
Proof.
  intros Hq. rewrite read_fixed6 by exact Hq.
  pose proof (rne_error (q * 1000000)) as H.
  apply Qabs_Qle_condition in H. apply Qabs_Qle_condition.
  set (n := inject_Z (rne (q * 1000000))) in *.
  unfold Qdiv. change (/ 1000000) with (1 # 1000000). split; lra.
Qed.

Lemma read_decimal_unsigned q :
  read_decimal (fixed6 q) = read_fixed 0 (fixed6 q).
Proof.
  destruct (fixed6_six_decimal q) as [_ [c [s [E Hc]]]]. rewrite E.
  destruct (is_digit_char c Hc) as [Hm _].
  unfold read_decimal. destruct c as [[] [] [] [] [] [] [] []]; try reflexivity.
  discriminate Hm.
Qed.

(** The decimal value of a printed number is within half a unit of the
    sixth decimal place of the number. *)
Lemma FormatFloat_error x :
  is_nan x = false -> is_inf x = false ->
  Qabs (read_decimal (FormatFloat_f6 x) - val x) <= 1 # 2000000.
Proof.
  intros Hn Hi. destruct x as [| | | |q]; try discriminate Hn; try discriminate Hi.
  - apply Qle_bool_imp_le. reflexivity.
  - cbn [FormatFloat_f6 val]. unfold Qneg_bool.
    destruct (Qle_bool 0 q) eqn:E; cbn [negb]; qcompare_facts.
    + rewrite read_decimal_unsigned. apply fixed6_error. exact E.
    + cbn [read_decimal].
      pose proof (fixed6_error (Qabs q) (Qabs_nonneg q)) as H.
      assert (Ha : Qabs q == - q) by (apply Qabs_neg; lra).
      apply Qabs_Qle_condition in H. apply Qabs_Qle_condition.
      split; lra.
Qed.




End Fields.

Section Width.








End Width.

(** ** Frames of the loops *)

Section Frames.

Context {G : Gorgonia}.
Variable env : Env.

Section Generic.

Variable R : world -> world -> Prop.
Hypothesis R_refl : forall w, R w w.
Hypothesis R_trans : forall w1 w2 w3, R w1 w2 -> R w2 w3 -> R w1 w3.

Lemma keeps_ret {A} (a : A) : keeps R (ret a).
Proof. intros w. apply R_refl. Qed.

Lemma keeps_panic {A} : keeps R (@panic G A).
Proof. intros w. apply R_refl. Qed.

Lemma keeps_orPanic {A} (o : option A) : keeps R (orPanic o).
Proof. destruct o; [apply keeps_ret|apply keeps_panic]. Qed.

Lemma keeps_getVm : keeps R getVm.
Proof. intros w. apply R_refl. Qed.

(** [Q] holds of the values that [c] returns. *)
Lemma keeps_bind {A B} (Q : A -> Prop) (c : M A) (k : A -> M B) :
  keeps R c -> (forall w a w', c w = Ok a w' -> Q a) ->
  (forall a, Q a -> keeps R (k a)) -> keeps R (bind c k).
Proof.
  intros Hc HQ Hk w. unfold bind. specialize (Hc w).
  destruct (c w) as [a w'|code w'] eqn:E.
  - apply (R_trans _ w'); [exact Hc|]. apply Hk. apply (HQ w a w' E).
  - exact Hc.
Qed.

Lemma keeps_seq {A B} (c : M A) (k : A -> M B) :
  keeps R c -> (forall a, keeps R (k a)) -> keeps R (bind c k).
Proof.
  intros Hc Hk. apply (keeps_bind (fun _ => True)); auto.
Qed.

Lemma keeps_forBatches body numExamples bs n :
  (forall b s e, keeps R (body b s e)) ->
  forall b0, keeps R (forBatches n b0 numExamples bs body).
Proof.
  intros Hb. induction n as [|n IH]; intros b0; cbn [forBatches].
  - apply keeps_ret.
  - destruct (b0 * bs >=? numExamples); [apply keeps_ret|].
    apply keeps_seq; [apply Hb|]. intros _. apply IH.
Qed.

Lemma keeps_forEpochs body n :
  (forall i, keeps R (body i)) -> forall i0, keeps R (forEpochs n i0 body).
Proof.
  intros Hb. induction n as [|n IH]; intros i0; cbn [forEpochs].
  - apply keeps_ret.
  - apply keeps_seq; [apply Hb|]. intros _. apply IH.
Qed.

Lemma keeps_forRows body n :
  (forall j, keeps R (body j)) -> forall j0, keeps R (forRows n j0 body).
Proof.
  intros Hb. induction n as [|n IH]; intros j0; cbn [forRows].
  - apply keeps_ret.
  - apply keeps_seq; [apply Hb|]. intros _. apply IH.
Qed.

End Generic.

Section Steps.

Variable P : event -> Prop.
Variable F : string -> Prop.

Lemma frame_refl w : frame P F w w.
Proof.
  split; [|reflexivity]. exists []. rewrite app_nil_r. split; [reflexivity|constructor].
Qed.

Lemma frame_trans w1 w2 w3 : frame P F w1 w2 -> frame P F w2 w3 -> frame P F w1 w3.
Proof.
  intros [[e1 [T1 P1]] F1] [[e2 [T2 P2]] F2]. split.
  - exists (e1 ++ e2). rewrite T2, T1, app_assoc. split; [reflexivity|].
    apply Forall_app. split; assumption.
  - intros p Hp. rewrite (F2 p Hp). apply (F1 p Hp).
Qed.

Lemma frame_event w m e :
  P e -> frame P F w (mkWorld m (fs w) (trace w ++ [e])).
Proof.
  intros He. split; [|reflexivity]. exists [e]. split; [reflexivity|].
  constructor; [exact He|constructor].
Qed.

Lemma frame_vm w m : frame P F w (mkWorld m (fs w) (trace w)).
Proof.
  split; [|reflexivity]. exists []. cbn [trace]. rewrite app_nil_r.
  split; [reflexivity|constructor].
Qed.

Lemma keeps_emit e : P e -> keeps (frame P F) (emit e).
Proof. intros He w. apply frame_event. exact He. Qed.

Lemma keeps_logFatal {A} line : P (EvLog line) -> keeps (frame P F) (@logFatal G A line).
Proof. intros He w. apply frame_event. exact He. Qed.

Lemma keeps_slice t s e line :
  P (EvLog line) -> keeps (frame P F) (sliceOrFatal t s e line).
Proof.
  intros He. unfold sliceOrFatal. destruct (Slice t s e).
  - apply keeps_logFatal. exact He.
  - apply keeps_ret. apply frame_refl.
Qed.

Lemma keeps_reshape t r c line :
  (forall er, P (EvLog (line +:+ Error er))) ->
  keeps (frame P F) (reshapeOrFatal t r c line).
Proof.
  intros He. unfold reshapeOrFatal. destruct (Reshape t r c).
  - apply keeps_logFatal. apply He.
  - apply keeps_ret. apply frame_refl.
Qed.

Lemma keeps_runAll x y line :
  P (EvFeed x y) -> (forall er, P (EvLog (line +:+ Error er))) ->
  keeps (frame P F) (runAllOrFatal x y line).
Proof.
  intros Hf He w. unfold runAllOrFatal. destruct (RunAll (vm w) x y).
  - apply frame_event. apply He.
  - apply frame_event. exact Hf.
Qed.

Lemma keeps_solverStep : P EvStep -> keeps (frame P F) solverStep.
Proof. intros He w. apply frame_event. exact He. Qed.

Lemma keeps_vmReset : keeps (frame P F) vmReset.
Proof. intros w. apply frame_vm. Qed.

Lemma keeps_open_write trunc path content :
  F path -> (forall o, P (EvWrite path content o)) ->
  keeps (frame P F) (f <- openFile env path trunc ;; writeFile f path content).
Proof.
  intros HF HP w. rewrite open_write. unfold putFile.
  destruct (denied env path).
  - apply frame_event. apply HP.
  - split.
    + exists [EvWrite path content true]. split; [reflexivity|].
      constructor; [apply HP|constructor].
    + intros p Hp. cbn [fs]. apply lookup_insert_ne. intros ->. exact (Hp HF).
Qed.

Lemma keeps_openFile path trunc :
  F path -> keeps (frame P F) (openFile env path trunc).
Proof.
  intros HF w. unfold openFile. destruct (denied env path); [apply frame_refl|].
  split.
  - exists []. cbn [final_world trace]. rewrite app_nil_r. split; [reflexivity|constructor].
  - intros p Hp. cbn [final_world fs]. apply lookup_insert_ne. intros ->. exact (Hp HF).
Qed.

Lemma keeps_writeFile o path content :
  F path -> P (EvWrite path content o) -> keeps (frame P F) (writeFile o path content).
Proof.
  intros HF HP w. unfold writeFile. split.
  - exists [EvWrite path content o]. split; [reflexivity|].
    constructor; [exact HP|constructor].
  - intros p Hp. cbn [final_world fs]. destruct o; [|reflexivity].
    apply lookup_insert_ne. intros ->. exact (Hp HF).
Qed.

End Steps.

Lemma Reshape_shape t r c v : Reshape t r c = inr v -> v = mkDense r c (backing t) /\ 0 <= r.
Proof.
  unfold Reshape. destruct ((0 <=? r) && (r * c =? nrows t * ncols t)) eqn:E; [|discriminate].
  intros H. injection H as <-. apply andb_true_iff in E. split; [reflexivity|]. lia.
Qed.

Lemma reshapeOrFatal_value t r c line w a w' :
  reshapeOrFatal t r c line w = Ok a w' -> a = mkDense r c (backing t) /\ 0 <= r.
Proof.
  unfold reshapeOrFatal. destruct (Reshape t r c) as [er|v] eqn:E.
  - discriminate.
  - intros H. injection H as <- _. apply (Reshape_shape _ _ _ _ E).
Qed.

Lemma Reshape_again r c b : 0 <= r -> Reshape (mkDense r c b) r c = inr (mkDense r c b).
Proof.
  intros H. unfold Reshape. cbn [nrows ncols backing].
  rewrite Z.eqb_refl. destruct (Z.leb_spec 0 r); [reflexivity|lia].
Qed.

Lemma prefix_app p s : String.prefix p (p +:+ s) = true.
Proof.
  induction p as [|c p IH].
  - rewrite app_Empty. destruct s; reflexivity.
  - rewrite app_String. cbn [String.prefix]. destruct (ascii_dec c c); [exact IH|congruence].
Qed.

Lemma imageName_under b j l g : under imgPath (imageName b j l g).
Proof. apply prefix_app. Qed.

Lemma csvName_under b : under csvPath (csvName b).
Proof. apply prefix_app. Qed.

(** *** The classifier *)

Lemma trainBatch_frame i inputs targets bs b s e :
  keeps (frame (trainEvent bs) no_path) (trainBatch i inputs targets bs b s e).
Proof.
  pose proof (frame_refl (trainEvent bs) no_path) as Hr.
  pose proof (frame_trans (trainEvent bs) no_path) as Ht.
  unfold trainBatch.
  apply keeps_seq; [exact Ht|apply keeps_slice; exact I|]. intros xVal.
  apply keeps_seq; [exact Ht|apply keeps_slice; exact I|]. intros yVal.
  apply (keeps_bind _ Ht (fun v => batch_shaped bs v));
    [apply keeps_reshape; intros; exact I| |].
  { intros w a w' H. apply reshapeOrFatal_value in H. destruct H as [-> _].
    split; reflexivity. }
  intros x' Hx.
  apply keeps_seq; [exact Ht|apply keeps_runAll; [exact Hx|intros; exact I]|].
  intros _.
  apply keeps_seq; [exact Ht|apply keeps_solverStep; exact I|]. intros _.
  apply keeps_vmReset.
Qed.

Lemma trainLoop_frame inputs targets N bs batches :
  keeps (frame (trainEvent bs) no_path) (trainLoop env inputs targets N bs batches).
Proof.
  pose proof (frame_refl (trainEvent bs) no_path) as Hr.
  pose proof (frame_trans (trainEvent bs) no_path) as Ht.
  unfold trainLoop. apply keeps_forEpochs; [exact Hr|exact Ht|]. intros i.
  unfold trainEpoch.
  apply keeps_seq; [exact Ht| |].
  { apply keeps_forBatches; [exact Hr|exact Ht|]. intros b s e. apply trainBatch_frame. }
  intros _. apply keeps_seq; [exact Ht|apply keeps_getVm; exact Hr|].
  intros m. apply keeps_emit. exact I.
Qed.

Lemma evalImage_frame bs b xVal yVal yOutput j :
  keeps (frame (evalEvent bs) (fun p => under imgPath p \/ under csvPath p))
    (evalImage env b xVal yVal yOutput j).
Proof.
  set (F := fun p => under imgPath p \/ under csvPath p).
  pose proof (frame_refl (evalEvent bs) F) as Hr.
  pose proof (frame_trans (evalEvent bs) F) as Ht.
  unfold evalImage.
  apply keeps_seq; [exact Ht|apply keeps_orPanic; exact Hr|]. intros row.
  apply keeps_seq; [exact Ht|apply keeps_orPanic; exact Hr|]. intros yRow.
  apply keeps_seq; [exact Ht|apply keeps_orPanic; exact Hr|]. intros l.
  apply keeps_seq; [exact Ht|apply keeps_orPanic; exact Hr|]. intros predRow.
  apply keeps_seq; [exact Ht|apply keeps_orPanic; exact Hr|]. intros g.
  apply keeps_open_write.
  - left. apply imageName_under.
  - intros o. left. apply imageName_under.
Qed.

Lemma evalCsv_frame bs b backing_x :
  0 <= bs ->
  keeps (frame (evalEvent bs) (fun p => under imgPath p \/ under csvPath p))
    (evalCsv env b (mkDense bs 784 backing_x) bs).
Proof.
  intros Hbs.
  set (F := fun p => under imgPath p \/ under csvPath p).
  pose proof (frame_refl (evalEvent bs) F) as Hr.
  pose proof (frame_trans (evalEvent bs) F) as Ht.
  assert (HF : F (csvName b)) by (right; apply csvName_under).
  unfold evalCsv.
  apply keeps_seq; [exact Ht|apply keeps_getVm; exact Hr|]. intros m.
  apply keeps_seq; [exact Ht|apply keeps_orPanic; exact Hr|]. intros yOutput.
  apply keeps_seq; [exact Ht|apply keeps_openFile; exact HF|]. intros file.
  apply keeps_seq; [exact Ht| |].
  { unfold reshapeOrFatal. rewrite (Reshape_again bs 784 backing_x Hbs).
    apply keeps_ret. exact Hr. }
  intros _.
  apply keeps_seq; [exact Ht|apply keeps_orPanic; exact Hr|]. intros mat.
  apply keeps_writeFile; [exact HF|exact HF].
Qed.

Lemma evalBatch_frame inputs targets bs b s e :
  keeps (frame (evalEvent bs) (fun p => under imgPath p \/ under csvPath p))
    (evalBatch env inputs targets bs b s e).
Proof.
  set (F := fun p => under imgPath p \/ under csvPath p).
  pose proof (frame_refl (evalEvent bs) F) as Hr.
  pose proof (frame_trans (evalEvent bs) F) as Ht.
  unfold evalBatch.
  apply keeps_seq; [exact Ht|apply keeps_slice; reflexivity|]. intros xVal.
  apply keeps_seq; [exact Ht|apply keeps_slice; reflexivity|]. intros yVal.
  apply (keeps_bind _ Ht (fun v => v = mkDense bs 784 (backing xVal) /\ 0 <= bs));
    [apply keeps_reshape; intros; reflexivity| |].
  { intros w a w' H. apply (reshapeOrFatal_value _ _ _ _ _ _ _ H). }
  intros x' [-> Hbs].
  apply keeps_seq; [exact Ht| |].
  { apply keeps_runAll; [split; reflexivity|intros; reflexivity]. }
  intros _.
  apply keeps_seq; [exact Ht|apply keeps_getVm; exact Hr|]. intros m.
  apply keeps_seq; [exact Ht|apply keeps_orPanic; exact Hr|]. intros yOutput.
  apply keeps_seq; [exact Ht| |].
  { apply keeps_forRows; [exact Hr|exact Ht|]. intros j. apply evalImage_frame. }
  intros _.
  apply keeps_seq; [exact Ht|apply evalCsv_frame; exact Hbs|]. intros _.
  apply keeps_vmReset.
Qed.

Lemma evalLoop_frame inputs targets N bs batches :
  keeps (frame (evalEvent bs) (fun p => under imgPath p \/ under csvPath p))
    (evalLoop env inputs targets N bs batches).
Proof.
  unfold evalLoop. apply keeps_forBatches;
    [apply frame_refl|apply frame_trans|]. intros b s e. apply evalBatch_frame.
Qed.

(** *** The autoencoder *)

Lemma aeTrainBatch_frame i inputs bs b s e :
  keeps (frame (aeTrainEvent bs) no_path) (aeTrainBatch i inputs bs b s e).
Proof.
  pose proof (frame_refl (aeTrainEvent bs) no_path) as Hr.
  pose proof (frame_trans (aeTrainEvent bs) no_path) as Ht.
  unfold aeTrainBatch.
  apply keeps_seq; [exact Ht|apply keeps_slice; exact I|]. intros xVal.
  apply (keeps_bind _ Ht (fun v => batch_shaped bs v));
    [apply keeps_reshape; intros; exact I| |].
  { intros w a w' H. apply reshapeOrFatal_value in H. destruct H as [-> _].
    split; reflexivity. }
  intros x' Hx.
  apply keeps_seq; [exact Ht| |].
  { apply keeps_runAll; [split; [exact Hx|reflexivity]|intros; exact I]. }
  intros _.
  apply keeps_seq; [exact Ht|apply keeps_solverStep; exact I|]. intros _.
  apply keeps_vmReset.
Qed.

Lemma aeTrainLoop_frame inputs N bs batches :
  keeps (frame (aeTrainEvent bs) no_path) (aeTrainLoop env inputs N bs batches).
Proof.
  pose proof (frame_refl (aeTrainEvent bs) no_path) as Hr.
  pose proof (frame_trans (aeTrainEvent bs) no_path) as Ht.
  unfold aeTrainLoop. apply keeps_forEpochs; [exact Hr|exact Ht|]. intros i.
  unfold aeTrainEpoch.
  apply keeps_seq; [exact Ht| |].
  { apply keeps_forBatches; [exact Hr|exact Ht|]. intros b s e. apply aeTrainBatch_frame. }
  intros _. apply keeps_seq; [exact Ht|apply keeps_getVm; exact Hr|].
  intros m. apply keeps_emit. exact I.
Qed.

Lemma aeImage_frame bs b t suffix j :
  keeps (frame (aeEvalEvent bs) (under imgPath)) (aeImage env b t suffix j).
Proof.
  pose proof (frame_refl (aeEvalEvent bs) (under imgPath)) as Hr.
  pose proof (frame_trans (aeEvalEvent bs) (under imgPath)) as Ht.
  unfold aeImage.
  apply keeps_seq; [exact Ht|apply keeps_orPanic; exact Hr|]. intros row.
  apply keeps_open_write.
  - apply prefix_app.
  - intros o. apply prefix_app.
Qed.

Lemma aeEvalBatch_frame inputs bs b s e :
  keeps (frame (aeEvalEvent bs) (under imgPath)) (aeEvalBatch env inputs bs b s e).
Proof.
  pose proof (frame_refl (aeEvalEvent bs) (under imgPath)) as Hr.
  pose proof (frame_trans (aeEvalEvent bs) (under imgPath)) as Ht.
  unfold aeEvalBatch.
  apply keeps_seq; [exact Ht|apply keeps_slice; exact I|]. intros xVal.
  apply (keeps_bind _ Ht (fun v => batch_shaped bs v));
    [apply keeps_reshape; intros; exact I| |].
  { intros w a w' H. apply reshapeOrFatal_value in H. destruct H as [-> _].
    split; reflexivity. }
  intros x' Hx.
  apply keeps_seq; [exact Ht| |].
  { apply keeps_runAll; [split; [exact Hx|reflexivity]|intros; exact I]. }
  intros _.
  apply keeps_seq; [exact Ht| |].
  { apply keeps_forRows; [exact Hr|exact Ht|]. intros j. apply aeImage_frame. }
  intros _.
  apply keeps_seq; [exact Ht|apply keeps_getVm; exact Hr|]. intros m.
  apply keeps_seq; [exact Ht|apply keeps_orPanic; exact Hr|]. intros yOutput.
  apply keeps_seq; [exact Ht| |].
  { apply keeps_forRows; [exact Hr|exact Ht|]. intros j. apply aeImage_frame. }
  intros _. apply keeps_vmReset.
Qed.

Lemma aeEvalLoop_frame inputs N bs batches :
  keeps (frame (aeEvalEvent bs) (under imgPath)) (aeEvalLoop env inputs N bs batches).
Proof.
  unfold aeEvalLoop. apply keeps_forBatches;
    [apply frame_refl|apply frame_trans|]. intros b s e. apply aeEvalBatch_frame.
Qed.

(** A frame for weaker conditions. *)
Lemma frame_weaken (P P' : event -> Prop) (F F' : string -> Prop) w w' :
  (forall e, P e -> P' e) -> (forall p, F p -> F' p) ->
  frame P F w w' -> frame P' F' w w'.
Proof.
  intros HP HF [[evs [T Hevs]] Hfs]. split.
  - exists evs. split; [exact T|]. eapply Forall_impl; [exact Hevs|exact HP].
  - intros p Hp. apply Hfs. intros Hf. apply Hp. apply HF. exact Hf.
Qed.

Lemma frame_no_path P w w' : frame P no_path w w' -> fs w' = fs w.
Proof.
  intros [_ H]. apply map_eq. intros p. apply H. intros [].
Qed.

End Frames.

(** ** Whole runs *)

Section Whole.

Context {G : Gorgonia}.
Variable env : Env.

Lemma forBatches_plain body numExamples bs n : forall b0 w,
  0 < bs -> 0 <= b0 -> (b0 + Z.of_nat n) * bs <= numExamples ->
  forBatches n b0 numExamples bs body w = plainBatches n b0 bs body w.
Proof.
  induction n as [|n IH]; intros b0 w Hbs Hb0 Hfit; [reflexivity|].
  cbn [forBatches plainBatches].
  rewrite geb_false by nia. rewrite gtb_false by nia.
  unfold bind. destruct (body b0 (b0 * bs) (b0 * bs + bs) w) as [[] w1|code w1];
    [|reflexivity].
  apply IH; lia.
Qed.









Lemma feeds_epochBatches inputs targets bs :
  feeds (epochBatches inputs targets bs) = fullBatches inputs targets bs.
Proof.
  unfold epochBatches, fullBatches.
  induction (seqZ 0 (nrows inputs / bs)) as [|b l IH]; [reflexivity|].
  cbn [map concat]. rewrite feeds_app, IH. reflexivity.
Qed.




Lemma feeds_epochs_trace inputs targets bs (l : list Z) evss :
  Forall2 (trainEpochEvents inputs targets bs) l evss ->
  feeds (concat evss) = concat (replicate (length l) (fullBatches inputs targets bs)).
Proof.
  intros H. apply feeds_epochs. eapply Forall2_impl; [exact H|].
  intros i evs [cost ->]. rewrite feeds_app, feeds_epochBatches. cbn.
  apply app_nil_r.
Qed.

(** With no batch to run, an epoch only logs its line. *)
Lemma forEpochs_idle (body : Z -> M unit) n : forall i0 (w : world),
  (forall i w0, body i w0
     = Ok tt (mkWorld (vm w0) (fs w0)
                (trace w0 ++ [EvLog ("Epoch " +:+ itoa i +:+ " | cost " +:+ costVal (vm w0))]))) ->
  forEpochs n i0 body w
  = Ok tt (mkWorld (vm w) (fs w)
             (trace w ++ map (fun i => EvLog ("Epoch " +:+ itoa i +:+ " | cost "
                                               +:+ costVal (vm w)))
                           (seqZ i0 (Z.of_nat n)))).
Proof.
  intros i0 w Hb. revert i0 w. induction n as [|n IH]; intros i0 w.
  - cbn. rewrite app_nil_r. destruct w; reflexivity.
  - cbn [forEpochs]. rewrite (bind_Ok _ _ _ _ _ (Hb i0 w)). rewrite IH.
    cbn [vm fs trace]. rewrite Nat2Z.inj_succ, (seqZ_cons i0) by lia.
    cbn [map]. rewrite <- app_assoc. cbn [app].
    replace (Z.succ i0) with (i0 + 1) by lia.
    replace (Z.pred (Z.succ (Z.of_nat n))) with (Z.of_nat n) by lia.
    reflexivity.
Qed.

Lemma seqZ_to_nat m n : seqZ m (Z.of_nat (Z.to_nat n)) = seqZ m n.
Proof. unfold seqZ. rewrite Nat2Z.id. reflexivity. Qed.


Lemma classifier_main_ok train test w w1 w2 :
  mnistLoad env (flag_dataset env) = inr train -> flag_batchsize env <> 0 ->
  trainLoop env (fst train) (snd train) (nrows (fst train)) (flag_batchsize env)
    (Z.quot (nrows (fst train)) (flag_batchsize env))
    (mkWorld (vm w) (fs w)
       (trace w ++ [EvLog ("Batches " +:+ itoa (Z.quot (nrows (fst train))
                                                   (flag_batchsize env)))]))
  = Ok tt w1 ->
  mnistLoad env "test" = inr test ->
  evalLoop env (fst test) (snd test) (nrows (fst test)) (flag_batchsize env)
    (Z.quot (nrows (fst test)) (flag_batchsize env))
    (mkWorld (vm w1) (fs w1) (trace w1 ++ [EvLog "Run Tests"]))
  = Ok tt w2 ->
  classifier_main env w
  = Ok tt (mkWorld (vm w2) (fs w2)
             (trace w2 ++ [EvLog ("Epoch Test | cost " +:+ costVal (vm w2))])).
Proof.
  intros Htrain Hbs Et Htest Ee.
  unfold classifier_main, loadOrFatal, quotOrPanic. rewrite Htrain, Htest.
  destruct (Z.eqb_spec (flag_batchsize env) 0) as [?|_]; [contradiction|].
  unfold bind at 1. unfold ret at 1. unfold bind at 1. unfold ret at 1.
  unfold bind at 1. unfold logPrintf at 1, emit at 1.
  rewrite (bind_Ok _ _ _ _ _ Et).
  unfold bind at 1. unfold logPrintf at 1, emit at 1.
  unfold bind at 1. unfold ret at 1. unfold bind at 1. unfold ret at 1.
  rewrite (bind_Ok _ _ _ _ _ Ee). reflexivity.
Qed.


Lemma autoencoder_main_ok train test w w1 w2 :
  mnistLoad env (flag_dataset env) = inr train -> flag_batchsize env <> 0 ->
  aeTrainLoop env (fst train) (nrows (fst train)) (flag_batchsize env)
    (Z.quot (nrows (fst train)) (flag_batchsize env))
    (mkWorld (vm w) (fs w)
       (trace w ++ [EvLog ("Batches " +:+ itoa (Z.quot (nrows (fst train))
                                                   (flag_batchsize env)))]))
  = Ok tt w1 ->
  mnistLoad env "test" = inr test ->
  aeEvalLoop env (fst test) (nrows (fst test)) (flag_batchsize env)
    (Z.quot (nrows (fst test)) (flag_batchsize env))
    (mkWorld (vm w1) (fs w1) (trace w1 ++ [EvLog "Run Tests"]))
  = Ok tt w2 ->
  autoencoder_main env w
  = Ok tt (mkWorld (vm w2) (fs w2)
             (trace w2 ++ [EvLog ("Epoch Test | cost " +:+ costVal (vm w2))])).
Proof.
  intros Htrain Hbs Et Htest Ee.
  unfold autoencoder_main, loadOrFatal, quotOrPanic. rewrite Htrain, Htest.
  destruct (Z.eqb_spec (flag_batchsize env) 0) as [?|_]; [contradiction|].
  unfold bind at 1. unfold ret at 1. unfold bind at 1. unfold ret at 1.
  unfold bind at 1. unfold logPrintf at 1, emit at 1.
  rewrite (bind_Ok _ _ _ _ _ Et).
  unfold bind at 1. unfold logPrintf at 1, emit at 1.
  unfold bind at 1. unfold ret at 1. unfold bind at 1. unfold ret at 1.
  rewrite (bind_Ok _ _ _ _ _ Ee). reflexivity.
Qed.

(** The training loops when the data has less than one batch. *)
Lemma trainLoop_idle inputs targets N bs w :
  trainLoop env inputs targets N bs 0 w
  = Ok tt (mkWorld (vm w) (fs w) (trace w ++ idleEpochs (flag_epochs env) (vm w))).
Proof.
  unfold trainLoop, idleEpochs. rewrite forEpochs_idle.
  - rewrite seqZ_to_nat. reflexivity.
  - intros i w0. reflexivity.
Qed.

Lemma aeTrainLoop_idle inputs N bs w :
  aeTrainLoop env inputs N bs 0 w
  = Ok tt (mkWorld (vm w) (fs w) (trace w ++ idleEpochs (flag_epochs env) (vm w))).
Proof.
  unfold aeTrainLoop, idleEpochs. rewrite forEpochs_idle.
  - rewrite seqZ_to_nat. reflexivity.
  - intros i w0. reflexivity.
Qed.

End Whole.

(** ** The shapes of the networks *)

Section Shapes.

Lemma fwd_classifier bs r c :
  Classifier.fwd (Classifier.newNN bs) (Graph.NewMatrix "x" r c)
  = if (c =? 784) && (r =? bs)
    then Classifier.fwd (Classifier.newNN bs) (Graph.NewMatrix "x" bs 784)
    else None.
Proof.
  destruct (Z.eqb_spec c 784) as [-> |Hc]; cbn [andb].
  - destruct (Z.eqb_spec r bs) as [-> |Hr]; [reflexivity|].
    unfold Classifier.fwd, Classifier.newNN. cbn.
    rewrite (proj2 (Z.eqb_neq r bs) Hr). reflexivity.
  - unfold Classifier.fwd, Classifier.newNN. cbn.
    rewrite (proj2 (Z.eqb_neq c 784) Hc). reflexivity.
Qed.

Lemma fwd_autoencoder bs r c :
  Autoencoder.fwd (Autoencoder.newNN bs) (Graph.NewMatrix "x" r c)
  = if (c =? 784) && (r =? bs)
    then Autoencoder.fwd (Autoencoder.newNN bs) (Graph.NewMatrix "x" bs 784)
    else None.
Proof.
  destruct (Z.eqb_spec c 784) as [-> |Hc]; cbn [andb].
  - destruct (Z.eqb_spec r bs) as [-> |Hr]; [reflexivity|].
    unfold Autoencoder.fwd, Autoencoder.newNN. cbn.
    rewrite (proj2 (Z.eqb_neq r bs) Hr). reflexivity.
  - unfold Autoencoder.fwd, Autoencoder.newNN. cbn.
    rewrite (proj2 (Z.eqb_neq c 784) Hc). reflexivity.
Qed.

Lemma fwd_classifier_out bs :
  exists m o,
    Classifier.fwd (Classifier.newNN bs) (Graph.NewMatrix "x" bs 784) = Some m /\
    Classifier.out m = Some o /\ Graph.shape o = [bs; 10] /\
    Classifier.learnables m = Classifier.learnables (Classifier.newNN bs).
Proof.
  unfold Classifier.fwd, Classifier.newNN. cbn. repeat (rewrite Z.eqb_refl; cbn).
  eexists. eexists. split; [reflexivity|]. repeat split.
Qed.

Lemma fwd_autoencoder_out bs :
  exists m o,
    Autoencoder.fwd (Autoencoder.newNN bs) (Graph.NewMatrix "x" bs 784) = Some m /\
    Autoencoder.out m = Some o /\ Graph.shape o = [bs; 784] /\
    Autoencoder.learnables m = Autoencoder.learnables (Autoencoder.newNN bs).
Proof.
  unfold Autoencoder.fwd, Autoencoder.newNN. cbn. repeat (rewrite Z.eqb_refl; cbn).
  eexists. eexists. split; [reflexivity|]. repeat split.
Qed.

End Shapes.

(** * The claims *)

(** C2, counterexample.  The clamp does not bring every input into
    [0.01, 0.99]: [math.Max] and [math.Min] return NaN on NaN, so a NaN
    pixel stays NaN after the clamp and no value of the interval is
    mapped. *)
Lemma C2_nan_is_not_clamped :
  clampPixel NaN = NaN /\
  ~ (exists c, clampPixel NaN = Finite c /\ (1 # 100 <= c <= 99 # 100)%Q).
Proof.
  split; [apply clamp_NaN|].
  intros [c [H _]]. rewrite clamp_NaN in H. discriminate H.
Qed.

(** C2, amended.  For every input [px] that is not NaN, the function
    first clamps [px] to a value [c] of [0.01, 0.99] and then maps [c] to
    a byte: the byte returned is the conversion of [255 * c - 255], and it
    lies in [4, 254], so it is a valid pixel value also for out-of-range
    and for infinite inputs. *)
Theorem C2_pixel_clamped_then_mapped (px : float64) :
  is_nan px = false ->
  exists c,
    clampPixel px = Finite c /\ (1 # 100 <= c <= 99 # 100)%Q /\
    reversePixelWeight px = to_byte (sub (mul pixelRange (Finite c)) pixelRange) /\
    4 <= reversePixelWeight px <= 254.
Proof.
  intros Hn. destruct (clamp_finite px Hn) as [c [Hc Hr]].
  pose proof c01_c99_exact as [E1 [E2 E3]].
  exists c. split; [exact Hc|]. split; [split; lra|].
  destruct (pixel_byte c Hr) as [Hb Ht].
  split.
  - unfold reversePixelWeight. rewrite Hc. reflexivity.
  - rewrite (rpw_clamped px c Hc Hr). lia.
Qed.

Lemma C2_pixel_clamped_then_mapped_witness :
  is_nan (Finite (3 # 2)) = false /\
  exists c,
    clampPixel (Finite (3 # 2)) = Finite c /\ (1 # 100 <= c <= 99 # 100)%Q /\
    reversePixelWeight (Finite (3 # 2))
    = to_byte (sub (mul pixelRange (Finite c)) pixelRange) /\
    4 <= reversePixelWeight (Finite (3 # 2)) <= 254.
Proof.
  split; [reflexivity|].
  apply (C2_pixel_clamped_then_mapped (Finite (3 # 2))). reflexivity.
Defined.

(** The byte returned for NaN is a byte as well: 0, the low eight bits of
    the conversion. *)
Lemma reversePixelWeight_NaN : reversePixelWeight NaN = 0.
Proof. vm_compute. reflexivity. Qed.

(** C3, counterexample.  The mapping is not idempotent on mapped values:
    the pixel 0.5 is mapped to 129, and 129 is mapped to 254. *)
Lemma C3_not_idempotent :
  reversePixelWeight (Finite (1 # 2)) = 129 /\
  reversePixelWeight (of_byte (reversePixelWeight (Finite (1 # 2)))) = 254 /\
  reversePixelWeight (of_byte (reversePixelWeight (Finite (1 # 2))))
  <> reversePixelWeight (Finite (1 # 2)).
Proof.
  assert (E1 : reversePixelWeight (Finite (1 # 2)) = 129)
    by (vm_compute; reflexivity).
  assert (E2 : reversePixelWeight (of_byte 129) = 254)
    by (vm_compute; reflexivity).
  rewrite E1, E2. repeat split; discriminate.
Qed.

(** C3, amended.  The mapping is monotonic: for two activations
    [a <= b] (in particular both within [0.01, 0.99]) the byte of [b] is
    at least the byte of [a]; and the clamp step, not the whole mapping,
    is idempotent. *)
Theorem C3_pixel_monotonic (a b : float64) :
  le a b = true ->
  reversePixelWeight a <= reversePixelWeight b /\
  clampPixel (clampPixel a) = clampPixel a.
Proof.
  intros H. split; [apply rpw_mono, H | apply clamp_idem].
Qed.

Lemma C3_pixel_monotonic_witness :
  le (Finite (1 # 4)) (Finite (3 # 4)) = true /\
  reversePixelWeight (Finite (1 # 4)) <= reversePixelWeight (Finite (3 # 4)) /\
  clampPixel (clampPixel (Finite (1 # 4))) = clampPixel (Finite (1 # 4)).
Proof.
  split; [reflexivity|].
  apply (C3_pixel_monotonic (Finite (1 # 4)) (Finite (3 # 4))). reflexivity.
Defined.

(** C6.  For every one-hot target row (ten entries, 1.0 at index [i] and
    0.0 elsewhere) the arg-max loop of the evaluation returns [i]. *)
Theorem C6_argmax_one_hot (row : list float64) (i : nat) :
  one_hot row i -> argmax10 row = Some i.
Proof.
  intros [Hlen [Hi Hrow]].
  assert (Hsome : forall j, (j < 10)%nat -> is_Some (row !! j)).
  { intros j Hj. apply lookup_lt_is_Some_2. lia. }
  destruct (Hsome i Hi) as [x Hx].
  pose proof (Hrow i x Hx) as Ex. rewrite Nat.eqb_refl in Ex.
  assert (Hmax : attains_max row i).
  { split; [exact Hi|]. exists x. split; [exact Hx|].
    intros j y Hj Hy. pose proof (Hrow j y Hy) as Ey.
    apply eq_iff in Ex. apply eq_iff in Ey. apply le_iff.
    destruct Ex as [Nx [_ [Tx Vx]]]. destruct Ey as [Ny [_ [Ty Vy]]].
    split; [exact Ny|]. split; [exact Nx|]. unfold key_le.
    destruct (Nat.eqb j i); cbn [tier val] in *; right; split; lra. }
  destruct (argmax10_least row i Hmax Hsome) as [l [El [[Hl [y [Hy Hall]]] Hleast]]].
  rewrite El. f_equal.
  pose proof (Hleast i Hmax) as Hli.
  destruct (Nat.eq_dec l i) as [->|Hne]; [reflexivity|exfalso].
  pose proof (Hrow l y Hy) as Ey.
  replace (Nat.eqb l i) with false in Ey by (symmetry; apply Nat.eqb_neq; exact Hne).
  pose proof (Hall i x Hi Hx) as L.
  apply eq_iff in Ex. apply eq_iff in Ey. apply le_iff in L.
  destruct Ex as [_ [_ [Tx Vx]]]. destruct Ey as [_ [_ [Ty Vy]]].
  destruct L as [_ [_ L]]. unfold key_le in L. cbn [tier val] in *. lra.
Qed.

Lemma C6_argmax_one_hot_witness :
  one_hot (map (fun z => Finite (inject_Z z)) [0;0;0;1;0;0;0;0;0;0]) 3 /\
  argmax10 (map (fun z => Finite (inject_Z z)) [0;0;0;1;0;0;0;0;0;0]) = Some 3%nat.
Proof.
  assert (H : one_hot (map (fun z => Finite (inject_Z z)) [0;0;0;1;0;0;0;0;0;0]) 3).
  { split; [reflexivity|]. split; [lia|].
    intros k x Hk.
    do 10 (destruct k as [|k]; [injection Hk as <-; reflexivity|]).
    discriminate Hk. }
  split; [exact H|]. apply (C6_argmax_one_hot _ 3%nat H).
Defined.

(** C10.  Both arg-max computations use the same loop with a strict
    comparison, so a later entry equal to the current maximum does not
    replace it: whenever the ten entries have a maximum, the label
    returned is an index that attains it and is at most every index that
    attains it. *)
Theorem C10_argmax_least_index (row : list float64) (i : nat) :
  length row = 10%nat -> attains_max row i ->
  exists l, argmax10 row = Some l /\ attains_max row l /\
    forall i', attains_max row i' -> (l <= i')%nat.
Proof.
  intros Hlen Hmax. apply (argmax10_least row i Hmax).
  intros j Hj. apply lookup_lt_is_Some_2. lia.
Qed.

Lemma C10_argmax_least_index_witness :
  length (map (fun z => Finite (inject_Z z)) [1;7;3;7;0;7;2;2;1;0]) = 10%nat /\
  attains_max (map (fun z => Finite (inject_Z z)) [1;7;3;7;0;7;2;2;1;0]) 5 /\
  exists l, argmax10 (map (fun z => Finite (inject_Z z)) [1;7;3;7;0;7;2;2;1;0]) = Some l /\
    attains_max (map (fun z => Finite (inject_Z z)) [1;7;3;7;0;7;2;2;1;0]) l /\
    forall i', attains_max (map (fun z => Finite (inject_Z z)) [1;7;3;7;0;7;2;2;1;0]) i' ->
      (l <= i')%nat.
Proof.
  assert (H : attains_max (map (fun z => Finite (inject_Z z)) [1;7;3;7;0;7;2;2;1;0]) 5).
  { split; [lia|]. eexists. split; [reflexivity|].
    intros j y Hj Hy.
    do 10 (destruct j as [|j]; [injection Hy as <-; reflexivity|]).
    discriminate Hy. }
  split; [reflexivity|]. split; [exact H|].
  apply (C10_argmax_least_index _ 5%nat); [reflexivity | exact H].
Defined.

Example argmax_tie :
  argmax10 (map (fun z => Finite (inject_Z z)) [1;7;3;7;0;7;2;2;1;0]) = Some 1%nat.
Proof. vm_compute. reflexivity. Qed.

Lemma toy_library_ok : @library_ok toy.
Proof. intros m x y. exists (backing y). split; reflexivity. Qed.

Lemma toyInputs_shape : well_shaped toyInputs 784.
Proof.
  split; [cbn; lia|]. split; [reflexivity|]. vm_compute. reflexivity.
Qed.

Lemma toyTargets_shape : well_shaped toyTargets 10.
Proof.
  split; [cbn; lia|]. split; [reflexivity|]. vm_compute. reflexivity.
Qed.



Lemma trainEpoch_exit {G : Gorgonia} inputs targets N bs batches i w code w' :
  trainEpoch inputs targets N bs batches i w = Exit code w' ->
  forBatches (Z.to_nat batches) 0 N bs (trainBatch i inputs targets bs) w
  = Exit code w'.
Proof.
  unfold trainEpoch, bind.
  destruct (forBatches _ _ _ _ _ w) as [[] w1|c1 w1]; [discriminate|].
  intros E. exact E.
Qed.

Lemma aeTrainEpoch_exit {G : Gorgonia} inputs N bs batches i w code w' :
  aeTrainEpoch inputs N bs batches i w = Exit code w' ->
  forBatches (Z.to_nat batches) 0 N bs (aeTrainBatch i inputs bs) w
  = Exit code w'.
Proof.
  unfold aeTrainEpoch, bind.
  destruct (forBatches _ _ _ _ _ w) as [[] w1|c1 w1]; [discriminate|].
  intros E. exact E.
Qed.

(** C5.  In the training loop of both programs, a batch for which slicing
    the inputs or the targets, reshaping, or the run of the machine fails
    logs a line and exits with status 1 whatever was to follow ([k]: the
    solver step, the other batches, the other epochs, the evaluation).
    Conversely an exit of the training loop has status 1 and leaves the
    world of the failing batch with the logged line as its last event: no
    step was taken after the failure.  And [main] exits with the training
    loop. *)
Theorem C5_training_failure_is_fatal {G : Gorgonia} (env : Env) :
  (forall i inputs targets bs b start end_ w,
     trainBatchFails inputs targets bs start end_ (vm w) ->
     exists line, forall (A : Type) (k : unit -> M A),
       bind (trainBatch i inputs targets bs b start end_) k w
       = Exit 1 (fatalWorld w line)) /\
  (forall inputs targets N bs batches w code w',
     trainLoop env inputs targets N bs batches w = Exit code w' ->
     code = 1 /\
     exists start end_ w0 line,
       trainBatchFails inputs targets bs start end_ (vm w0) /\
       w' = fatalWorld w0 line) /\
  (forall d w code w',
     mnistLoad env (flag_dataset env) = inr d -> flag_batchsize env <> 0 ->
     trainLoop env (fst d) (snd d) (nrows (fst d)) (flag_batchsize env)
       (Z.quot (nrows (fst d)) (flag_batchsize env))
       (mkWorld (vm w) (fs w)
          (trace w ++ [EvLog ("Batches "
                              +:+ itoa (Z.quot (nrows (fst d)) (flag_batchsize env)))]))
     = Exit code w' ->
     classifier_main env w = Exit code w') /\
  (forall i inputs bs b start end_ w,
     aeTrainBatchFails inputs bs start end_ (vm w) ->
     exists line, forall (A : Type) (k : unit -> M A),
       bind (aeTrainBatch i inputs bs b start end_) k w
       = Exit 1 (fatalWorld w line)) /\
  (forall inputs N bs batches w code w',
     aeTrainLoop env inputs N bs batches w = Exit code w' ->
     code = 1 /\
     exists start end_ w0 line,
       aeTrainBatchFails inputs bs start end_ (vm w0) /\
       w' = fatalWorld w0 line) /\
  (forall d w code w',
     mnistLoad env (flag_dataset env) = inr d -> flag_batchsize env <> 0 ->
     aeTrainLoop env (fst d) (nrows (fst d)) (flag_batchsize env)
       (Z.quot (nrows (fst d)) (flag_batchsize env))
       (mkWorld (vm w) (fs w)
          (trace w ++ [EvLog ("Batches "
                              +:+ itoa (Z.quot (nrows (fst d)) (flag_batchsize env)))]))
     = Exit code w' ->
     autoencoder_main env w = Exit code w').
Proof.
  split; [|split; [|split; [|split; [|split]]]].
  - intros i inputs targets bs b start end_ w Hf.
    destruct (trainBatch_run i inputs targets bs b start end_ w)
      as [[_ [line E]]|[Hn _]]; [|contradiction].
    exists line. intros A k. apply bind_Exit. exact E.
  - intros inputs targets N bs batches w code w' E.
    unfold trainLoop in E. apply forEpochs_exit in E. destruct E as [i [w0 E]].
    apply trainEpoch_exit in E. apply forBatches_exit in E.
    destruct E as [b [start [end_ [w1 E]]]].
    destruct (trainBatch_run i inputs targets bs b start end_ w1)
      as [[Hf [line E']]|[_ [w2 E']]]; rewrite E' in E; [|discriminate E].
    injection E as <- <-. split; [reflexivity|]. eauto 6.
  - intros d w code w' Hd Hbs E. unfold classifier_main, loadOrFatal.
    rewrite Hd. unfold quotOrPanic.
    destruct (Z.eqb_spec (flag_batchsize env) 0) as [?|_]; [contradiction|].
    unfold bind at 1. unfold ret at 1. unfold bind at 1. unfold ret at 1.
    unfold bind at 1. unfold logPrintf at 1, emit at 1.
    apply bind_Exit. exact E.
  - intros i inputs bs b start end_ w Hf.
    destruct (aeTrainBatch_run i inputs bs b start end_ w)
      as [[_ [line E]]|[Hn _]]; [|contradiction].
    exists line. intros A k. apply bind_Exit. exact E.
  - intros inputs N bs batches w code w' E.
    unfold aeTrainLoop in E. apply forEpochs_exit in E. destruct E as [i [w0 E]].
    apply aeTrainEpoch_exit in E. apply forBatches_exit in E.
    destruct E as [b [start [end_ [w1 E]]]].
    destruct (aeTrainBatch_run i inputs bs b start end_ w1)
      as [[Hf [line E']]|[_ [w2 E']]]; rewrite E' in E; [|discriminate E].
    injection E as <- <-. split; [reflexivity|]. eauto 6.
  - intros d w code w' Hd Hbs E. unfold autoencoder_main, loadOrFatal.
    rewrite Hd. unfold quotOrPanic.
    destruct (Z.eqb_spec (flag_batchsize env) 0) as [?|_]; [contradiction|].
    unfold bind at 1. unfold ret at 1. unfold bind at 1. unfold ret at 1.
    unfold bind at 1. unfold logPrintf at 1, emit at 1.
    apply bind_Exit. exact E.
Qed.

Lemma C5_training_failure_is_fatal_witness :
  @trainBatchFails toy toyInputs shortTargets 2 2 4 (vm toyWorld) /\
  exists line, forall (A : Type) (k : unit -> @M toy A),
    bind (@trainBatch toy 0 toyInputs shortTargets 2 1 2 4) k toyWorld
    = Exit 1 (fatalWorld toyWorld line).
Proof.
  assert (H : @trainBatchFails toy toyInputs shortTargets 2 2 4 (vm toyWorld))
    by (vm_compute; exact I).
  split; [exact H|].
  exact (proj1 (@C5_training_failure_is_fatal toy (toyEnv 1))
           0 toyInputs shortTargets 2 1 2 4 toyWorld H).
Defined.



(** C4.  In the evaluation loop a failed open of an image file or of
    the CSV file changes nothing in the course of the run: the status (no
    exit, or the same exit), the machine and the events, log lines
    included, are those of the run in which every file opens; and the
    files that could not be opened keep the content they had, so their
    output is lost.  The same holds for the images of the autoencoder. *)
Theorem C4_open_failures_are_dropped {G : Gorgonia} (env : Env)
  (inputs targets : Dense) (N bs batches : Z) (w : world) :
  observe (evalLoop env inputs targets N bs batches w)
  = observe (evalLoop (allowAll env) inputs targets N bs batches w) /\
  (forall p, denied env p = true ->
     fs (final_world (evalLoop env inputs targets N bs batches w)) !! p = fs w !! p) /\
  observe (aeEvalLoop env inputs N bs batches w)
  = observe (aeEvalLoop (allowAll env) inputs N bs batches w) /\
  (forall p, denied env p = true ->
     fs (final_world (aeEvalLoop env inputs N bs batches w)) !! p = fs w !! p).
Proof.
  assert (H1 : simR env (fs w) (evalLoop env inputs targets N bs batches w)
                 (evalLoop (allowAll env) inputs targets N bs batches w)).
  { unfold evalLoop. apply sim_forBatches; [|apply sameObs_refl].
    intros b s e. apply sim_evalBatch. }
  assert (H2 : simR env (fs w) (aeEvalLoop env inputs N bs batches w)
                 (aeEvalLoop (allowAll env) inputs N bs batches w)).
  { unfold aeEvalLoop. apply sim_forBatches; [|apply sameObs_refl].
    intros b s e. apply sim_aeEvalBatch. }
  apply simR_observe in H1. apply simR_observe in H2.
  destruct H1 as [A1 B1]. destruct H2 as [A2 B2]. repeat split; assumption.
Qed.

(** C7, the code at a failing input.  The CSV file is opened without
    [O_TRUNC] (the image files are opened with it), so a file left by an
    earlier run is overwritten from its start and keeps its tail: after the
    evaluation of a batch of two examples over a file of three records, the
    file still has three records. *)
Theorem C7_csv_keeps_stale_records :
  length (file_rows staleCsv) = 3%nat /\
  exists w1 content,
    @evalBatch toy (toyEnv 0) toyInputs toyTargets 2 0 0 2 staleWorld = Ok tt w1 /\
    fs w1 !! csvName 0 = Some content /\
    length (file_rows content) = 3%nat /\
    nrows (batchRows toyInputs 2 0) = 2.
Proof.
  split; [vm_compute; reflexivity|].
  destruct (@evalBatch_ok toy (toyEnv 0) toyInputs toyTargets 2 0 staleWorld
              toy_library_ok toyInputs_shape toyTargets_shape eq_refl
              ltac:(lia) ltac:(lia) ltac:(cbn; lia))
    as [m' [w1 [evs [Hrun [E [_ [_ [_ Hfs]]]]]]]].
  injection Hrun as <-.
  exists w1. eexists. split; [exact E|]. split; [apply Hfs; reflexivity|].
  split; [vm_compute; reflexivity | reflexivity].
Qed.

(** * Further properties of the code *)

(** X2.  For a pixel [px] that is not NaN and its clamped value [c], the
    byte is [255 * c] rounded to an integer, plus one: it lies between
    [floor (255 * c) + 1] and [ceiling (255 * c) + 1].  The negative value
    [255 * c - 255] is truncated toward zero and wraps around modulo 256;
    the two roundings of the product and of the difference do not move
    it across an integer. *)
Theorem X2_pixel_brightness (px : float64) :
  is_nan px = false ->
  exists c, clampPixel px = Finite c /\
    Qfloor (255 * c) + 1 <= reversePixelWeight px <= Qceiling (255 * c) + 1.
Proof.
  intros Hn. destruct (clamp_finite px Hn) as [c [Hc Hr]].
  exists c. split; [exact Hc|].
  rewrite (rpw_clamped px c Hc Hr).
  pose proof (shifted_between c Hr). lia.
Qed.

Lemma X2_pixel_brightness_witness :
  is_nan (Finite (1 # 2)) = false /\
  exists c, clampPixel (Finite (1 # 2)) = Finite c /\
    Qfloor (255 * c) + 1 <= reversePixelWeight (Finite (1 # 2)) <= Qceiling (255 * c) + 1.
Proof.
  split; [reflexivity|]. apply (X2_pixel_brightness (Finite (1 # 2))). reflexivity.
Defined.

(** X1.  The mapping saturates: every pixel at most 0.01 (the negative
    infinity and the zeros included) gives the byte 4, and every pixel at
    least 0.99 (the positive infinity included) gives the byte 254. *)
Theorem X1_pixel_saturates (px : float64) :
  (le px (const (1 # 100)) = true -> reversePixelWeight px = 4) /\
  (le (const (99 # 100)) px = true -> reversePixelWeight px = 254).
Proof.
  rewrite const_c01, const_c99. split; intros H.
  - pose proof (rpw_mono _ _ H) as Hm.
    destruct (le_not_nan _ _ H) as [Hn _].
    pose proof (rpw_range px Hn).
    assert (E : reversePixelWeight (Finite c01) = 4) by (vm_compute; reflexivity).
    lia.
  - pose proof (rpw_mono _ _ H) as Hm.
    destruct (le_not_nan _ _ H) as [_ Hn].
    pose proof (rpw_range px Hn).
    assert (E : reversePixelWeight (Finite c99) = 254) by (vm_compute; reflexivity).
    lia.
Qed.


(** X4.  The arg-max loop reads the entries 0 to 9 of the row: it panics
    (index out of range) exactly when the row has fewer than ten entries,
    a label it returns is below 10 and is an index of the row, and the
    entries after the tenth have no effect on the label. *)
Theorem X4_argmax_short_row (row : list float64) :
  (argmax10 row = None <-> (length row < 10)%nat) /\
  (forall l, argmax10 row = Some l -> (l < 10)%nat /\ is_Some (row !! l)) /\
  argmax10 row = argmax10 (take 10 row).
Proof.
  split; [|split].
  - split.
    + intros H. destruct (Nat.lt_ge_cases (length row) 10) as [|Hge]; [assumption|].
      destruct (argmax10_total row Hge) as [l E]. congruence.
    + intros H. unfold argmax10. rewrite argmax_loop_None by lia. reflexivity.
  - apply argmax10_index.
  - unfold argmax10. f_equal. apply argmax_loop_ext.
    intros j Hj. rewrite lookup_take_lt by lia. reflexivity.
Qed.

(** X5.  NaN in the arg-max loop, on a row of at least ten entries.  No
    entry is greater than a NaN, so a NaN in first place stays and the
    label is 0; a NaN is greater than no entry, so a NaN in a later place
    is passed over like a negative infinity and is never the entry of the
    label. *)
Theorem X5_argmax_nan (row : list float64) :
  (10 <= length row)%nat ->
  (row !! 0%nat = Some NaN -> argmax10 row = Some 0%nat) /\
  argmax10 (nanAsNInf row) = argmax10 row /\
  (forall l, argmax10 row = Some l -> row !! l = Some NaN -> l = 0%nat).
Proof.
  intros Hlen. split; [|split].
  - intros H0. rewrite argmax10_first, H0.
    rewrite (argmax_loop_stuck row 9 1 0) by lia. reflexivity.
  - rewrite !argmax10_first.
    destruct row as [|x0 rest]; [reflexivity|].
    cbn [nanAsNInf]. rewrite !lookup_cons.
    f_equal. apply (argmax_loop_nanAsNInf (x0 :: rest) 9 1). lia.
  - intros l H Hl. rewrite argmax10_first in H.
    destruct (row !! 0%nat) as [x0|] eqn:E0; [|discriminate H].
    destruct (argmax_loop 9 1 row (0%nat, x0)) as [st'|] eqn:E; [|discriminate H].
    injection H as <-.
    apply argmax_loop_not_nan in E; [|lia].
    destruct E as [-> |[Hn [Hr _]]]; [reflexivity|].
    rewrite Hr in Hl. injection Hl as Hl. rewrite Hl in Hn. discriminate Hn.
Qed.

Lemma X5_argmax_nan_witness :
  (10 <= length (NaN :: replicate 9 (Finite 1)))%nat /\
  argmax10 (NaN :: replicate 9 (Finite 1)) = Some 0%nat.
Proof.
  split; [cbn; lia|].
  refine (proj1 (X5_argmax_nan (NaN :: replicate 9 (Finite 1)) _) _);
    [cbn; lia | reflexivity].
Defined.

(** X6.  The decimal form of an integer ([%d]) reads back as the
    integer. *)
Theorem X6_itoa_round_trip (z : Z) : atoi (itoa z) = z.
Proof. apply atoi_itoa. Qed.

(** X7.  The file names of the evaluation are read back without
    ambiguity: the name of an image of the classifier gives its batch, its
    example, its label and its guess; the name of a CSV file gives its
    batch; the name of an image of the autoencoder gives its batch and its
    example, and an input image and an output image never share a name.
    So within a run no two examples write to the same file. *)
Theorem X7_file_names_distinct (b j b' j' : Z) :
  0 <= b -> 0 <= j -> 0 <= b' -> 0 <= j' ->
  (forall l g l' g',
     imageName b j l g = imageName b' j' l' g' ->
     b = b' /\ j = j' /\ l = l' /\ g = g') /\
  (csvName b = csvName b' -> b = b') /\
  (forall suffix,
     suffix = " input.png" \/ suffix = " output.png" ->
     aeImageName b j suffix = aeImageName b' j' suffix -> b = b' /\ j = j') /\
  aeImageName b j " input.png" <> aeImageName b' j' " output.png".
Proof.
  intros Hb Hj Hb' Hj'.
  assert (Hsp : is_digit " " = false) by reflexivity.
  assert (Hdot : is_digit "." = false) by reflexivity.
  split; [|split; [|split]].
  - intros l g l' g' E. unfold imageName in E.
    unfold imgPath, csvPath in E. apply string_app_inv_head in E.
    rewrite !itoa_nonneg in E by lia.
    change (" - " +:+ ?x) with (String " " ("- " +:+ x)) in E.
    apply utoa_token in E; [|lia|lia|reflexivity|reflexivity]. destruct E as [-> E].
    injection E as E. apply string_app_inv_head in E.
    change (" - " +:+ ?x) with (String " " ("- " +:+ x)) in E.
    apply utoa_token in E; [|lia|lia|reflexivity|reflexivity]. destruct E as [-> E].
    injection E as E. apply string_app_inv_head in E.
    change (" - " +:+ ?x) with (String " " ("- " +:+ x)) in E.
    apply utoa_token in E; [|lia|lia|reflexivity|reflexivity]. destruct E as [El E].
    injection E as E. apply string_app_inv_head in E.
    change (".png") with (String "." "png") in E.
    apply utoa_token in E; [|lia|lia|reflexivity|reflexivity]. destruct E as [Eg _].
    repeat split; lia.
  - intros E. unfold csvName in E.
    unfold imgPath, csvPath in E. apply string_app_inv_head in E.
    rewrite !itoa_nonneg in E by lia.
    change (".csv") with (String "." "csv") in E.
    apply utoa_token in E; [|lia|lia|reflexivity|reflexivity]. tauto.
  - intros suffix Hs E. unfold aeImageName in E.
    unfold imgPath, csvPath in E. apply string_app_inv_head in E.
    rewrite !itoa_nonneg in E by lia.
    change (" - " +:+ ?x) with (String " " ("- " +:+ x)) in E.
    apply utoa_token in E; [|lia|lia|reflexivity|reflexivity]. destruct E as [-> E].
    injection E as E. apply string_app_inv_head in E.
    destruct Hs as [-> | ->].
    + change (" input.png") with (String " " "input.png") in E.
      apply utoa_token in E; [|lia|lia|reflexivity|reflexivity]. tauto.
    + change (" output.png") with (String " " "output.png") in E.
      apply utoa_token in E; [|lia|lia|reflexivity|reflexivity]. tauto.
  - intros E. unfold aeImageName in E.
    unfold imgPath, csvPath in E. apply string_app_inv_head in E.
    rewrite !itoa_nonneg in E by lia.
    change (" - " +:+ ?x) with (String " " ("- " +:+ x)) in E.
    apply utoa_token in E; [|lia|lia|reflexivity|reflexivity]. destruct E as [-> E].
    injection E as E. apply string_app_inv_head in E.
    change (" input.png") with (String " " "input.png") in E.
    change (" output.png") with (String " " "output.png") in E.
    apply utoa_token in E; [|lia|lia|reflexivity|reflexivity]. destruct E as [_ E]. discriminate E.
Qed.

Lemma X7_file_names_distinct_witness :
  0 <= 3 /\ (csvName 3 = csvName 3 -> 3 = 3).
Proof.
  split; [lia|].
  exact (proj1 (proj2 (X7_file_names_distinct 3 1 3 2
                         ltac:(lia) ltac:(lia) ltac:(lia) ltac:(lia)))).
Defined.

(** X8.  A finite value printed with six decimals
    ([strconv.FormatFloat(x, 'f', 6, 64)]) reads back to within half a
    unit of the sixth decimal place. *)
Theorem X8_FormatFloat_round_trip (x : float64) :
  is_nan x = false -> is_inf x = false ->
  (Qabs (read_decimal (FormatFloat_f6 x) - val x) <= 1 # 2000000)%Q.
Proof. apply FormatFloat_error. Qed.

Lemma X8_FormatFloat_round_trip_witness :
  is_nan (Finite (- (1) # 3)) = false /\ is_inf (Finite (- (1) # 3)) = false /\
  (Qabs (read_decimal (FormatFloat_f6 (Finite (- (1) # 3))) - val (Finite (- (1) # 3)))
   <= 1 # 2000000)%Q.
Proof.
  split; [reflexivity|]. split; [reflexivity|].
  apply (X8_FormatFloat_round_trip (Finite (- (1) # 3))); reflexivity.
Defined.





(** X11.  Training writes no file: whatever the data, and whether the
    loop ends normally or exits, the training loop of either program
    leaves the file system as it was and adds no write to the trace. *)
Theorem X11_training_writes_no_file {G : Gorgonia} (env : Env)
  (inputs targets : Dense) (N bs batches : Z) (w : world) :
  fs (final_world (trainLoop env inputs targets N bs batches w)) = fs w /\
  (exists evs,
     trace (final_world (trainLoop env inputs targets N bs batches w)) = trace w ++ evs /\
     Forall (fun e => forall p c o, e <> EvWrite p c o) evs) /\
  fs (final_world (aeTrainLoop env inputs N bs batches w)) = fs w /\
  (exists evs,
     trace (final_world (aeTrainLoop env inputs N bs batches w)) = trace w ++ evs /\
     Forall (fun e => forall p c o, e <> EvWrite p c o) evs).
Proof.
  pose proof (trainLoop_frame env inputs targets N bs batches w) as H1.
  pose proof (aeTrainLoop_frame env inputs N bs batches w) as H2.
  split; [apply (frame_no_path _ _ _ H1)|].
  split.
  { destruct H1 as [[evs [T Hevs]] _]. exists evs. split; [exact T|].
    eapply Forall_impl; [exact Hevs|]. intros e He p c o ->. exact He. }
  split; [apply (frame_no_path _ _ _ H2)|].
  destruct H2 as [[evs [T Hevs]] _]. exists evs. split; [exact T|].
  eapply Forall_impl; [exact Hevs|]. intros e He p c o ->. exact He.
Qed.

(** X12.  Evaluation does not train and writes only its outputs: whatever
    the data and the outcome, the evaluation loop takes no solver step,
    every file it writes is below [./images/] or [./csv/] (below
    [./images/] for the autoencoder), and every other file keeps its
    content. *)
Theorem X12_evaluation_only_writes_outputs {G : Gorgonia} (env : Env)
  (inputs targets : Dense) (N bs batches : Z) (w : world) :
  (exists evs,
     trace (final_world (evalLoop env inputs targets N bs batches w)) = trace w ++ evs /\
     Forall (fun e => e <> EvStep /\
                      forall p c o, e = EvWrite p c o ->
                                    under imgPath p \/ under csvPath p) evs) /\
  (forall p, ~ under imgPath p -> ~ under csvPath p ->
     fs (final_world (evalLoop env inputs targets N bs batches w)) !! p = fs w !! p) /\
  (exists evs,
     trace (final_world (aeEvalLoop env inputs N bs batches w)) = trace w ++ evs /\
     Forall (fun e => e <> EvStep /\
                      forall p c o, e = EvWrite p c o -> under imgPath p) evs) /\
  (forall p, ~ under imgPath p ->
     fs (final_world (aeEvalLoop env inputs N bs batches w)) !! p = fs w !! p).
Proof.
  pose proof (evalLoop_frame env inputs targets N bs batches w) as [[e1 [T1 H1]] F1].
  pose proof (aeEvalLoop_frame env inputs N bs batches w) as [[e2 [T2 H2]] F2].
  split; [|split; [|split]].
  - exists e1. split; [exact T1|]. eapply Forall_impl; [exact H1|].
    intros e He. split.
    + intros ->. exact He.
    + intros p c o ->. exact He.
  - intros p Hi Hc. apply F1. intros [H|H]; [exact (Hi H)|exact (Hc H)].
  - exists e2. split; [exact T2|]. eapply Forall_impl; [exact H2|].
    intros e He. split.
    + intros ->. exact He.
    + intros p c o ->. exact He.
  - exact F2.
Qed.

(** X13.  The check after the CSV file is opened never fails.  The error
    of [os.OpenFile] is overwritten by a second [Reshape(bs, 784)] of the
    batch, which was reshaped to that shape before: the second reshape
    succeeds, so no run of the evaluation loop logs
    [Unable to create csv]. *)
Theorem X13_csv_check_never_fails {G : Gorgonia} (env : Env)
  (inputs targets : Dense) (N bs batches : Z) (w : world) :
  (forall xVal v, Reshape xVal bs 784 = inr v -> Reshape v bs 784 = inr v) /\
  exists evs,
    trace (final_world (evalLoop env inputs targets N bs batches w)) = trace w ++ evs /\
    Forall (fun e => forall line,
              e = EvLog line -> String.prefix "Unable to create csv" line = false) evs.
Proof.
  split.
  - intros xVal v H. apply Reshape_shape in H. destruct H as [-> Hbs].
    apply Reshape_again. exact Hbs.
  - pose proof (evalLoop_frame env inputs targets N bs batches w) as [[e1 [T1 H1]] _].
    exists e1. split; [exact T1|]. eapply Forall_impl; [exact H1|].
    intros e He line ->. exact He.
Qed.

(** X14.  Every batch bound to the input of the graph has [bs] rows and
    784 columns, in the four loops and whatever the data: a batch is fed
    only after [Reshape(bs, 784)] succeeded.  The autoencoder binds the
    same matrix to its input and to its target. *)
Theorem X14_fed_batches_shape {G : Gorgonia} (env : Env)
  (inputs targets : Dense) (N bs batches : Z) (w : world) :
  (forall x y,
     (x, y) ∈ feeds (trace (final_world (trainLoop env inputs targets N bs batches w))) ->
     (x, y) ∈ feeds (trace w) \/ (nrows x = bs /\ ncols x = 784)) /\
  (forall x y,
     (x, y) ∈ feeds (trace (final_world (evalLoop env inputs targets N bs batches w))) ->
     (x, y) ∈ feeds (trace w) \/ (nrows x = bs /\ ncols x = 784)) /\
  (forall x y,
     (x, y) ∈ feeds (trace (final_world (aeTrainLoop env inputs N bs batches w))) ->
     (x, y) ∈ feeds (trace w) \/ (nrows x = bs /\ ncols x = 784 /\ y = x)) /\
  (forall x y,
     (x, y) ∈ feeds (trace (final_world (aeEvalLoop env inputs N bs batches w))) ->
     (x, y) ∈ feeds (trace w) \/ (nrows x = bs /\ ncols x = 784 /\ y = x)).
Proof.
  assert (Hfeed : forall (P : event -> Prop) (Q : Dense -> Dense -> Prop) (w' : world),
             (forall x y, P (EvFeed x y) -> Q x y) ->
             frame P (fun _ => True) w w' ->
             forall x y, (x, y) ∈ feeds (trace w') -> (x, y) ∈ feeds (trace w) \/ Q x y).
  { intros P Q w' HPQ [[evs [T Hevs]] _] x y Hin.
    rewrite T, feeds_app in Hin. apply elem_of_app in Hin.
    destruct Hin as [Hin|Hin]; [left; exact Hin|right].
    unfold feeds in Hin. apply list_elem_of_omap in Hin.
    destruct Hin as [e [He Hm]]. rewrite Forall_forall in Hevs.
    destruct e; try discriminate Hm. injection Hm as -> ->.
    apply HPQ. apply Hevs. exact He. }
  split; [|split; [|split]].
  - apply (Hfeed (trainEvent bs)); [intros x y H; exact H|].
    eapply frame_weaken; [| |apply trainLoop_frame]; auto.
  - apply (Hfeed (evalEvent bs)); [intros x y H; exact H|].
    eapply frame_weaken; [| |apply evalLoop_frame]; auto.
  - apply (Hfeed (aeTrainEvent bs)); [intros x y [[H1 H2] H3]; auto|].
    eapply frame_weaken; [| |apply aeTrainLoop_frame]; auto.
  - apply (Hfeed (aeEvalEvent bs)); [intros x y [[H1 H2] H3]; auto|].
    eapply frame_weaken; [| |apply aeEvalLoop_frame]; auto.
Qed.

(** X15.  A data set smaller than one batch.  When the training set and
    the test set have fewer examples than the batch size, the batch count
    is 0: [main] feeds nothing, takes no solver step and writes no file,
    and still ends normally, having logged the batch count, one line per
    epoch with the cost of the initial machine, and the two closing
    lines. *)
Theorem X15_dataset_smaller_than_batch {G : Gorgonia} (env : Env) (w : world)
  (train test : Dense * Dense) :
  mnistLoad env (flag_dataset env) = inr train ->
  mnistLoad env "test" = inr test ->
  0 <= nrows (fst train) < flag_batchsize env ->
  0 <= nrows (fst test) < flag_batchsize env ->
  let tr := ((trace w ++ [EvLog "Batches 0"]) ++ idleEpochs (flag_epochs env) (vm w))
            ++ [EvLog "Run Tests"; EvLog ("Epoch Test | cost " +:+ costVal (vm w))] in
  classifier_main env w = Ok tt (mkWorld (vm w) (fs w) tr) /\
  autoencoder_main env w = Ok tt (mkWorld (vm w) (fs w) tr).
Proof.
  intros Htrain Htest Hn Hm tr.
  assert (Hq1 : Z.quot (nrows (fst train)) (flag_batchsize env) = 0)
    by (apply Z.quot_small; lia).
  assert (Hq2 : Z.quot (nrows (fst test)) (flag_batchsize env) = 0)
    by (apply Z.quot_small; lia).
  split.
  - rewrite (classifier_main_ok env train test w _ _ Htrain ltac:(lia)
               ltac:(rewrite Hq1; apply trainLoop_idle) Htest
               ltac:(rewrite Hq2; reflexivity)).
    cbn [vm fs trace]. unfold tr. rewrite <- !app_assoc. reflexivity.
  - rewrite (autoencoder_main_ok env train test w _ _ Htrain ltac:(lia)
               ltac:(rewrite Hq1; apply aeTrainLoop_idle) Htest
               ltac:(rewrite Hq2; reflexivity)).
    cbn [vm fs trace]. unfold tr. rewrite <- !app_assoc. reflexivity.
Qed.

Lemma X15_dataset_smaller_than_batch_witness :
  0 <= nrows oneInput < flag_batchsize smallEnv /\
  @classifier_main toy smallEnv toyWorld
  = Ok tt (@mkWorld toy [] ∅
             [EvLog "Batches 0"; EvLog "Epoch 0 | cost 0"; EvLog "Epoch 1 | cost 0";
              EvLog "Epoch 2 | cost 0"; EvLog "Run Tests"; EvLog "Epoch Test | cost 0"]).
Proof.
  split; [cbn; lia|].
  exact (proj1 (@X15_dataset_smaller_than_batch toy smallEnv toyWorld
                  (oneInput, oneTarget) (oneInput, oneTarget) eq_refl eq_refl
                  ltac:(cbn; lia) ltac:(cbn; lia))).
Defined.

(** X16.  The two guards of the batch loop never fire.  With a positive
    batch size and [batches = numExamples / bs], every batch starts below
    [numExamples] and ends at most there: the [break] is never taken and
    [end] is never clipped, so the loop is the plain loop over the
    [batches] full batches, for every body. *)
Theorem X16_batch_guards_never_fire {G : Gorgonia} (numExamples bs : Z)
  (body : Z -> Z -> Z -> M unit) (w : world) :
  0 <= numExamples -> 0 < bs ->
  forBatches (Z.to_nat (Z.quot numExamples bs)) 0 numExamples bs body w
  = plainBatches (Z.to_nat (Z.quot numExamples bs)) 0 bs body w.
Proof.
  intros HN Hbs. destruct (quot_fits _ _ HN Hbs) as [Hq [H0 Hfit]].
  apply forBatches_plain; [exact Hbs|lia|]. rewrite Hq, Z2Nat.id by lia. lia.
Qed.

Lemma X16_batch_guards_never_fire_witness :
  0 <= 5 /\ 0 < 2 /\
  @forBatches toy (Z.to_nat (Z.quot 5 2)) 0 5 2
     (@trainBatch toy 0 toyInputs toyTargets 2) toyWorld
  = @plainBatches toy (Z.to_nat (Z.quot 5 2)) 0 2
      (@trainBatch toy 0 toyInputs toyTargets 2) toyWorld.
Proof.
  split; [lia|]. split; [lia|].
  apply (@X16_batch_guards_never_fire toy 5 2); lia.
Defined.





(** X19.  The layers of the two networks fit together.  For a batch
    size [bs], [fwd] on an input of shape [(bs, 784)] does not panic; the
    output of the classifier has shape [(bs, 10)] and the output of the
    autoencoder has shape [(bs, 784)]; and the cost built from the output
    and a target of the shape that [main] gives [y] is a scalar. *)
Theorem X19_network_shapes (bs : Z) :
  (exists m o c,
     Classifier.fwd (Classifier.newNN bs) (Graph.NewMatrix "x" bs 784) = Some m /\
     Classifier.out m = Some o /\ Graph.shape o = [bs; 10] /\
     Classifier.cost m (Graph.NewMatrix "y" bs 10) = Some c /\ Graph.shape c = []) /\
  (exists m o c,
     Autoencoder.fwd (Autoencoder.newNN bs) (Graph.NewMatrix "x" bs 784) = Some m /\
     Autoencoder.out m = Some o /\ Graph.shape o = [bs; 784] /\
     Autoencoder.cost m (Graph.NewMatrix "y" bs 784) = Some c /\ Graph.shape c = []).
Proof.
  split.
  - destruct (fwd_classifier_out bs) as [m [o [E [Ho [Hs Hl]]]]].
    exists m, o. unfold Classifier.cost. rewrite Ho.
    cbn [Graph.must1 Graph.must2 Graph.apply1].
    unfold Graph.apply2. cbn [Graph.shape]. rewrite Hs. cbn [Graph.shape_eqb].
    rewrite !Z.eqb_refl. cbn [andb Graph.must1 Graph.apply1].
    eexists. repeat split; assumption.
  - destruct (fwd_autoencoder_out bs) as [m [o [E [Ho [Hs Hl]]]]].
    exists m, o. unfold Autoencoder.cost. rewrite Ho.
    cbn [Graph.must1 Graph.must2 Graph.apply1].
    unfold Graph.apply2. cbn [Graph.shape]. rewrite Hs. cbn [Graph.shape_eqb].
    rewrite !Z.eqb_refl. cbn [andb Graph.must1 Graph.apply1].
    eexists. repeat split; assumption.
Qed.

(** X20.  The graph takes batches of one shape only.  [fwd] panics
    unless its input has exactly [batchsize] rows (the ones matrix that
    spreads the biases over the batch has that many) and 784 columns, so a
    shorter last batch could not be fed to the graph; and the cost can be
    built only for a target of the shape of the output. *)
Theorem X20_graph_input_shape (bs r c : Z) :
  (is_Some (Classifier.fwd (Classifier.newNN bs) (Graph.NewMatrix "x" r c))
   <-> r = bs /\ c = 784) /\
  (is_Some (Autoencoder.fwd (Autoencoder.newNN bs) (Graph.NewMatrix "x" r c))
   <-> r = bs /\ c = 784) /\
  (forall m,
     Classifier.fwd (Classifier.newNN bs) (Graph.NewMatrix "x" bs 784) = Some m ->
     is_Some (Classifier.cost m (Graph.NewMatrix "y" r c)) <-> r = bs /\ c = 10) /\
  (forall m,
     Autoencoder.fwd (Autoencoder.newNN bs) (Graph.NewMatrix "x" bs 784) = Some m ->
     is_Some (Autoencoder.cost m (Graph.NewMatrix "y" r c)) <-> r = bs /\ c = 784).
Proof.
  split; [|split; [|split]].
  - rewrite fwd_classifier. split.
    + intros [m H]. destruct (Z.eqb_spec c 784); destruct (Z.eqb_spec r bs);
        try discriminate H. split; assumption.
    + intros [-> ->]. rewrite !Z.eqb_refl. cbn [andb].
      destruct (fwd_classifier_out bs) as [m [_ [E _]]]. rewrite E. eauto.
  - rewrite fwd_autoencoder. split.
    + intros [m H]. destruct (Z.eqb_spec c 784); destruct (Z.eqb_spec r bs);
        try discriminate H. split; assumption.
    + intros [-> ->]. rewrite !Z.eqb_refl. cbn [andb].
      destruct (fwd_autoencoder_out bs) as [m [_ [E _]]]. rewrite E. eauto.
  - intros m E. destruct (fwd_classifier_out bs) as [m' [o [E' [Ho [Hs _]]]]].
    rewrite E in E'. injection E' as <-.
    unfold Classifier.cost. rewrite Ho.
    cbn [Graph.must1 Graph.must2 Graph.apply1].
    unfold Graph.apply2. cbn [Graph.shape]. rewrite Hs. cbn [Graph.shape_eqb].
    rewrite andb_true_r. split.
    + intros [n H]. destruct (Z.eqb_spec bs r); destruct (Z.eqb_spec 10 c);
        try discriminate H. split; congruence.
    + intros [-> ->]. rewrite !Z.eqb_refl. cbn. eauto.
  - intros m E. destruct (fwd_autoencoder_out bs) as [m' [o [E' [Ho [Hs _]]]]].
    rewrite E in E'. injection E' as <-.
    unfold Autoencoder.cost. rewrite Ho.
    cbn [Graph.must1 Graph.must2 Graph.apply1].
    unfold Graph.apply2. cbn [Graph.shape]. rewrite Hs. cbn [Graph.shape_eqb].
    rewrite andb_true_r. split.
    + intros [n H]. destruct (Z.eqb_spec r bs); destruct (Z.eqb_spec c 784);
        try discriminate H. split; congruence.
    + intros [-> ->]. rewrite !Z.eqb_refl. cbn. eauto.
Qed.

(** * Concrete runs *)

(** The rounding on rationals gives the results of the Standard Library's
    binary64 operations: at the two bounds of the clamp, at 0.5, and at
    the binary64 numbers next to 1/3, 0.1, 0.5 and 0.9. *)
Example pixel_arithmetic_agrees :
  forallb (fun x => Qeq_bool (SF2Q (pixelSF x)) (pixelQ (SF2Q x)))
    [S754_finite false 5764607523034235 (-59);
     S754_finite false 8917127262193582 (-53);
     S754_finite false 1 (-1);
     S754_finite false 6004799503160661 (-54);
     S754_finite false 7205759403792794 (-56);
     S754_finite false 4503599627370497 (-53);
     S754_finite false 8106479329266893 (-53)] = true.
Proof. vm_compute. reflexivity. Qed.

Example clamp_bounds_are_binary64 :
  Qeq_bool c01 (SF2Q (S754_finite false 5764607523034235 (-59))) = true /\
  Qeq_bool c99 (SF2Q (S754_finite false 8917127262193582 (-53))) = true.
Proof. split; vm_compute; reflexivity. Qed.

Example pixels :
  map reversePixelWeight
    [Finite 0; Finite (1 # 100); Finite (1 # 2); Finite (99 # 100); Finite 1;
     Finite (- (3)); PInf; NInf; NZero; NaN]
  = [4; 4; 129; 254; 254; 4; 254; 4; 4; 0].
Proof. vm_compute. reflexivity. Qed.

(** A NaN in first place keeps the label at 0: no later entry is greater. *)
Example argmax_nan_first :
  argmax10 (NaN :: map (fun z => Finite (inject_Z z)) [1;7;3;7;0;7;2;2;1]) = Some 0%nat.
Proof. vm_compute. reflexivity. Qed.

(** With targets of three rows and batches of two, the second batch of the
    first epoch cannot be sliced: the run feeds one batch, logs and exits. *)
Example run_exits_on_short_targets :
  exit_code (@classifier_main toy shortEnv toyWorld) = Some 1 /\
  last (trace (final_world (@classifier_main toy shortEnv toyWorld)))
  = Some (EvLog "Unable to slice y") /\
  length (feeds (trace (final_world (@classifier_main toy shortEnv toyWorld)))) = 1%nat.
Proof. vm_compute. auto. Qed.

(** When no file of the CSV directory can be opened the run ends normally;
    the images are there and the CSV files are not. *)
Example run_without_csv :
  exit_code (@classifier_main toy noCsvEnv toyWorld) = None /\
  fs (final_world (@classifier_main toy noCsvEnv toyWorld)) !! csvName 0 = None /\
  fs (final_world (@classifier_main toy noCsvEnv toyWorld)) !! csvName 1 = None /\
  is_Some (fs (final_world (@classifier_main toy noCsvEnv toyWorld))
           !! imageName 0 0 3 3).
Proof. vm_compute. repeat split; eauto. Qed.

(** A run of one epoch over five examples in batches of two. *)
Example run_one_epoch :
  exit_code (@classifier_main toy (toyEnv 1) toyWorld) = None /\
  length (feeds (trace (final_world (@classifier_main toy (toyEnv 1) toyWorld)))) = 4%nat /\
  file_rows <$> (fs (final_world (@classifier_main toy (toyEnv 1) toyWorld)) !! csvName 1)
  = Some [["0.000000";"0.000000";"0.000000";"0.000000";"0.000000";
           "0.000000";"0.000000";"0.000000";"0.000000";"1.000000"];
          ["0.000000";"1.000000";"0.000000";"0.000000";"0.000000";
           "0.000000";"0.000000";"0.000000";"0.000000";"0.000000"]].
Proof. vm_compute. auto. Qed.

Example fmt1 : FormatFloat_f6 (Finite (1 # 128)) = "0.007812".
Proof. vm_compute. reflexivity. Qed.
Example fmt2 : FormatFloat_f6 (Finite (- 12345678 # 1000)) = "-12345.678000".
Proof. vm_compute. reflexivity. Qed.
Example fmt3 : six_decimal (FormatFloat_f6 (Finite (1 # 3))) = true.
Proof. vm_compute. reflexivity. Qed.
Example itoa1 : itoa 1203 = "1203" /\ itoa 0 = "0" /\ itoa (-45) = "-45".
Proof. vm_compute. auto. Qed.
Example rows1 : file_rows (csvWriteAll [["a";"b"];["c";"d"]]) = [["a";"b"];["c";"d"]].
Proof. vm_compute. reflexivity. Qed.
Example am1 : argmax10 (map (fun z => Finite (inject_Z z)) [0;0;1;0;0;1;0;0;0;0]) = Some 2%nat.
Proof. vm_compute. reflexivity. Qed.
